(** * Whispr: a reactive value container

    A shallow embedding of the TypeScript sources

    - [safeClone] and [isLikelyClassInstance]  (utils, the deep-clone service),
    - [Observable]  (Observable.ts, the value cell),
    - [Whispr]      (Whispr.ts, the reactive handle, [wait] and [from]),
    - [WhisprMap]   (WhisprMap.ts, the map of handles),

    followed by the properties proved about them.

    JavaScript values live in an explicit heap, so that reference identity
    and aliasing are visible: an object is an address, and two values alias
    when they are the same address.  User code (listeners, predicates,
    [clone] methods, combining functions) is a parameter of the development:
    an arbitrary transformer of the heap and of the console that returns,
    throws, or does not terminate.  It is handed no cell: a listener that
    calls back into a cell from inside its own notification is outside the
    embedding.  The listeners that the library itself installs, those of
    [wait], of [from] and of a [WhisprMap], are embedded from their
    source, and the last two kinds do write to a cell. *)

From Stdlib Require Import ZArith.
From stdpp Require Import base option list strings.

Local Open Scope string_scope.
Local Open Scope list_scope.

(** ** JavaScript values *)

Definition addr := nat.

(** Identity of a function object; user code is looked up under it. *)
Definition fn := nat.

(** Numbers: integer-valued doubles and NaN.  No claim depends on
    fractional arithmetic. *)
Inductive number :=
  | Num (z : Z)
  | NaN.

Inductive jsvalue :=
  | VNull
  | VUndefined
  | VString (s : string)
  | VNumber (n : number)
  | VBigInt (z : Z)
  | VSymbol (id : nat)
  | VBoolean (b : bool)
  | VRef (a : addr).

#[global] Instance number_eq_dec : EqDecision number.
Proof. solve_decision. Defined.

#[global] Instance jsvalue_eq_dec : EqDecision jsvalue.
Proof. solve_decision. Defined.

(** What [proto.constructor] evaluates to on a prototype object. *)
Inductive ctor :=
  | CtorObject              (* the global [Object] *)
  | CtorFunction (f : fn)   (* some other function: a class *)
  | CtorNotFunction.        (* absent, or not callable *)

(** The prototype of a generic object, as far as [safeClone] looks at it:
    [members] are the properties visible through the prototype chain. *)
Inductive proto :=
  | ProtoNull
  | ProtoObject
  | ProtoOther (constructor : ctor) (members : list (string * jsvalue)).

#[global] Instance ctor_eq_dec : EqDecision ctor.
Proof. solve_decision. Defined.

#[global] Instance proto_eq_dec : EqDecision proto.
Proof. solve_decision. Defined.

Inductive object :=
  | OArray (items : list jsvalue)
  | OMap (entries : list (jsvalue * jsvalue))
  | OSet (items : list jsvalue)
  | OError (name : string) (message : string) (stack : option string)
           (fields : list (string * jsvalue))
  | ODate (time : number)
  | ORegExp (source flags : string) (lastIndex : Z)
  | OArrayBuffer (bytes : list Z)
  | OFunction (f : fn)
  | OPromise (p : nat)
  | ORecord (p : proto) (props : list (string * jsvalue)).

(** One line of the diagnostic channel: [console.warn(msg, arg)]. *)
Inductive diagnostic :=
  | Warn (msg : string) (arg : jsvalue).

Record mem := Mem {
  heap : list object;
  console : list diagnostic
}.

(** ** Computations: return, throw, or no result *)

(** [Diverge] is the absence of a result: the fuel of a recursive
    definition ran out.  A computation that has no result for any fuel
    models unbounded recursion, which the JavaScript engine ends by a
    [RangeError] once the stack is full. *)
Inductive outcome (S A : Type) :=
  | Ret (x : A) (s : S)
  | Throw (e : jsvalue) (s : S)
  | Diverge.
Arguments Ret {S A} x s.
Arguments Throw {S A} e s.
Arguments Diverge {S A}.

Definition M (S A : Type) := S -> outcome S A.

Definition ret {S A} (x : A) : M S A := fun s => Ret x s.

Definition bind {S A B} (c : M S A) (k : A -> M S B) : M S B :=
  fun s =>
    match c s with
    | Ret x s' => k x s'
    | Throw e s' => Throw e s'
    | Diverge => Diverge
    end.

Declare Scope js_scope.
Delimit Scope js_scope with js.
Notation "x <- c ;; k" := (bind c (fun x => k))
  (at level 100, c at next level, right associativity) : js_scope.
Local Open Scope js_scope.

(** [xs.map(f)] with an effectful [f], left to right. *)
Fixpoint traverse {S A B} (f : A -> M S B) (xs : list A) : M S (list B) :=
  match xs with
  | [] => ret []
  | x :: xs' => y <- f x ;; ys <- traverse f xs' ;; ret (y :: ys)
  end.

(** A loop [for (const x of xs) acc = step(acc, x)]. *)
Fixpoint foldM {S A B} (step : B -> A -> M S B) (xs : list A) (acc : B) : M S B :=
  match xs with
  | [] => ret acc
  | x :: xs' => acc' <- step acc x ;; foldM step xs' acc'
  end.

(** ** Heap operations *)

Definition alloc (o : object) : M mem jsvalue :=
  fun m => Ret (VRef (length (heap m))) (Mem (heap m ++ [o]) (console m)).

Definition store (a : addr) (o : object) (m : mem) : mem :=
  Mem (<[a:=o]> (heap m)) (console m).

Definition warn (msg : string) (arg : jsvalue) (m : mem) : mem :=
  Mem (heap m) (console m ++ [Warn msg arg]).

(** [typeof v === 'function'] *)
Definition is_function (h : list object) (v : jsvalue) : option fn :=
  match v with
  | VRef a => match h !! a with Some (OFunction f) => Some f | _ => None end
  | _ => None
  end.

(** Property lookup in an association list, first binding wins. *)
Fixpoint assoc {A} (k : string) (l : list (string * A)) : option A :=
  match l with
  | [] => None
  | (k', x) :: l' => if decide (k = k') then Some x else assoc k l'
  end.

(** [obj.key] on a generic object: own properties, then the prototype
    chain; [undefined] when absent. *)
Definition get_property (p : proto) (props : list (string * jsvalue)) (k : string) : jsvalue :=
  match assoc k props with
  | Some v => v
  | None =>
    match p with
    | ProtoOther _ members => default VUndefined (assoc k members)
    | _ => VUndefined
    end
  end.

(** [map.set(k, v)]: replaces the value under an existing key, else appends. *)
Fixpoint map_set (es : list (jsvalue * jsvalue)) (k v : jsvalue) : list (jsvalue * jsvalue) :=
  match es with
  | [] => [(k, v)]
  | (k', v') :: es' => if decide (k = k') then (k, v) :: es' else (k', v') :: map_set es' k v
  end.

(** [set.add(x)] *)
Definition set_add (xs : list jsvalue) (x : jsvalue) : list jsvalue :=
  if decide (x ∈ xs) then xs else xs ++ [x].

(** [obj[k] = v] on the own properties of an object. *)
Fixpoint prop_set {A} (ps : list (string * A)) (k : string) (v : A) : list (string * A) :=
  match ps with
  | [] => [(k, v)]
  | (k', v') :: ps' => if decide (k = k') then (k, v) :: ps' else (k', v') :: prop_set ps' k v
  end.

(** [Object.fromEntries(es)] *)
Definition fromEntries {A} (es : list (string * A)) : list (string * A) :=
  fold_left (fun acc kv => prop_set acc kv.1 kv.2) es [].

(** ** The deep-clone service *)

(** [isLikelyClassInstance(obj)], for an object that is already known to
    be neither a primitive nor a function. *)
Definition isLikelyClassInstance (o : object) : bool :=
  match o with
  | ORecord ProtoNull _ => false
  | ORecord ProtoObject _ => false
  | ORecord (ProtoOther c _) _ =>
    match c with
    | CtorFunction _ => true
    | CtorObject | CtorNotFunction => false
    end
  (* the built-in classes have a prototype whose constructor is the class *)
  | _ => true
  end.

Section Clone.

(** User code: [call f this args] runs the function object [f]. *)
Variable call : fn -> jsvalue -> list jsvalue -> M mem jsvalue.

(** [safeClone(value)].  The recursion of the source is unbounded, so
    the embedding takes fuel: one unit per nested call.  A container is
    allocated once its entries are cloned; addresses are abstract
    identities, so the order of allocation is not observable.  The
    entries of a container are read when its clone starts. *)
Fixpoint safeClone (fuel : nat) (v : jsvalue) : M mem jsvalue :=
  match fuel with
  | O => fun _ => Diverge
  | S n =>
    match v with
    | VNull | VUndefined | VString _ | VNumber _ | VBigInt _
    | VSymbol _ | VBoolean _ => ret v
    | VRef a => fun m =>
      match heap m !! a with
      | None => Ret v m
      | Some o =>
        match o with
        | OArray items =>
          (items' <- traverse (safeClone n) items ;; alloc (OArray items')) m
        | OMap entries =>
          (es <- foldM (fun newMap kv =>
                          k <- safeClone n kv.1 ;;
                          x <- safeClone n kv.2 ;;
                          ret (map_set newMap k x)) entries [] ;;
           alloc (OMap es)) m
        | OSet items =>
          (xs <- foldM (fun newSet item =>
                          x <- safeClone n item ;;
                          ret (set_add newSet x)) items [] ;;
           alloc (OSet xs)) m
        | OError _ message stack _ =>
          alloc (OError "Error" message
                        (Some (default "No Stack Found" stack)) []) m
        | ODate t => alloc (ODate t) m
        | ORegExp source flags _ => alloc (ORegExp source flags 0) m
        | OArrayBuffer bytes => alloc (OArrayBuffer bytes) m
        | OFunction _ => Ret v m
        | OPromise _ => Ret v m
        | ORecord p props =>
          match is_function (heap m) (get_property p props "clone") with
          | Some f => call f v [] m
          | None =>
            if isLikelyClassInstance o then Ret v m
            else
              (es <- traverse (fun kv => x <- safeClone n kv.2 ;; ret (kv.1, x))
                          props ;;
               alloc (ORecord ProtoObject (fromEntries es))) m
          end
        end
      end
    end
  end.

End Clone.

(** ** The content of a value

    [reify] unfolds a value of the heap into the tree of everything the
    embedding records about it: the notion of deep equality.  Objects that
    [safeClone] shares by identity are leaves named by their address, and
    so are the objects that have a [clone] operation, whose copy is
    whatever that operation makes.  There is no tree for a value that is
    cyclic or deeper than the fuel, nor for an ill-formed heap (a dangling
    address, a key that occurs twice). *)

#[local] Set Warnings "-register-all".

Inductive tree :=
  | TPrim (v : jsvalue)
  | TShared (a : addr)
  | TCustom (a : addr)
  | TArray (items : list tree)
  | TMap (entries : list (tree * tree))
  | TSet (items : list tree)
  | TError (name message : string) (stack : option string)
           (fields : list (string * jsvalue))
  | TDate (time : number)
  | TRegExp (source flags : string) (lastIndex : Z)
  | TArrayBuffer (bytes : list Z)
  | TRecord (p : proto) (props : list (string * tree)).

(** The address of [v], if it is one, is in the heap. *)
Definition bounded (h : list object) (v : jsvalue) : bool :=
  match v with
  | VRef a => bool_decide (a < length h)
  | _ => true
  end.

(** [typeof obj.clone === 'function'] *)
Definition has_clone (h : list object) (p : proto) (props : list (string * jsvalue)) : bool :=
  bool_decide (is_Some (is_function h (get_property p props "clone"))).

Definition reify_entry (f : jsvalue -> option tree) (kv : jsvalue * jsvalue)
  : option (tree * tree) :=
  k ← f kv.1; x ← f kv.2; Some (k, x).

Definition reify_prop (f : jsvalue -> option tree) (kv : string * jsvalue)
  : option (string * tree) :=
  x ← f kv.2; Some (kv.1, x).

Fixpoint reify (fuel : nat) (h : list object) (v : jsvalue) : option tree :=
  match fuel with
  | O => None
  | S n =>
    match v with
    | VRef a =>
      match h !! a with
      | None => None
      | Some o =>
        match o with
        | OArray items => TArray <$> mapM (reify n h) items
        | OMap entries =>
          if decide (NoDup entries.*1) then
            TMap <$> mapM (reify_entry (reify n h)) entries
          else None
        | OSet items =>
          if decide (NoDup items) then TSet <$> mapM (reify n h) items else None
        | OError name message stack fields => Some (TError name message stack fields)
        | ODate t => Some (TDate t)
        | ORegExp source flags lastIndex => Some (TRegExp source flags lastIndex)
        | OArrayBuffer bytes => Some (TArrayBuffer bytes)
        | OFunction _ | OPromise _ => Some (TShared a)
        | ORecord p props =>
          if negb (bounded h (get_property p props "clone")) then None
          else if has_clone h p props then Some (TCustom a)
          else if isLikelyClassInstance o then Some (TShared a)
          else if decide (NoDup props.*1) then
            TRecord p <$> mapM (reify_prop (reify n h)) props
          else None
        end
      end
    | _ => Some (TPrim v)
    end
  end.

(** No object with a [clone] operation among what [safeClone] walks. *)
Fixpoint no_custom (t : tree) : bool :=
  match t with
  | TCustom _ => false
  | TArray items | TSet items => forallb no_custom items
  | TMap entries => forallb (fun kv => no_custom (fst kv) && no_custom (snd kv)) entries
  | TRecord _ props => forallb (fun kv => no_custom (snd kv)) props
  | _ => true
  end.

(** The trees that [safeClone] reproduces: errors of the generic type
    that carry a message and a stack only, pattern matchers at
    [lastIndex] 0, records whose prototype is [Object.prototype], and no
    [clone] operation. *)
Fixpoint cloneable (t : tree) : bool :=
  match t with
  | TPrim _ | TShared _ | TDate _ | TArrayBuffer _ => true
  | TCustom _ => false
  | TArray items | TSet items => forallb cloneable items
  | TMap entries => forallb (fun kv => cloneable (fst kv) && cloneable (snd kv)) entries
  | TError name _ stack fields =>
    bool_decide (name = "Error") && bool_decide (is_Some stack) && bool_decide (fields = [])
  | TRegExp _ _ lastIndex => bool_decide (lastIndex = 0%Z)
  | TRecord p props =>
    bool_decide (p = ProtoObject) && forallb (fun kv => cloneable (snd kv)) props
  end.

(** Every object reachable from [v] that [safeClone] does not share by
    identity lives at an address from [bound] on. *)
Fixpoint isolated (fuel : nat) (h : list object) (bound : nat) (v : jsvalue) : bool :=
  match fuel with
  | O => false
  | S n =>
    match v with
    | VRef a =>
      match h !! a with
      | None => false
      | Some o =>
        match o with
        | OArray items | OSet items =>
          bool_decide (bound <= a) && forallb (isolated n h bound) items
        | OMap entries =>
          bool_decide (bound <= a) &&
          forallb (fun kv => isolated n h bound kv.1 && isolated n h bound kv.2) entries
        | OError _ _ _ _ | ODate _ | ORegExp _ _ _ | OArrayBuffer _ =>
          bool_decide (bound <= a)
        | OFunction _ | OPromise _ => true
        | ORecord p props =>
          if negb (bounded h (get_property p props "clone")) then false
          else if has_clone h p props then true
          else if isLikelyClassInstance o then true
          else bool_decide (bound <= a) && forallb (fun kv => isolated n h bound kv.2) props
        end
      end
    | _ => true
    end
  end.

(** ** The value cell (Observable.ts) and the reactive handle (Whispr.ts) *)

(** The predicate of a [wait]: the caller's function, or [(data) => data]
    as [load] passes it. *)
Inductive predicate :=
  | PUser (f : fn)
  | PLoad.

(** The combining function of a [from]: the caller's function,
    [(data) => data] as [consolidate] passes it, or
    [({ self }) => transformer(self)] as [transform] passes it. *)
Inductive combiner :=
  | CUser (f : fn)
  | CConsolidate
  | CTransform (f : fn).

(** Listeners are function objects compared by identity.  The closures
    that the library itself creates carry what they capture: the listener
    of [wait] its predicate and its promise, the listener that [from]
    installs on source number [i] the dictionary, the combining function
    and the derived handle. *)
Inductive listener :=
  | LUser (f : fn)
  | LWait (cb : predicate) (p : nat)
  | LFrom (input : list (string * nat)) (cb : combiner) (out : nat) (i : nat).

#[global] Instance predicate_eq_dec : EqDecision predicate.
Proof. solve_decision. Defined.

#[global] Instance combiner_eq_dec : EqDecision combiner.
Proof. solve_decision. Defined.

#[global] Instance listener_eq_dec : EqDecision listener.
Proof. solve_decision. Defined.

Record Observable := MkObservable {
  _data : jsvalue;
  listeners : list listener
}.

(** A handle owns one cell; [alive] is what [WeakRef.deref] of the setter
    sees: false once the handle has been collected. *)
Record Whispr := MkWhispr {
  data : Observable;
  alive : bool
}.

Record world := World {
  memory : mem;
  handles : list Whispr;
  (* the promises returned by [wait]: pending, or resolved with a value *)
  promises : list (option jsvalue);
  (* notifications waiting on a promise that their listener returned *)
  suspended : list (nat * listener * nat);
  (* history: every call [listener(this._data)] made by [notify], as the
     cell, the listener and the value passed; no operation reads it *)
  delivered : list (nat * listener * jsvalue)
}.

Definition with_memory (m : mem) (w : world) : world :=
  World m (handles w) (promises w) (suspended w) (delivered w).

Definition with_handles (hs : list Whispr) (w : world) : world :=
  World (memory w) hs (promises w) (suspended w) (delivered w).

Definition with_promises (ps : list (option jsvalue)) (w : world) : world :=
  World (memory w) (handles w) ps (suspended w) (delivered w).

Definition with_suspended (ss : list (nat * listener * nat)) (w : world) : world :=
  World (memory w) (handles w) (promises w) ss (delivered w).

Definition with_delivered (ds : list (nat * listener * jsvalue)) (w : world) : world :=
  World (memory w) (handles w) (promises w) (suspended w) ds.

Definition lift {A} (c : M mem A) : M world A :=
  fun w =>
    match c (memory w) with
    | Ret x m => Ret x (with_memory m w)
    | Throw e m => Throw e (with_memory m w)
    | Diverge => Diverge
    end.

Definition cell (c : nat) (w : world) : option Observable :=
  data <$> handles w !! c.

Definition update_cell (c : nat) (f : Observable -> Observable) (w : world) : world :=
  with_handles (alter (fun h => MkWhispr (f (data h)) (alive h)) c (handles w)) w.

Definition console_warn (msg : string) (arg : jsvalue) (w : world) : world :=
  with_memory (warn msg arg (memory w)) w.

(** [v instanceof Promise] *)
Definition is_promise (w : world) (v : jsvalue) : option nat :=
  match v with
  | VRef a => match heap (memory w) !! a with Some (OPromise p) => Some p | _ => None end
  | _ => None
  end.

Module Observable.
Section Dispatch.

Variable call : fn -> jsvalue -> list jsvalue -> M mem jsvalue.
(** Fuel of each [safeClone]. *)
Variable depth : nat.
(** How a listener runs on a delivered value. *)
Variable run : listener -> jsvalue -> M world jsvalue.

(** [new Observable(data)]; the new cell is returned by its index. *)
Definition constructor (d : jsvalue) : M world nat :=
  d' <- lift (safeClone call depth d) ;;
  fun w => Ret (length (handles w))
               (with_handles (handles w ++ [MkWhispr (MkObservable d' []) true]) w).

(** [unsubscribe(cb)] *)
Definition unsubscribe (c : nat) (cb : listener) (w : world) : world :=
  update_cell c (fun o =>
    MkObservable (_data o) (filter (fun l => l <> cb) (listeners o))) w.

(** The rest of [notify] once the listener's result is there: directly,
    or after the [await] of the promise it returned. *)
Definition notify_result (c : nat) (l : listener) (result : jsvalue) (w : world) : world :=
  if decide (result = VString "STOP") then unsubscribe c l w else w.

Definition notify_caught (e : jsvalue) (w : world) : world :=
  console_warn "Whispr listener threw an error:" e w.

(** [notify(listener)].  The listener receives [this._data].  A listener
    that returns a promise suspends the notification, and [notify]
    returns to its caller. *)
Definition notify (c : nat) (l : listener) : M world unit :=
  fun w =>
    match cell c w with
    | None => Ret tt w
    | Some o =>
      match run l (_data o) (with_delivered (delivered w ++ [(c, l, _data o)]) w) with
      | Ret result w1 =>
        match is_promise w1 result with
        | Some p => Ret tt (with_suspended (suspended w1 ++ [(c, l, p)]) w1)
        | None => Ret tt (notify_result c l result w1)
        end
      | Throw e w1 => Ret tt (notify_caught e w1)
      | Diverge => Diverge
      end
    end.

(** The promise [p] settles: every notification suspended on it resumes,
    with the value it was fulfilled with ([inl]) or the reason it was
    rejected with ([inr]). *)
Definition resume (c : nat) (l : listener) (settled : jsvalue + jsvalue) (w : world) : world :=
  match settled with
  | inl result => notify_result c l result w
  | inr e => notify_caught e w
  end.

Definition settle (p : nat) (settled : jsvalue + jsvalue) (w : world) : world :=
  let waiting := filter (fun s => s.2 = p) (suspended w) in
  let others := filter (fun s => s.2 <> p) (suspended w) in
  fold_left (fun w' s => resume s.1.1 s.1.2 settled w') waiting
            (with_suspended others w).

(** [set(data)]: [forEach] walks the array that [this.listeners] was when
    the walk started; [unsubscribe] installs a new array. *)
Definition set (c : nat) (d : jsvalue) : M world bool :=
  d' <- lift (safeClone call depth d) ;;
  fun w =>
    let w1 := update_cell c (fun o => MkObservable d' (listeners o)) w in
    (_ <- foldM (fun _ l => notify c l)
                (default [] (listeners <$> cell c w1)) tt ;;
     ret true) w1.

(** [subscribe(cb, immediate)].  The unsubscribe function it returns is
    [unsubscribe c cb], so the call returns nothing here. *)
Definition subscribe (c : nat) (cb : listener) (immediate : bool) : M world unit :=
  fun w =>
    let w1 := update_cell c (fun o => MkObservable (_data o) (listeners o ++ [cb])) w in
    if immediate then notify c cb w1 else Ret tt w1.

(** [get value()] *)
Definition value (c : nat) : M world jsvalue :=
  fun w =>
    match cell c w with
    | Some o => lift (safeClone call depth (_data o)) w
    | None => Ret VUndefined w
    end.

End Dispatch.
End Observable.

(** [!v] is false *)
Definition truthy (v : jsvalue) : bool :=
  match v with
  | VNull | VUndefined => false
  | VString s => negb (bool_decide (s = ""))
  | VNumber (Num z) => negb (bool_decide (z = 0%Z))
  | VNumber NaN => false
  | VBigInt z => negb (bool_decide (z = 0%Z))
  | VBoolean b => b
  | VSymbol _ | VRef _ => true
  end.

(** [v === null || v === undefined] *)
Definition is_nullish (v : jsvalue) : bool :=
  match v with
  | VNull | VUndefined => true
  | _ => false
  end.

(** [v.key] where [v] is a generic object. *)
Definition get (m : mem) (v : jsvalue) (k : string) : jsvalue :=
  match v with
  | VRef a =>
    match heap m !! a with
    | Some (ORecord p props) => get_property p props k
    | _ => VUndefined
    end
  | _ => VUndefined
  end.

Module Whispr.
Section Handle.

Variable call : fn -> jsvalue -> list jsvalue -> M mem jsvalue.
Variable depth : nat.

(** [ref.deref()] succeeds *)
Definition deref (h : nat) (w : world) : bool :=
  match handles w !! h with
  | Some x => alive x
  | None => false
  end.

(** The handle [h] is collected.  When that happens is decided by the
    garbage collector; the finalization callbacks and the table of
    strong references, which only bear on that moment, are not part of
    the embedding. *)
Definition collect (h : nat) (w : world) : world :=
  with_handles (alter (fun x => MkWhispr (data x) false) h (handles w)) w.

(** [Whispr.create(data)]: the handle is returned by its index, and its
    setter is [setter] at that index. *)
Definition create (d : jsvalue) : M world nat :=
  Observable.constructor call depth d.

(** [(data) => ref.deref()?.data.set(data) ?? false] *)
Definition setter (run : listener -> jsvalue -> M world jsvalue)
           (h : nat) (d : jsvalue) : M world bool :=
  fun w =>
    if deref h w then Observable.set call depth run h d w
    else Ret false w.

(** [get value()] *)
Definition value (h : nat) : M world jsvalue :=
  Observable.value call depth h.

(** [resolve(result)] of the promise of a [wait]: the first call settles
    the promise, later calls are ignored. *)
Definition resolve (p : nat) (result : jsvalue) (w : world) : world :=
  match promises w !! p with
  | Some None => with_promises (<[p:=Some result]> (promises w)) w
  | _ => w
  end.

Definition run_predicate (cb : predicate) (v : jsvalue) : M world jsvalue :=
  match cb with
  | PUser f => lift (call f VUndefined [v])
  | PLoad => ret v
  end.

Definition run_combiner (cb : combiner) (d : jsvalue) : M world jsvalue :=
  match cb with
  | CUser f => lift (call f VUndefined [d])
  | CConsolidate => ret d
  | CTransform f => fun w => lift (call f VUndefined [get (memory w) d "self"]) w
  end.

(** [getValue()] inside [from]: reads [.value] of every source, in the
    order of [Object.entries(input)], and applies the combining function
    to the object made of the results. *)
Definition getValue (input : list (string * nat)) (cb : combiner) : M world jsvalue :=
  es <- traverse (fun kv => x <- value kv.2 ;; ret (kv.1, x)) input ;;
  d <- lift (alloc (ORecord ProtoObject (fromEntries es))) ;;
  run_combiner cb d.

(** Running a listener on the value it is notified with.  A listener of
    [from] writes to the derived handle, whose own listeners run in
    turn: one unit of fuel per such level. *)
Fixpoint run_listener (fuel : nat) (l : listener) (v : jsvalue) : M world jsvalue :=
  match fuel with
  | O => fun _ => Diverge
  | S n =>
    match l with
    | LUser f => lift (call f VUndefined [v])
    | LWait cb p =>
      if truthy v then
        result <- run_predicate cb v ;;
        if is_nullish result then ret VUndefined
        else fun w => Ret (VString "STOP") (resolve p result w)
      else ret VUndefined
    | LFrom input cb out _ =>
      x <- getValue input cb ;;
      _ <- setter (run_listener n) out x ;;
      ret VUndefined
    end
  end.

Variable fuel : nat.

(** The setter as the caller of [create] holds it. *)
Definition set (h : nat) (d : jsvalue) : M world bool :=
  setter (run_listener fuel) h d.

(** [subscribe(cb, immediate)] *)
Definition subscribe (h : nat) (cb : listener) (immediate : bool) : M world unit :=
  Observable.subscribe (run_listener fuel) h cb immediate.

(** [wait(cb)]: the promise is returned by its index. *)
Definition wait (h : nat) (cb : predicate) : M world nat :=
  fun w =>
    let p := length (promises w) in
    (_ <- subscribe h (LWait cb p) true ;; ret p)
      (with_promises (promises w ++ [None]) w).

(** [load()] *)
Definition load (h : nat) : M world nat := wait h PLoad.

(** [Whispr.from(input, cb)]; [input] lists the dictionary in the order of
      [Object.entries].  The table of strong references and the [onDie] of
      the derived handle bear on when handles die only, see [collect]. *)
Definition from (input : list (string * nat)) (cb : combiner) : M world nat :=
  init <- getValue input cb ;;
  out <- create init ;;
  _ <- foldM (fun _ isrc => subscribe isrc.2.2 (LFrom input cb out isrc.1) true)
             (imap (fun i kv => (i, kv)) input) tt ;;
  ret out.

(** [transform(transformer)] *)
Definition transform (h : nat) (transformer : fn) : M world nat :=
  from [("self", h)] (CTransform transformer).

(** [Whispr.consolidate(input)] *)
Definition consolidate (input : list (string * nat)) : M world nat :=
  from input CConsolidate.

End Handle.
End Whispr.

(** ** Vocabulary of the statements *)

(** A listener that writes to no cell: the caller's own, or the one of a
    [wait].  The listeners that [from] installs write to the derived
    handle. *)
Definition local (l : listener) : bool :=
  match l with
  | LFrom _ _ _ _ => false
  | _ => true
  end.

(** User code that always returns or throws. *)
Definition total (call : fn -> jsvalue -> list jsvalue -> M mem jsvalue) : Prop :=
  forall f this args m, call f this args m <> Diverge.

(** [typeof v !== 'object' && typeof v !== 'function'] *)
Definition primitive (v : jsvalue) : bool :=
  match v with
  | VRef _ => false
  | _ => true
  end.

(** [v'] is [v] itself, or an address from [bound] on. *)
Definition fresh_or_same (bound : nat) (v v' : jsvalue) : Prop :=
  v' = v \/ exists a, v' = VRef a /\ bound <= a.

(** The memory [m'] is [m] with more objects at the end of the heap. *)
Definition extends (m m' : mem) : Prop :=
  exists h', m' = Mem (heap m ++ h') (console m).

(** The heap of [m'] is the heap of [m] with more objects at the end. *)
Definition heap_grows (m m' : mem) : Prop :=
  exists h', heap m' = heap m ++ h'.

(** [x] is finite, well formed, and no [clone] operation is in the way. *)
Definition finite_plain (n : nat) (h : list object) (x : jsvalue) : Prop :=
  exists t, reify n h x = Some t /\ no_custom t = true.

(** What [safeClone] promises of its result [y] on [x], in the heap [h]
    it leaves, [b] being the size of the heap it started from. *)
Definition copy_of (n b : nat) (h : list object) (x y : jsvalue) : Prop :=
  fresh_or_same b x y /\ bounded h y = true /\
  is_function h y = is_function h x /\
  exists t, reify n h x = Some t /\
            (cloneable t = true -> reify n h y = Some t /\ isolated n h b y = true).

(** User code that leaves every object of the heap as it is: it may
    allocate, and it returns or throws. *)
Definition allocates_only (call : fn -> jsvalue -> list jsvalue -> M mem jsvalue) : Prop :=
  forall f this args m,
    match call f this args m with
    | Ret _ m' | Throw _ m' => heap_grows m m'
    | Diverge => False
    end.

(** The combining function [f] is the pure function [G] of the properties
    of the object it is passed, and its results are primitive values. *)
Definition pure_combiner (call : fn -> jsvalue -> list jsvalue -> M mem jsvalue)
           (f : fn) (G : list (string * jsvalue) -> jsvalue) : Prop :=
  (forall a m props,
     heap m !! a = Some (ORecord ProtoObject props) ->
     call f VUndefined [VRef a] m = Ret (G props) m) /\
  (forall props, primitive (G props) = true).

(** Every source of [input] holds the primitive value of its place in [ps]. *)
Definition sources_hold (input : list (string * nat)) (ps : list jsvalue) (w : world)
  : Prop :=
  Forall2 (fun kv p => primitive p = true /\
             exists ls al, handles w !! kv.2 = Some (MkWhispr (MkObservable p ls) al))
          input ps.

(** The listener [L] is once in [ls], among local listeners. *)
Definition among_local (L : listener) (ls : list listener) : Prop :=
  filter (fun l => l = L) ls = [L] /\ Forall (fun l => l = L \/ local l = true) ls.

(** The world holds the handle [out] that [from(input, f)] derived: the
    keys are distinct and so are the sources, source number [i] is alive,
    holds the primitive value number [i] of [ps] and has the listener that
    [from] installed on it among local listeners, and [out] is alive, with
    local listeners. *)
Definition derived_from (input : list (string * nat)) (f : fn) (out : nat)
           (ps : list jsvalue) (w : world) : Prop :=
  NoDup input.*1 /\ NoDup input.*2 /\ (out ∉ input.*2) /\
  length ps = length input /\
  (forall i k s p,
     input !! i = Some (k, s) -> ps !! i = Some p ->
     primitive p = true /\
     exists ls,
       handles w !! s = Some (MkWhispr (MkObservable p ls) true) /\
       among_local (LFrom input (CUser f) out i) ls) /\
  (exists d ls,
     handles w !! out = Some (MkWhispr (MkObservable d ls) true) /\
     Forall (fun l => local l = true) ls).

(** The listener [l] answered ["STOP"] to the value [d] in some world. *)
Definition stopped (call : fn -> jsvalue -> list jsvalue -> M mem jsvalue)
           (depth n : nat) (l : listener) (d : jsvalue) : Prop :=
  exists w1 w2, Whispr.run_listener call depth (S n) l d w1 = Ret (VString "STOP") w2.

(** The walk of [set] over the listeners [ls] of the cell [c]. *)
Definition dispatch (run : listener -> jsvalue -> M world jsvalue)
           (c : nat) (ls : list listener) : M world unit :=
  foldM (fun _ l => Observable.notify run c l) ls tt.

(** The notifications [waiting] resume one after the other, their
    promise being settled with [settled]. *)
Definition resume_all (settled : jsvalue + jsvalue) (waiting : list (nat * listener * nat))
           (w : world) : world :=
  fold_left (fun w' s => Observable.resume s.1.1 s.1.2 settled w') waiting w.

(** Before a [from]: source number [i] of [input] is alive, holds the
    primitive value number [i] of [ps], and has the local listeners number
    [i] of [lss]. *)
Definition sources_ready (input : list (string * nat)) (ps : list jsvalue)
           (lss : list (list listener)) (w : world) : Prop :=
  length ps = length input /\ length lss = length input /\
  forall i kv p ls,
    input !! i = Some kv -> ps !! i = Some p -> lss !! i = Some ls ->
    primitive p = true /\ Forall (fun l => local l = true) ls /\
    handles w !! kv.2 = Some (MkWhispr (MkObservable p ls) true).

(** What a combining function does, as far as the handle derived with it
    is concerned: on sources that hold [ps], [getValue] returns, having only
    added objects to the heap, a value whose clone [d] is right for [ps], as
    [R ps h d] says it in the heap [h] that the clone leaves; and what [R]
    says stays true when objects are added to the heap. *)
Definition combines (call : fn -> jsvalue -> list jsvalue -> M mem jsvalue) (depth : nat)
           (input : list (string * nat)) (cb : combiner)
           (R : list jsvalue -> list object -> jsvalue -> Prop) : Prop :=
  (forall ps h h' d, R ps h d -> R ps (h ++ h') d) /\
  (forall ps w,
     sources_hold input ps w ->
     exists x m1 d m2,
       Whispr.getValue call depth input cb w = Ret x (with_memory m1 w) /\
       heap_grows (memory w) m1 /\
       safeClone call depth x m1 = Ret d m2 /\
       heap_grows m1 m2 /\
       R ps (heap m2) d).

(** [derived_from] for any combining function: the world holds the handle
    [out] that [from(input, cb)] derived. *)
Definition derived_with (input : list (string * nat)) (cb : combiner) (out : nat)
           (ps : list jsvalue) (w : world) : Prop :=
  NoDup input.*1 /\ NoDup input.*2 /\ (out ∉ input.*2) /\
  length ps = length input /\
  (forall i k s p,
     input !! i = Some (k, s) -> ps !! i = Some p ->
     primitive p = true /\
     exists ls,
       handles w !! s = Some (MkWhispr (MkObservable p ls) true) /\
       among_local (LFrom input cb out i) ls) /\
  (exists d ls,
     handles w !! out = Some (MkWhispr (MkObservable d ls) true) /\
     Forall (fun l => local l = true) ls).

(** The function [t] is the pure function [F] of its argument, a
    primitive value, and its results are primitive values. *)
Definition pure_function (call : fn -> jsvalue -> list jsvalue -> M mem jsvalue)
           (t : fn) (F : jsvalue -> jsvalue) : Prop :=
  (forall p m, primitive p = true -> call t VUndefined [p] m = Ret (F p) m) /\
  (forall p, primitive (F p) = true).

(** ** The map of handles (WhisprMap.ts)

    A [WhisprMap] owns two handles: [data], whose value is a Map from
    keys to handles, and [mappedData], whose value is the Map from the
    same keys to the values of those handles; it is through the second
    that the map is read and subscribed to.  The handles that the map
    holds are objects of the heap, instances of the class [Whispr], which
    [safeClone] shares by identity; which handle an object of the heap
    is, is a parameter, [handle_at]; a value that is not such an object
    is taken to have no method [subscribe].  The closures
    [() => { this.refresh(); }] that a map puts on its [data] and on its
    items are function objects, given by the parameters [closure] and
    [maps]: the source makes a new one at each subscription, no code
    compares them, and here a map has one. *)

(** [throw e] *)
Definition throw {S A} (e : jsvalue) : M S A := fun s => Throw e s.

(** [map.entries()] on the Map that [v] refers to. *)
Definition map_entries (m : mem) (v : jsvalue) : list (jsvalue * jsvalue) :=
  match v with
  | VRef a => match heap m !! a with Some (OMap es) => es | _ => [] end
  | _ => []
  end.

(** [map.has(key)] *)
Definition map_has (m : mem) (v key : jsvalue) : bool :=
  bool_decide (key ∈ (map_entries m v).*1).

(** [map.delete(key)], on the entries. *)
Definition map_delete (es : list (jsvalue * jsvalue)) (key : jsvalue)
  : list (jsvalue * jsvalue) :=
  filter (fun kv => kv.1 <> key) es.

(** The Map that [v] refers to gets the entries [es]. *)
Definition map_update (v : jsvalue) (es : list (jsvalue * jsvalue)) (m : mem) : mem :=
  match v with
  | VRef a => store a (OMap es) m
  | _ => m
  end.

Module WhisprMap.

(** The fields [data] and [mappedData]; [setData] and [setMapped] are
    the setters of these two handles. *)
Record t := Make {
  data : nat;
  mappedData : nat
}.

#[global] Instance t_eq_dec : EqDecision t.
Proof. solve_decision. Defined.

Section Map.

Variable call : fn -> jsvalue -> list jsvalue -> M mem jsvalue.
Variable depth : nat.
(** [handle_at b = Some h]: the object at address [b] is the instance of
    [Whispr] whose cell is number [h]. *)
Variable handle_at : addr -> option nat.
(** The [TypeError] that the engine makes when the member [k] of [v]
    cannot be read or called. *)
Variable type_error : jsvalue -> string -> object.
(** [closure wm] is the function object [() => { this.refresh(); }] of
    the map [wm], and [maps f] the map whose closure [f] is, if any. *)
Variable closure : t -> fn.
Variable maps : fn -> option t.
(** The text of a key in a template literal, and the stack that the
    engine gives a new error. *)
Variable display : jsvalue -> string.
Variable trace : option string.

Definition handle_of (v : jsvalue) : option nat :=
  match v with
  | VRef b => handle_at b
  | _ => None
  end.

(** [item.value] *)
Definition item_value (item : jsvalue) : M world jsvalue :=
  match handle_of item with
  | Some h => Whispr.value call depth h
  | None =>
    if is_nullish item then e <- lift (alloc (type_error item "value")) ;; throw e
    else fun w => Ret (get (memory w) item "value") w
  end.

(** [refresh()] *)
Definition refresh (run : listener -> jsvalue -> M world jsvalue) (wm : t) : M world unit :=
  d <- Whispr.value call depth (data wm) ;;
  toReturn <- (fun w =>
                 foldM (fun acc kv => x <- item_value kv.2 ;; ret (map_set acc kv.1 x))
                       (map_entries (memory w) d) [] w) ;;
  r <- lift (alloc (OMap toReturn)) ;;
  _ <- Whispr.setter call depth run (mappedData wm) r ;;
  ret tt.

(** Running a listener in a world with maps: [Whispr.run_listener], and
    the closures of the maps, which refresh their map. *)
Fixpoint run_listener (fuel : nat) (l : listener) (v : jsvalue) : M world jsvalue :=
  match fuel with
  | O => fun _ => Diverge
  | S n =>
    match l with
    | LUser f =>
      match maps f with
      | Some wm => _ <- refresh (run_listener n) wm ;; ret VUndefined
      | None => lift (call f VUndefined [v])
      end
    | LWait cb p =>
      if truthy v then
        result <- Whispr.run_predicate call cb v ;;
        if is_nullish result then ret VUndefined
        else fun w => Ret (VString "STOP") (Whispr.resolve p result w)
      else ret VUndefined
    | LFrom input cb out _ =>
      x <- Whispr.getValue call depth input cb ;;
      _ <- Whispr.setter call depth (run_listener n) out x ;;
      ret VUndefined
    end
  end.

Variable fuel : nat.

(** [new WhisprMap()], as [WhisprMap.create()] calls it; the two
    mutations that [create] returns beside the map are [set] and
    [delete] below. *)
Definition create : M world t :=
  m0 <- lift (alloc (OMap [])) ;;
  d <- Whispr.create call depth m0 ;;
  m1 <- lift (alloc (OMap [])) ;;
  md <- Whispr.create call depth m1 ;;
  _ <- Observable.subscribe (run_listener fuel) d (LUser (closure (Make d md))) true ;;
  ret (Make d md).

(** [set(key, value, force)] *)
Definition set (wm : t) (key value : jsvalue) (force : bool) : M world unit :=
  d <- Whispr.value call depth (data wm) ;;
  fun w =>
    if map_has (memory w) d key && negb force then
      (e <- lift (alloc (OError "Error"
                           ("Key " +:+ display key +:+ " already exists in the WhisprMap.")
                           trace [])) ;;
       throw e) w
    else
      (tmp <- Whispr.value call depth (data wm) ;;
       _ <- lift (fun m =>
                    Ret tt (map_update tmp (map_set (map_entries m tmp) key value) m)) ;;
       _ <- Whispr.setter call depth (run_listener fuel) (data wm) tmp ;;
       match handle_of value with
       | Some h => Observable.subscribe (run_listener fuel) h (LUser (closure wm)) true
       | None => e <- lift (alloc (type_error value "subscribe")) ;; throw e
       end) w.

(** [delete(key)] *)
Definition delete (wm : t) (key : jsvalue) : M world unit :=
  tmp <- Whispr.value call depth (data wm) ;;
  fun w =>
    if negb (map_has (memory w) tmp key) then Ret tt w
    else
      (_ <- lift (fun m => Ret tt (map_update tmp (map_delete (map_entries m tmp) key) m)) ;;
       _ <- Whispr.setter call depth (run_listener fuel) (data wm) tmp ;;
       ret tt) w.

(** [get value()] *)
Definition value (wm : t) : M world jsvalue :=
  Whispr.value call depth (mappedData wm).

(** [subscribe(listener, immediate)] *)
Definition subscribe (wm : t) (cb : listener) (immediate : bool) : M world unit :=
  Observable.subscribe (run_listener fuel) (mappedData wm) cb immediate.

(** [wait(cb)] *)
Definition wait (wm : t) (cb : predicate) : M world nat :=
  fun w =>
    let p := length (promises w) in
    (_ <- subscribe wm (LWait cb p) true ;; ret p)
      (with_promises (promises w ++ [None]) w).

(** [load()] *)
Definition load (wm : t) : M world nat := wait wm PLoad.

End Map.
End WhisprMap.

(** A listener of the caller, or of a [wait]: not the closure of a map,
    nor a listener of [from]. *)
Definition plain (maps : fn -> option WhisprMap.t) (l : listener) : bool :=
  match l with
  | LUser f => bool_decide (maps f = None)
  | LWait _ _ => true
  | LFrom _ _ _ _ => false
  end.

(** The object at address [b] is one that [safeClone] shares by
    identity, as the instances of [Whispr] are. *)
Definition shared (h : list object) (b : addr) : Prop :=
  reify 1 h (VRef b) = Some (TShared b).

(** The entries of the Map that [data] holds, for the items [items]: the
    keys with the objects of the heap that are their handles. *)
Definition item_entries (items : list (jsvalue * addr)) : list (jsvalue * jsvalue) :=
  (fun kb => (kb.1, VRef kb.2)) <$> items.

(** The handle behind the object at address [b] holds [p]. *)
Definition item_holds (handle_at : addr -> option nat) (w : world) (b : addr) (p : jsvalue)
  : Prop :=
  exists h, handle_at b = Some h /\ _data <$> cell h w = Some p.

(** [map.set(key, b)] on the items of a map. *)
Fixpoint item_set (items : list (jsvalue * addr)) (key : jsvalue) (b : addr)
  : list (jsvalue * addr) :=
  match items with
  | [] => [(key, b)]
  | (k', b') :: items' =>
    if decide (key = k') then (key, b) :: items' else (k', b') :: item_set items' key b
  end.

(** A listener that a handle held by the map [wm] may have: the closure
    of the map, or a plain listener. *)
Definition map_listener (closure : WhisprMap.t -> fn) (maps : fn -> option WhisprMap.t)
           (wm : WhisprMap.t) (l : listener) : Prop :=
  l = LUser (closure wm) \/ plain maps l = true.

(** The object at address [b] is a handle that the map [wm] can take:
    a handle other than the two of the map, which holds a primitive
    value and whose listeners are plain, or the closure of the map. *)
Definition map_admits (handle_at : addr -> option nat) (closure : WhisprMap.t -> fn)
           (maps : fn -> option WhisprMap.t) (wm : WhisprMap.t) (w : world) (b : addr)
  : Prop :=
  shared (heap (memory w)) b /\
  exists h p ls al,
    handle_at b = Some h /\
    h <> WhisprMap.data wm /\ h <> WhisprMap.mappedData wm /\
    handles w !! h = Some (MkWhispr (MkObservable p ls) al) /\
    primitive p = true /\
    Forall (map_listener closure maps wm) ls.

(** An item of the map [wm]: a primitive key with a handle that the map
    can take. *)
Definition map_item (handle_at : addr -> option nat) (closure : WhisprMap.t -> fn)
           (maps : fn -> option WhisprMap.t) (wm : WhisprMap.t) (w : world)
           (kb : jsvalue * addr) : Prop :=
  primitive kb.1 = true /\ map_admits handle_at closure maps wm w kb.2.

(** The map [wm] holds the items [items], keys with handles: [data]
    holds a Map with these entries and has the closure of the map for
    only listener; [mappedData] has plain listeners; the keys are
    distinct. *)
Definition map_holds (handle_at : addr -> option nat) (closure : WhisprMap.t -> fn)
           (maps : fn -> option WhisprMap.t) (wm : WhisprMap.t)
           (items : list (jsvalue * addr)) (w : world) : Prop :=
  WhisprMap.data wm <> WhisprMap.mappedData wm /\
  NoDup items.*1 /\
  (exists a,
     handles w !! WhisprMap.data wm
     = Some (MkWhispr (MkObservable (VRef a) [LUser (closure wm)]) true) /\
     heap (memory w) !! a = Some (OMap (item_entries items))) /\
  (exists d lsm,
     handles w !! WhisprMap.mappedData wm = Some (MkWhispr (MkObservable d lsm) true) /\
     Forall (fun l => plain maps l = true) lsm) /\
  Forall (map_item handle_at closure maps wm w) items.

(** The closure of the map [wm] is among the listeners of the handle
    that the object at address [b] is. *)
Definition map_subscribed (handle_at : addr -> option nat) (closure : WhisprMap.t -> fn)
           (wm : WhisprMap.t) (w : world) (b : addr) : Prop :=
  exists h ls,
    handle_at b = Some h /\ listeners <$> cell h w = Some ls /\ LUser (closure wm) ∈ ls.

(** The state of a map that holds the items [items]: as [map_holds]
    says, and the closure of the map is subscribed to every item. *)
Definition map_frame (handle_at : addr -> option nat) (closure : WhisprMap.t -> fn)
           (maps : fn -> option WhisprMap.t) (wm : WhisprMap.t)
           (items : list (jsvalue * addr)) (w : world) : Prop :=
  map_holds handle_at closure maps wm items w /\
  Forall (fun kb => map_subscribed handle_at closure wm w kb.2) items.

(** What [mappedData] holds is right: a Map with the keys of the items,
    in their order, each with the value that its handle holds. *)
Definition mapped_right (handle_at : addr -> option nat) (wm : WhisprMap.t)
           (items : list (jsvalue * addr)) (w : world) : Prop :=
  exists c ps,
    _data <$> cell (WhisprMap.mappedData wm) w = Some (VRef c) /\
    heap (memory w) !! c = Some (OMap (zip items.*1 ps)) /\
    Forall2 (fun kb p => item_holds handle_at w kb.2 p) items ps.

(** ** Concrete user code and heaps, for the examples *)

Module Scenario.

(** A listener that throws. *)
Definition thrower : fn := 1.
(** A listener that assigns [arg.a = 2] on the object it is passed. *)
Definition mutator : fn := 2.
(** A predicate that reports each call on the console and answers
    ["seen"], a present result, whatever it is passed. *)
Definition seen : fn := 3.
(** A combining function: [(d) => d.a + d.b]. *)
Definition sum : fn := 4.
(** A listener that returns ["STOP"]. *)
Definition stopper : fn := 5.
(** A constructor function: the class of the instances below. *)
Definition klass : fn := 6.
(** A listener that does nothing. *)
Definition idle : fn := 0.

Definition add (x y : jsvalue) : jsvalue :=
  match x, y with
  | VNumber (Num a), VNumber (Num b) => VNumber (Num (a + b))
  | _, _ => VNumber NaN
  end.

Definition user (f : fn) (this : jsvalue) (args : list jsvalue) : M mem jsvalue :=
  match f, args with
  | 1, _ => fun m => Throw (VString "oops") m
  | 2, [VRef a] =>
    fun m =>
      match heap m !! a with
      | Some (ORecord p props) =>
        Ret VUndefined (store a (ORecord p (prop_set props "a" (VNumber (Num 2)))) m)
      | _ => Ret VUndefined m
      end
  | 3, [v] => fun m => Ret (VString "seen") (warn "predicate called with" v m)
  | 4, [d] => fun m => Ret (add (get m d "a") (get m d "b")) m
  | 5, _ => ret (VString "STOP")
  | _, _ => ret VUndefined
  end.

(** User code that does nothing, whatever the function. *)
Definition quiet (f : fn) (this : jsvalue) (args : list jsvalue) : M mem jsvalue :=
  ret VUndefined.

Definition empty : world := World (Mem [] []) [] [] [] [].

Definition in_heap (h : list object) : world := World (Mem h []) [] [] [] [].

(** [{ a: 1 }] *)
Definition record_a1 : object := ORecord ProtoObject [("a", VNumber (Num 1))].



(** [new K()] for a class [K] without [clone] and without marker. *)
Definition instance : object :=
  ORecord (ProtoOther (CtorFunction klass) []) [("val", VNumber (Num 7))].

(** The same with the field [skipSafeClone = true]. *)
Definition marked_instance : object :=
  ORecord (ProtoOther (CtorFunction klass) [])
          [("val", VNumber (Num 7)); ("skipSafeClone", VBoolean true)].

(** [Object.assign(new TypeError("boom"), { code: 42 })] *)
Definition type_error : object :=
  OError "TypeError" "boom" (Some "TypeError: boom at <anonymous>")
         [("code", VNumber (Num 42))].

(** [create(0)], then [wait] with the predicate [seen], then the writes
    [""] and [false]. *)
Definition wait_on_falsy : M world nat :=
  h <- Whispr.create user 3 (VNumber (Num 0)) ;;
  p <- Whispr.wait user 3 1 h (PUser seen) ;;
  _ <- Whispr.set user 3 1 h (VString "") ;;
  _ <- Whispr.set user 3 1 h (VBoolean false) ;;
  ret p.

(** [create({ a: 1 })], a first read, [subscribe(mutator)], a second
    read; the two reads are returned. *)
Definition mutate_delivered : M world (jsvalue * jsvalue) :=
  h <- Whispr.create user 3 (VRef 0) ;;
  before <- Whispr.value user 3 h ;;
  _ <- Whispr.subscribe user 3 1 h (LUser mutator) true ;;
  after <- Whispr.value user 3 h ;;
  ret (before, after).

(** [{ a: 1, nested: [new K(), "x"] }] *)
Definition nested : list object :=
  [ORecord ProtoObject [("a", VNumber (Num 1)); ("nested", VRef 1)];
   OArray [VRef 2; VString "x"];
   instance].

Definition nested_tree : tree :=
  TRecord ProtoObject
    [("a", TPrim (VNumber (Num 1)));
     ("nested", TArray [TShared 2; TPrim (VString "x")])].

(** A cell that holds [null] for one idle listener, in the heap [nested]. *)
Definition nested_world : world :=
  World (Mem nested []) [MkWhispr (MkObservable VNull [LUser idle]) true] [] [] [].

(** A cell at index 0 that holds [d] for the listeners [ls]. *)
Definition one_cell (d : jsvalue) (ls : list listener) : world :=
  World (Mem [] []) [MkWhispr (MkObservable d ls) true] [] [] [].

(** [a = create(1)], [b = create(10)], [d = from({ a, b }, sum)]. *)
Definition derive_sum : M world nat :=
  a <- Whispr.create user 3 (VNumber (Num 1)) ;;
  b <- Whispr.create user 3 (VNumber (Num 10)) ;;
  Whispr.from user 3 2 [("a", a); ("b", b)] (CUser sum).

(** Then the writes of [2] to [a] and of [20] to [b], with a read of [d]
    after each; the two reads are returned. *)
Definition derive_sum_writes : M world (jsvalue * jsvalue) :=
  d <- derive_sum ;;
  _ <- Whispr.set user 3 2 0 (VNumber (Num 2)) ;;
  r1 <- Whispr.value user 3 d ;;
  _ <- Whispr.set user 3 2 1 (VNumber (Num 20)) ;;
  r2 <- Whispr.value user 3 d ;;
  ret (r1, r2).


(** What [sum] computes from the properties of the object it is passed. *)
Definition sum_of (props : list (string * jsvalue)) : jsvalue :=
  add (default VUndefined (assoc "a" props)) (default VUndefined (assoc "b" props)).


End Scenario.

(** ** More user code and worlds, for the further properties *)

Module Cases.

(** A listener that returns the promise at address 0. *)
Definition later : fn := 7.
(** [(x) => typeof x === 'number'] *)
Definition is_number : fn := 8.

Definition number_test (v : jsvalue) : jsvalue :=
  match v with
  | VNumber _ => VBoolean true
  | _ => VBoolean false
  end.

(** User code that changes no object of the heap. *)
Definition calm (f : fn) (this : jsvalue) (args : list jsvalue) : M mem jsvalue :=
  match f, args with
  | 7, _ => ret (VRef 0)
  | 8, [v] => ret (number_test v)
  | _, _ => ret VUndefined
  end.

(** Two cells that hold [1] and [10]; the second has an idle listener. *)
Definition two_cells : world :=
  World (Mem [] [])
        [MkWhispr (MkObservable (VNumber (Num 1)) []) true;
         MkWhispr (MkObservable (VNumber (Num 10)) [LUser Scenario.idle]) true]
        [] [] [].

(** [consolidate({ a, b })] over these two cells. *)
Definition consolidated : world := Eval vm_compute in
  match Whispr.consolidate Scenario.quiet 2 1 [("a", 0); ("b", 1)] two_cells with
  | Ret _ w => w
  | _ => two_cells
  end.

(** A dead handle that holds the record of [Scenario.nested]. *)
Definition nested_cell : world :=
  World (Mem Scenario.nested []) [MkWhispr (MkObservable (VRef 0) []) false] [] [] [].


(** A cell that holds [null] for the listener [later], in a heap whose
    only object is the promise that it returns. *)
Definition promise_cell : world :=
  World (Mem [OPromise 0] []) [MkWhispr (MkObservable VNull [LUser later]) true] [] [] [].

(** [Object.create(null)] with the property [a = 1]. *)
Definition bare : object := ORecord ProtoNull [("a", VNumber (Num 1))].

(** [const o = { a: 1 }; [o, o]]: the record, and the array that has it
    twice. *)
Definition twice : list object := [Scenario.record_a1; OArray [VRef 0; VRef 0]].

End Cases.

(** ** A map and its handles, for the examples *)

Module MapCases.

(** The closure of the map whose [data] is the cell [d] is the function
    number [100 + d]. *)
Definition closure (wm : WhisprMap.t) : fn := 100 + WhisprMap.data wm.

Definition maps (f : fn) : option WhisprMap.t :=
  if Nat.leb 100 f then Some (WhisprMap.Make (f - 100) (S (f - 100))) else None.

(** The objects at addresses [0] and [1] are the handles of the cells
    [0] and [1]. *)
Definition handle_at (b : addr) : option nat :=
  match b with
  | 0 => Some 0
  | 1 => Some 1
  | _ => None
  end.

Definition type_error (v : jsvalue) (k : string) : object :=
  OError "TypeError" ("no member " +:+ k) None [].

Definition display (v : jsvalue) : string :=
  match v with
  | VString s => s
  | _ => "?"
  end.

(** Two handles that hold [1] and [10], the second with an idle
    listener; the heap has their two objects. *)
Definition start : world :=
  World (Mem [Scenario.marked_instance; Scenario.marked_instance] [])
        [MkWhispr (MkObservable (VNumber (Num 1)) []) true;
         MkWhispr (MkObservable (VNumber (Num 10)) [LUser Scenario.idle]) true]
        [] [] [].

(** The map that [WhisprMap.create()] makes there. *)
Definition wm : WhisprMap.t := WhisprMap.Make 2 3.

Definition created : world := Eval vm_compute in
  match WhisprMap.create Scenario.quiet 2 handle_at type_error closure maps 2 start with
  | Ret _ w => w
  | _ => start
  end.

(** [set("a", first)] on this map. *)
Definition with_a : world := Eval vm_compute in
  match WhisprMap.set Scenario.quiet 2 handle_at type_error closure maps display None 2 wm
                      (VString "a") (VRef 0) false created with
  | Ret _ w => w
  | _ => created
  end.

End MapCases.


(** * Properties *)

(** ** Cells and worlds *)

Lemma cell_lookup c w d ls al :
  handles w !! c = Some (MkWhispr (MkObservable d ls) al) ->
  cell c w = Some (MkObservable d ls).
Proof. intros H. unfold cell. by rewrite H. Qed.

Lemma cell_inv c w o :
  cell c w = Some o ->
  exists al, handles w !! c = Some (MkWhispr (MkObservable (_data o) (listeners o)) al).
Proof.
  unfold cell. destruct (handles w !! c) as [[[d ls] al]|] eqn:E; simpl; [|done].
  intros [= <-]. by exists al.
Qed.

Lemma update_cell_insert c f w d ls al :
  handles w !! c = Some (MkWhispr (MkObservable d ls) al) ->
  handles (update_cell c f w) = <[c:=MkWhispr (f (MkObservable d ls)) al]> (handles w).
Proof.
  intros H. unfold update_cell. simpl.
  apply list_eq. intros i. destruct (decide (i = c)) as [->|Hne].
  - rewrite list_lookup_alter_eq, H. simpl.
    rewrite list_lookup_insert_eq; [done|]. by eapply lookup_lt_Some.
  - by rewrite list_lookup_alter_ne, list_lookup_insert_ne.
Qed.

Lemma cell_update_cell c f w :
  cell c (update_cell c f w) = f <$> cell c w.
Proof.
  unfold cell, update_cell. simpl. rewrite list_lookup_alter_eq.
  by destruct (handles w !! c).
Qed.

(** ** Notifications never throw *)



(** ** Unsubscribing *)

Lemma unsubscribe_cell c cb w o :
  cell c w = Some o ->
  cell c (Observable.unsubscribe c cb w)
  = Some (MkObservable (_data o) (filter (fun l => l <> cb) (listeners o))).
Proof.
  intros H. unfold Observable.unsubscribe. by rewrite cell_update_cell, H.
Qed.

Lemma filter_removes_all (cb : listener) (ls : list listener) :
  cb ∉ filter (fun l => l <> cb) ls.
Proof. rewrite list_elem_of_filter. by intros [? _]. Qed.

Lemma filter_keeps_others (cb l : listener) (ls : list listener) :
  l <> cb -> l ∈ ls -> l ∈ filter (fun l' => l' <> cb) ls.
Proof. intros. by apply list_elem_of_filter. Qed.

(** ** Listeners that write to no cell *)

Section Local.

Variable call : fn -> jsvalue -> list jsvalue -> M mem jsvalue.
Variable depth : nat.
Variable n : nat.

#[local] Abbreviation run := (Whispr.run_listener call depth (S n)).
#[local] Abbreviation stopped := (stopped call depth n).

Lemma lift_frame {A} (c : M mem A) w :
  match lift c w with
  | Ret _ w' | Throw _ w' =>
    handles w' = handles w /\ delivered w' = delivered w /\
    suspended w' = suspended w /\ promises w' = promises w
  | Diverge => c (memory w) = Diverge
  end.
Proof. unfold lift. by destruct (c (memory w)). Qed.

Lemma run_local_frame l v w :
  local l = true ->
  match run l v w with
  | Ret _ w' | Throw _ w' =>
    handles w' = handles w /\ delivered w' = delivered w /\ suspended w' = suspended w
  | Diverge => ~ total call
  end.
Proof.
  intros Hl. destruct l as [f|cb p|]; [| |done]; simpl.
  - pose proof (lift_frame (call f VUndefined [v]) w) as H.
    destruct (lift _ w); [tauto..|]. intros Ht. by apply Ht in H.
  - destruct (truthy v); [|done]. unfold bind.
    destruct cb as [f|]; simpl.
    + pose proof (lift_frame (call f VUndefined [v]) w) as H.
      destruct (lift _ w) as [r w'|e w'|]; [| tauto |].
      * destruct H as (Hh & Hd & Hs & _).
        destruct (is_nullish r); simpl; [done|].
        unfold Whispr.resolve.
        by destruct (promises w' !! p) as [[?|]|].
      * intros Ht. by apply Ht in H.
    + unfold ret. destruct (is_nullish v); simpl; [done|].
      unfold Whispr.resolve. by destruct (promises w !! p) as [[?|]|].
Qed.

#[local] Arguments Whispr.run_listener : simpl never.

(** One notification of a local listener: it is delivered the stored
    value, the call returns, and the listener is taken off the list only
    when it answered ["STOP"]. *)
Lemma notify_local c l w d ls al :
  total call ->
  local l = true ->
  handles w !! c = Some (MkWhispr (MkObservable d ls) al) ->
  exists w' ls',
    Observable.notify run c l w = Ret tt w' /\
    delivered w' = delivered w ++ [(c, l, d)] /\
    handles w' = <[c:=MkWhispr (MkObservable d ls') al]> (handles w) /\
    (ls' = ls \/ (ls' = filter (fun l' => l' <> l) ls /\ stopped l d)).
Proof.
  intros Ht Hl Hc. unfold Observable.notify.
  rewrite (cell_lookup _ _ _ _ _ Hc). simpl.
  set (w0 := with_delivered _ w).
  pose proof (run_local_frame l d w0 Hl) as Hf.
  destruct (run l d w0) as [r w1|e w1|] eqn:Hrun; [| |done].
  - destruct Hf as (Hh & Hd & Hs).
    destruct (is_promise w1 r) as [q|] eqn:Hp.
    + eexists _, ls. split; [done|]. simpl. rewrite Hh, Hd.
      split_and!; [done| |by left].
      symmetry. by apply list_insert_id.
    + unfold Observable.notify_result. case_decide as Hstop.
      * eexists _, _. split; [done|].
        unfold Observable.unsubscribe.
        rewrite (update_cell_insert c _ w1 d ls al) by (by rewrite Hh).
        rewrite Hh. simpl. rewrite Hd. split_and!; [done..|].
        right. split; [done|]. subst r. by exists w0, w1.
      * eexists _, ls. split; [done|]. rewrite Hh, Hd.
        split_and!; [done| |by left].
        symmetry. by apply list_insert_id.
  - destruct Hf as (Hh & Hd & Hs).
    eexists _, ls. split; [done|]. simpl. rewrite Hh, Hd.
    split_and!; [done| |by left].
    symmetry. by apply list_insert_id.
Qed.

(** The walk over a list of local listeners. *)
Lemma dispatch_local c ls :
  total call ->
  Forall (fun l => local l = true) ls ->
  forall w d ls0 al,
    handles w !! c = Some (MkWhispr (MkObservable d ls0) al) ->
    exists w' ls1,
      dispatch run c ls w = Ret tt w' /\
      delivered w' = delivered w ++ ((fun l => (c, l, d)) <$> ls) /\
      handles w' = <[c:=MkWhispr (MkObservable d ls1) al]> (handles w) /\
      (forall l, l ∈ ls1 -> l ∈ ls0) /\
      (forall l, l ∈ ls0 -> l ∉ ls1 -> l ∈ ls /\ stopped l d).
Proof.
  intros Ht Hls. induction Hls as [|l ls Hl Hls IH]; intros w d ls0 al Hc.
  - exists w, ls0. unfold dispatch. simpl. rewrite app_nil_r.
    split_and!; [done..| |done|done].
    symmetry. by apply list_insert_id.
  - destruct (notify_local c l w d ls0 al Ht Hl Hc) as (w1 & ls1 & Hn & Hd1 & Hh1 & Hls1).
    assert (Hc1 : handles w1 !! c = Some (MkWhispr (MkObservable d ls1) al)).
    { rewrite Hh1. apply list_lookup_insert_eq. by eapply lookup_lt_Some. }
    destruct (IH w1 d ls1 al Hc1) as (w2 & ls2 & Hdis & Hd2 & Hh2 & Hsub & Hrem).
    exists w2, ls2. unfold dispatch in *. simpl. unfold bind at 1. rewrite Hn.
    split; [done|]. rewrite Hd2, Hd1, Hh2, Hh1, list_insert_insert_eq.
    rewrite <- app_assoc. simpl. split_and!; [done..| |].
    + intros l' Hl'. apply Hsub in Hl'.
      destruct Hls1 as [->|[-> _]]; [done|].
      by apply list_elem_of_filter in Hl' as [_ ?].
    + intros l' Hin Hout.
      destruct (decide (l' ∈ ls1)) as [Hin1|Hout1].
      * destruct (Hrem l' Hin1 Hout) as [? ?]. split; [by right|done].
      * destruct Hls1 as [->|[-> Hstop]]; [done|].
        destruct (decide (l' = l)) as [->|Hne]; [split; [by left|done]|].
        exfalso. apply Hout1. by apply filter_keeps_others.
Qed.

End Local.

(** ** Writing to a cell whose listeners are local *)

Section Write.

Variable call : fn -> jsvalue -> list jsvalue -> M mem jsvalue.
Variable depth : nat.
Variable n : nat.

#[local] Abbreviation run := (Whispr.run_listener call depth (S n)).
#[local] Arguments Whispr.run_listener : simpl never.

Lemma set_unfold c d w d' m' :
  safeClone call depth d (memory w) = Ret d' m' ->
  forall r : listener -> jsvalue -> M world jsvalue,
  Observable.set call depth r c d w
  = let w1 := update_cell c (fun o => MkObservable d' (listeners o)) (with_memory m' w) in
    bind (dispatch r c (default [] (listeners <$> cell c w1))) (fun _ => ret true) w1.
Proof.
  intros Hc r. unfold Observable.set, bind at 1, lift. by rewrite Hc.
Qed.


Lemma set_local c d w d0 ls0 al d' m' :
  total call ->
  Forall (fun l => local l = true) ls0 ->
  handles w !! c = Some (MkWhispr (MkObservable d0 ls0) al) ->
  safeClone call depth d (memory w) = Ret d' m' ->
  exists w' ls1,
    Observable.set call depth run c d w = Ret true w' /\
    delivered w' = delivered w ++ ((fun l => (c, l, d')) <$> ls0) /\
    handles w' = <[c:=MkWhispr (MkObservable d' ls1) al]> (handles w) /\
    (forall l, l ∈ ls1 -> l ∈ ls0) /\
    (forall l, l ∈ ls0 -> l ∉ ls1 -> stopped call depth n l d').
Proof.
  intros Ht Hls Hc Hclone. rewrite (set_unfold _ _ _ _ _ Hclone). cbv zeta.
  set (w1 := update_cell c _ _).
  assert (Hh1 : handles w1 = <[c:=MkWhispr (MkObservable d' ls0) al]> (handles w)).
  { unfold w1. by rewrite (update_cell_insert c _ _ d0 ls0 al). }
  assert (Hc1 : handles w1 !! c = Some (MkWhispr (MkObservable d' ls0) al)).
  { rewrite Hh1. apply list_lookup_insert_eq. by eapply lookup_lt_Some. }
  rewrite (cell_lookup _ _ _ _ _ Hc1). simpl.
  destruct (dispatch_local call depth n c ls0 Ht Hls w1 d' ls0 al Hc1)
    as (w2 & ls1 & Hdis & Hd & Hh & Hsub & Hrem).
  exists w2, ls1. unfold bind. rewrite Hdis. split; [done|].
  rewrite Hd, Hh, Hh1, list_insert_insert_eq.
  split_and!; [done..|]. intros l Hin Hout. by destruct (Hrem l Hin Hout).
Qed.

End Write.

Lemma user_total : total Scenario.user.
Proof.
  intros f this args m. unfold Scenario.user.
  repeat (case_match; try done).
Qed.

(** ** Faults of listeners *)



(** The same on a run: the first listener throws, the second is notified
    all the same, the writer gets [true], and both are still subscribed. *)
Example fault_then_next_listener :
  Whispr.set Scenario.user 3 1 0 (VNumber (Num 3))
    (Scenario.one_cell VNull [LUser Scenario.thrower; LUser Scenario.idle])
  = Ret true
      (World (Mem [] [Warn "Whispr listener threw an error:" (VString "oops")])
             [MkWhispr (MkObservable (VNumber (Num 3))
                          [LUser Scenario.thrower; LUser Scenario.idle]) true]
             [] []
             [(0, LUser Scenario.thrower, VNumber (Num 3));
              (0, LUser Scenario.idle, VNumber (Num 3))]).
Proof. reflexivity. Qed.

(** ** Removing a listener *)

(** C10, as the code has it.  [unsubscribe] filters the list by identity:
    every registration of the listener goes at once and the others stay,
    and a listener that answers ["STOP"] is unsubscribed the same way.  No
    write that starts afterwards notifies it. *)
Theorem unsubscribe_removes_every_registration
    (call : fn -> jsvalue -> list jsvalue -> M mem jsvalue) (depth n c : nat)
    (cb : listener) (w : world) (d0 : jsvalue) (ls0 : list listener) (al : bool) :
  total call ->
  Forall (fun l => local l = true) ls0 ->
  handles w !! c = Some (MkWhispr (MkObservable d0 ls0) al) ->
  cell c (Observable.unsubscribe c cb w)
  = Some (MkObservable d0 (filter (fun l => l <> cb) ls0)) /\
  (cb ∉ filter (fun l => l <> cb) ls0) /\
  (forall l, l <> cb -> l ∈ ls0 -> l ∈ filter (fun l' => l' <> cb) ls0) /\
  (forall w1,
     Whispr.run_listener call depth (S n) cb d0
       (with_delivered (delivered w ++ [(c, cb, d0)]) w) = Ret (VString "STOP") w1 ->
     Observable.notify (Whispr.run_listener call depth (S n)) c cb w
     = Ret tt (Observable.unsubscribe c cb w1)) /\
  (forall d d' m',
     safeClone call depth d (memory (Observable.unsubscribe c cb w)) = Ret d' m' ->
     exists w' news,
       Observable.set call depth (Whispr.run_listener call depth (S n)) c d
         (Observable.unsubscribe c cb w) = Ret true w' /\
       delivered w' = delivered w ++ news /\
       (forall x, x ∈ news -> x.1.2 <> cb)).
Proof.
  intros Ht Hls Hc.
  pose proof (cell_lookup _ _ _ _ _ Hc) as Hcell.
  split_and!.
  - by rewrite (unsubscribe_cell c cb w _ Hcell).
  - apply filter_removes_all.
  - intros l. apply filter_keeps_others.
  - intros w1 Hrun. unfold Observable.notify. rewrite Hcell. cbn [_data].
    rewrite Hrun. simpl. unfold Observable.notify_result.
    by rewrite decide_True.
  - intros d d' m' Hclone.
    set (ls1 := filter (fun l => l <> cb) ls0).
    assert (Hc1 : handles (Observable.unsubscribe c cb w) !! c
                  = Some (MkWhispr (MkObservable d0 ls1) al)).
    { unfold Observable.unsubscribe.
      rewrite (update_cell_insert c _ w d0 ls0 al Hc).
      apply list_lookup_insert_eq. by eapply lookup_lt_Some. }
    assert (Hls1 : Forall (fun l => local l = true) ls1).
    { apply Forall_forall. intros l Hl. apply list_elem_of_filter in Hl as [_ Hl].
      by eapply Forall_forall in Hls. }
    destruct (set_local call depth n c d _ d0 ls1 al d' m' Ht Hls1 Hc1 Hclone)
      as (w' & ls2 & Hset & Hd & _).
    exists w', ((fun l => (c, l, d')) <$> ls1). split_and!; [done..|].
    intros x Hx. apply list_elem_of_fmap in Hx as (l & -> & Hl). simpl.
    intros ->. by apply (filter_removes_all cb ls0).
Qed.

Lemma unsubscribe_removes_every_registration_witness :
  cell 0 (Observable.unsubscribe 0 (LUser Scenario.idle)
            (Scenario.one_cell VNull
               [LUser Scenario.idle; LUser Scenario.thrower; LUser Scenario.idle]))
  = Some (MkObservable VNull
            (filter (fun l => l <> LUser Scenario.idle)
                    [LUser Scenario.idle; LUser Scenario.thrower; LUser Scenario.idle])) /\
  (LUser Scenario.idle
     ∉ filter (fun l => l <> LUser Scenario.idle)
              [LUser Scenario.idle; LUser Scenario.thrower; LUser Scenario.idle]) /\
  (forall l, l <> LUser Scenario.idle ->
             l ∈ [LUser Scenario.idle; LUser Scenario.thrower; LUser Scenario.idle] ->
             l ∈ filter (fun l' => l' <> LUser Scenario.idle)
                        [LUser Scenario.idle; LUser Scenario.thrower; LUser Scenario.idle]) /\
  (forall w1,
     Whispr.run_listener Scenario.user 3 1 (LUser Scenario.idle) VNull
       (with_delivered
          (delivered (Scenario.one_cell VNull
                        [LUser Scenario.idle; LUser Scenario.thrower; LUser Scenario.idle])
           ++ [(0, LUser Scenario.idle, VNull)])
          (Scenario.one_cell VNull
             [LUser Scenario.idle; LUser Scenario.thrower; LUser Scenario.idle]))
     = Ret (VString "STOP") w1 ->
     Observable.notify (Whispr.run_listener Scenario.user 3 1) 0 (LUser Scenario.idle)
       (Scenario.one_cell VNull
          [LUser Scenario.idle; LUser Scenario.thrower; LUser Scenario.idle])
     = Ret tt (Observable.unsubscribe 0 (LUser Scenario.idle) w1)) /\
  (forall d d' m',
     safeClone Scenario.user 3 d
       (memory (Observable.unsubscribe 0 (LUser Scenario.idle)
                  (Scenario.one_cell VNull
                     [LUser Scenario.idle; LUser Scenario.thrower; LUser Scenario.idle])))
     = Ret d' m' ->
     exists w' news,
       Observable.set Scenario.user 3 (Whispr.run_listener Scenario.user 3 1) 0 d
         (Observable.unsubscribe 0 (LUser Scenario.idle)
            (Scenario.one_cell VNull
               [LUser Scenario.idle; LUser Scenario.thrower; LUser Scenario.idle]))
       = Ret true w' /\
       delivered w'
       = delivered (Scenario.one_cell VNull
                      [LUser Scenario.idle; LUser Scenario.thrower; LUser Scenario.idle])
         ++ news /\
       (forall x, x ∈ news -> x.1.2 <> LUser Scenario.idle)).
Proof.
  apply (unsubscribe_removes_every_registration Scenario.user 3 0 0
           (LUser Scenario.idle)
           (Scenario.one_cell VNull
              [LUser Scenario.idle; LUser Scenario.thrower; LUser Scenario.idle])
           VNull [LUser Scenario.idle; LUser Scenario.thrower; LUser Scenario.idle] true).
  - exact user_total.
  - repeat constructor.
  - reflexivity.
Defined.

(** C10, as it is stated, fails while a write is under way: [forEach]
    walks the array the write started with.  The listener is registered
    twice; its first notification answers ["STOP"] and empties the list,
    and the same write still notifies it a second time. *)
Lemma stopped_listener_is_notified_again :
  Scenario.user Scenario.stopper VUndefined [VNumber (Num 3)] (Mem [] [])
  = Ret (VString "STOP") (Mem [] []) /\
  (listeners <$>
   cell 0 (Observable.notify_result 0 (LUser Scenario.stopper) (VString "STOP")
             (Scenario.one_cell (VNumber (Num 3))
                [LUser Scenario.stopper; LUser Scenario.stopper]))) = Some [] /\
  Whispr.set Scenario.user 3 1 0 (VNumber (Num 3))
    (Scenario.one_cell VNull [LUser Scenario.stopper; LUser Scenario.stopper])
  = Ret true
      (World (Mem [] [])
             [MkWhispr (MkObservable (VNumber (Num 3)) []) true] [] []
             [(0, LUser Scenario.stopper, VNumber (Num 3));
              (0, LUser Scenario.stopper, VNumber (Num 3))]).
Proof. split_and!; reflexivity. Qed.

(** ** The setter *)



(** The dead case on a run: the handle is collected, then written to. *)
Example setter_after_collect :
  Whispr.set Scenario.user 3 1 0 (VNumber (Num 5))
    (Whispr.collect 0 (Scenario.one_cell VNull [LUser Scenario.idle]))
  = Ret false (Whispr.collect 0 (Scenario.one_cell VNull [LUser Scenario.idle])).
Proof. reflexivity. Qed.


(** ** Waiting for a value *)


(** On a truthy value the predicate is called, and a present result
    resolves the promise and answers ["STOP"]. *)
Lemma wait_listener_on_truthy
    (call : fn -> jsvalue -> list jsvalue -> M mem jsvalue) (depth n : nat)
    (f : fn) (p : nat) (v r : jsvalue) (w : world) (m' : mem) :
  truthy v = true ->
  call f VUndefined [v] (memory w) = Ret r m' ->
  Whispr.run_listener call depth (S n) (LWait (PUser f) p) v w
  = if is_nullish r then Ret VUndefined (with_memory m' w)
    else Ret (VString "STOP") (Whispr.resolve p r (with_memory m' w)).
Proof.
  intros Hv Hc. simpl. rewrite Hv. unfold bind, Whispr.run_predicate, lift.
  rewrite Hc. by destruct (is_nullish r).
Qed.

(** C1.  The handle holds [0]; [wait] is called with a predicate that has
    a present result for every value; then [""] and [false] are written.
    The three values are delivered to the listener of the [wait], the
    predicate is called on none of them (it would have written to the
    console), and the promise is still pending. *)
Theorem wait_skips_falsy_values :
  Scenario.wait_on_falsy Scenario.empty
  = Ret 0
      (World (Mem [] [])
             [MkWhispr (MkObservable (VBoolean false)
                          [LWait (PUser Scenario.seen) 0]) true]
             [None] []
             [(0, LWait (PUser Scenario.seen) 0, VNumber (Num 0));
              (0, LWait (PUser Scenario.seen) 0, VString "");
              (0, LWait (PUser Scenario.seen) 0, VBoolean false)]).
Proof. reflexivity. Qed.

(** For contrast, the first truthy value resolves it, once. *)
Example wait_resolves_on_truthy :
  (p <- Scenario.wait_on_falsy ;;
   _ <- Whispr.set Scenario.user 3 1 0 (VNumber (Num 7)) ;;
   _ <- Whispr.set Scenario.user 3 1 0 (VNumber (Num 8)) ;;
   ret p)%js Scenario.empty
  = Ret 0
      (World (Mem [] [Warn "predicate called with" (VNumber (Num 7))])
             [MkWhispr (MkObservable (VNumber (Num 8)) []) true]
             [Some (VString "seen")] []
             [(0, LWait (PUser Scenario.seen) 0, VNumber (Num 0));
              (0, LWait (PUser Scenario.seen) 0, VString "");
              (0, LWait (PUser Scenario.seen) 0, VBoolean false);
              (0, LWait (PUser Scenario.seen) 0, VNumber (Num 7))]).
Proof. reflexivity. Qed.

(** ** What a listener is passed *)

(** Every notification passes the stored value itself. *)
Lemma notify_delivers_stored_value
    (run : listener -> jsvalue -> M world jsvalue) c l w o :
  cell c w = Some o ->
  Observable.notify run c l w
  = match run l (_data o) (with_delivered (delivered w ++ [(c, l, _data o)]) w) with
    | Ret result w1 =>
      match is_promise w1 result with
      | Some p => Ret tt (with_suspended (suspended w1 ++ [(c, l, p)]) w1)
      | None => Ret tt (Observable.notify_result c l result w1)
      end
    | Throw e w1 => Ret tt (Observable.notify_caught e w1)
    | Diverge => Diverge
    end.
Proof. intros H. unfold Observable.notify. by rewrite H. Qed.

(** C2.  The cell is created from [{ a: 1 }], whose clone is stored at
    address 1.  A first read returns a copy with [a = 1].  A listener
    that assigns [a = 2] on its argument is subscribed: it is passed
    address 1, the stored object, and the next read returns a copy with
    [a = 2]. *)
Theorem listener_is_passed_the_stored_object :
  Scenario.mutate_delivered (Scenario.in_heap [Scenario.record_a1])
  = Ret (VRef 2, VRef 3)
      (World (Mem [ORecord ProtoObject [("a", VNumber (Num 1))];
                   ORecord ProtoObject [("a", VNumber (Num 2))];
                   ORecord ProtoObject [("a", VNumber (Num 1))];
                   ORecord ProtoObject [("a", VNumber (Num 2))]] [])
             [MkWhispr (MkObservable (VRef 1) [LUser Scenario.mutator]) true]
             [] []
             [(0, LUser Scenario.mutator, VRef 1)]).
Proof. reflexivity. Qed.

(** ** Instances of classes *)

(** An instance of a class without [clone] is returned as it is, and the
    memory, console included, is as it was. *)
Lemma class_instance_is_shared
    (call : fn -> jsvalue -> list jsvalue -> M mem jsvalue) (n : nat)
    (m : mem) (a : addr) (k : fn) (members props : list (string * jsvalue)) :
  heap m !! a = Some (ORecord (ProtoOther (CtorFunction k) members) props) ->
  is_function (heap m) (get_property (ProtoOther (CtorFunction k) members) props "clone") = None ->
  safeClone call (S n) (VRef a) m = Ret (VRef a) m.
Proof. intros Ha Hc. simpl. by rewrite Ha, Hc. Qed.

(** C3.  An instance of a class without [clone] and without marker is
    returned unchanged and the console stays empty; with the marker
    [skipSafeClone = true] the outcome is the same. *)
Theorem class_instance_without_diagnostic :
  safeClone Scenario.user 3 (VRef 0) (Mem [Scenario.instance] [])
  = Ret (VRef 0) (Mem [Scenario.instance] []) /\
  safeClone Scenario.user 3 (VRef 0) (Mem [Scenario.marked_instance] [])
  = Ret (VRef 0) (Mem [Scenario.marked_instance] []).
Proof. split; reflexivity. Qed.

(** ** Values that [safeClone] does not copy *)



(** C9, as it is stated, fails on an error of a specific type that
    carries a field: the copy is a generic [Error] with the message and
    the stack, and its content is not that of the original. *)
Lemma error_clone_drops_name_and_fields :
  safeClone Scenario.user 3 (VRef 0) (Mem [Scenario.type_error] [])
  = Ret (VRef 1)
      (Mem [Scenario.type_error;
            OError "Error" "boom" (Some "TypeError: boom at <anonymous>") []] []) /\
  reify 3 [Scenario.type_error;
           OError "Error" "boom" (Some "TypeError: boom at <anonymous>") []] (VRef 1)
  <> reify 3 [Scenario.type_error] (VRef 0).
Proof. split; [reflexivity|done]. Qed.


(** ** The special objects *)

(** C9, as the code has it.  An error is rebuilt as a generic [Error]
    with the message and the stack of the original (or a fixed text when
    it has no stack), and nothing else; a date with the same time; a
    pattern matcher with the same source and flags, at [lastIndex] 0; a
    buffer with the same bytes.  The copy is a new object, and the
    original is left as it was. *)
Theorem special_objects_are_rebuilt
    (call : fn -> jsvalue -> list jsvalue -> M mem jsvalue) (n : nat)
    (m : mem) (a : addr) (o : object) :
  heap m !! a = Some o ->
  forall o',
    match o with
    | OError _ message stack _ =>
      o' = OError "Error" message (Some (default "No Stack Found" stack)) []
    | ODate t => o' = ODate t
    | ORegExp source flags _ => o' = ORegExp source flags 0
    | OArrayBuffer bytes => o' = OArrayBuffer bytes
    | _ => False
    end ->
    exists a',
      safeClone call (S n) (VRef a) m = Ret (VRef a') (Mem (heap m ++ [o']) (console m)) /\
      a' <> a /\
      (heap m ++ [o']) !! a' = Some o' /\
      (heap m ++ [o']) !! a = Some o.
Proof.
  intros Ha o' Ho'. exists (length (heap m)).
  pose proof (lookup_lt_Some _ _ _ Ha) as Hlt.
  split_and!.
  - simpl. rewrite Ha. destruct o; try done; by subst o'.
  - lia.
  - by rewrite list_lookup_middle.
  - by apply lookup_app_l_Some.
Qed.

Lemma special_objects_are_rebuilt_witness :
  exists a',
    safeClone Scenario.user 3 (VRef 0) (Mem [Scenario.type_error] [])
    = Ret (VRef a')
        (Mem (heap (Mem [Scenario.type_error] [])
              ++ [OError "Error" "boom" (Some "TypeError: boom at <anonymous>") []])
             (console (Mem [Scenario.type_error] []))) /\
    a' <> 0 /\
    (heap (Mem [Scenario.type_error] [])
     ++ [OError "Error" "boom" (Some "TypeError: boom at <anonymous>") []]) !! a'
    = Some (OError "Error" "boom" (Some "TypeError: boom at <anonymous>") []) /\
    (heap (Mem [Scenario.type_error] [])
     ++ [OError "Error" "boom" (Some "TypeError: boom at <anonymous>") []]) !! 0
    = Some Scenario.type_error.
Proof.
  apply (special_objects_are_rebuilt Scenario.user 2 (Mem [Scenario.type_error] []) 0
           Scenario.type_error).
  - reflexivity.
  - reflexivity.
Defined.

(** ** What [safeClone] makes of a finite value *)

Section Copies.

#[local] Arguments isLikelyClassInstance : simpl never.

Lemma bounded_extend h h' v : bounded h v = true -> bounded (h ++ h') v = true.
Proof.
  destruct v; try done. simpl. rewrite !bool_decide_eq_true, length_app. lia.
Qed.

Lemma is_function_extend h h' v :
  bounded h v = true -> is_function (h ++ h') v = is_function h v.
Proof.
  destruct v; try done. simpl. rewrite bool_decide_eq_true. intros Hlt.
  by rewrite lookup_app_l.
Qed.

Lemma has_clone_extend h h' p props :
  bounded h (get_property p props "clone") = true ->
  has_clone (h ++ h') p props = has_clone h p props.
Proof. intros H. unfold has_clone. by rewrite is_function_extend. Qed.

Lemma mapM_impl {A B} (f g : A -> option B) l k :
  (forall x y, f x = Some y -> g x = Some y) ->
  mapM f l = Some k -> mapM g l = Some k.
Proof.
  intros Hfg. rewrite !mapM_Some. intros H. eapply Forall2_impl; [exact H|auto].
Qed.

Lemma reify_extend n h h' v t :
  reify n h v = Some t -> reify n (h ++ h') v = Some t.
Proof.
  revert v t. induction n as [|n IH]; intros v t; [done|]. simpl.
  destruct v as [| | | | | | |a]; try done.
  destruct (h !! a) as [o|] eqn:Ha; [|done].
  rewrite (lookup_app_l_Some _ _ _ _ Ha).
  destruct o as [items|entries|items| | | | | | |p props]; try done.
  - intros (ts & Hm & ->)%fmap_Some. apply fmap_Some. exists ts. split; [|done].
    revert Hm. apply mapM_impl. auto.
  - case_decide; [|done].
    intros (ts & Hm & ->)%fmap_Some. apply fmap_Some. exists ts. split; [|done].
    revert Hm. apply mapM_impl. intros [k x] y. unfold reify_entry. simpl.
    destruct (reify n h k) as [tk|] eqn:Hk; [|done].
    destruct (reify n h x) as [tx|] eqn:Hx; [|done]. simpl.
    by rewrite (IH _ _ Hk), (IH _ _ Hx).
  - case_decide; [|done].
    intros (ts & Hm & ->)%fmap_Some. apply fmap_Some. exists ts. split; [|done].
    revert Hm. apply mapM_impl. auto.
  - destruct (bounded h (get_property p props "clone")) eqn:Hb; [|done]. simpl.
    rewrite (bounded_extend _ _ _ Hb), (has_clone_extend _ _ _ _ Hb). simpl.
    destruct (has_clone h p props); [done|].
    destruct (isLikelyClassInstance _); [done|].
    case_decide; [|done].
    intros (ts & Hm & ->)%fmap_Some. apply fmap_Some. exists ts. split; [|done].
    revert Hm. apply mapM_impl. intros [k x] y. unfold reify_prop. simpl.
    destruct (reify n h x) as [tx|] eqn:Hx; [|done]. simpl.
    by rewrite (IH _ _ Hx).
Qed.

Lemma reify_bounded n h v t : reify n h v = Some t -> bounded h v = true.
Proof.
  destruct n; [done|]. simpl. destruct v as [| | | | | | |a]; try done.
  destruct (h !! a) eqn:Ha; [|done]. intros _. simpl.
  apply bool_decide_eq_true. by eapply lookup_lt_Some.
Qed.

Lemma forallb_impl {A} (f g : A -> bool) l :
  (forall x, f x = true -> g x = true) -> forallb f l = true -> forallb g l = true.
Proof.
  intros Hfg. rewrite !forallb_forall. auto.
Qed.

Lemma isolated_extend n h h' b v :
  isolated n h b v = true -> isolated n (h ++ h') b v = true.
Proof.
  revert v. induction n as [|n IH]; intros v; [done|]. simpl.
  destruct v as [| | | | | | |a]; try done.
  destruct (h !! a) as [o|] eqn:Ha; [|done].
  rewrite (lookup_app_l_Some _ _ _ _ Ha).
  destruct o as [items|entries|items| | | | | | |p props]; try done.
  - rewrite !andb_true_iff. intros [? H]. split; [done|]. revert H. apply forallb_impl. auto.
  - rewrite !andb_true_iff. intros [? H]. split; [done|]. revert H. apply forallb_impl.
    intros [k x]. simpl. rewrite !andb_true_iff. intros []. auto.
  - rewrite !andb_true_iff. intros [? H]. split; [done|]. revert H. apply forallb_impl. auto.
  - destruct (bounded h (get_property p props "clone")) eqn:Hb; [|done]. simpl.
    rewrite (bounded_extend _ _ _ Hb), (has_clone_extend _ _ _ _ Hb). simpl.
    destruct (has_clone h p props); [done|].
    destruct (isLikelyClassInstance _); [done|].
    rewrite !andb_true_iff. intros [? H]. split; [done|]. revert H. apply forallb_impl.
    intros [k x]. simpl. auto.
Qed.

Lemma isolated_weaken n h b b' v :
  b' <= b -> isolated n h b v = true -> isolated n h b' v = true.
Proof.
  intros Hb. revert v. induction n as [|n IH]; intros v; [done|]. simpl.
  destruct v as [| | | | | | |a]; try done.
  destruct (h !! a) as [o|] eqn:Ha; [|done].
  assert (Hle : bool_decide (b <= a) = true -> bool_decide (b' <= a) = true).
  { rewrite !bool_decide_eq_true. lia. }
  destruct o as [items|entries|items| | | | | | |p props]; try done; auto.
  - rewrite !andb_true_iff. intros [? H]. split; [auto|]. revert H. apply forallb_impl. auto.
  - rewrite !andb_true_iff. intros [? H]. split; [auto|]. revert H. apply forallb_impl.
    intros [k x]. simpl. rewrite !andb_true_iff. intros []. auto.
  - rewrite !andb_true_iff. intros [? H]. split; [auto|]. revert H. apply forallb_impl. auto.
  - destruct (negb _); [done|]. destruct (has_clone h p props); [done|].
    destruct (isLikelyClassInstance _); [done|].
    rewrite !andb_true_iff. intros [? H]. split; [auto|]. revert H. apply forallb_impl.
    intros [k x]. simpl. auto.
Qed.

Lemma extends_refl m : extends m m.
Proof. exists []. destruct m. simpl. by rewrite app_nil_r. Qed.

Lemma extends_trans m1 m2 m3 : extends m1 m2 -> extends m2 m3 -> extends m1 m3.
Proof.
  intros [h1 ->] [h2 ->]. exists (h1 ++ h2). simpl. by rewrite app_assoc.
Qed.

Lemma extends_length m m' : extends m m' -> length (heap m) <= length (heap m').
Proof. intros [h' ->]. simpl. rewrite length_app. lia. Qed.

Lemma alloc_extends o m :
  alloc o m = Ret (VRef (length (heap m))) (Mem (heap m ++ [o]) (console m)) /\
  extends m (Mem (heap m ++ [o]) (console m)).
Proof. split; [done|]. by exists [o]. Qed.

Section Traverse.
Context {A B : Type}.
Variable g : A -> M mem B.
Variable P : list object -> A -> Prop.
Variable Q : nat -> list object -> A -> B -> Prop.
Variable key : A -> jsvalue.
Variable key' : B -> jsvalue.
Hypothesis P_ext : forall h h' x, P h x -> P (h ++ h') x.
Hypothesis Q_ext : forall b h h' x y, Q b h x y -> Q b (h ++ h') x y.
Hypothesis Q_weaken : forall b b' h x y, b' <= b -> Q b h x y -> Q b' h x y.
Hypothesis Q_key : forall b h x y,
  Q b h x y -> fresh_or_same b (key x) (key' y) /\ bounded h (key' y) = true.
Hypothesis Hg : forall x m,
  P (heap m) x ->
  exists y m', g x m = Ret y m' /\ extends m m' /\ Q (length (heap m)) (heap m') x y.

Lemma traverse_spec xs :
  forall m, Forall (P (heap m)) xs ->
  exists ys m',
    traverse g xs m = Ret ys m' /\ extends m m' /\
    Forall2 (Q (length (heap m)) (heap m')) xs ys /\
    (NoDup (key <$> xs) -> Forall (fun x => bounded (heap m) (key x) = true) xs ->
     NoDup (key' <$> ys)).
Proof.
  induction xs as [|x xs IH]; intros m HP.
  - exists [], m. split_and!; [done|apply extends_refl|constructor|by constructor].
  - apply Forall_cons in HP as [Hx Hxs].
    destruct (Hg x m Hx) as (y & m1 & Hgx & Hext1 & HQ).
    pose proof Hext1 as [h1 Hm1].
    assert (Hxs1 : Forall (P (heap m1)) xs).
    { subst m1. simpl. eapply Forall_impl; [exact Hxs|]. intros; by apply P_ext. }
    destruct (IH m1 Hxs1) as (ys & m2 & Htr & Hext2 & HQs & Hnd).
    pose proof Hext2 as [h2 Hm2].
    exists (y :: ys), m2. split_and!.
    + simpl. unfold bind. by rewrite Hgx, Htr.
    + by eapply extends_trans.
    + constructor.
      * subst m2. simpl. by apply Q_ext.
      * eapply Forall2_impl; [exact HQs|]. intros x' y' HQ'.
        eapply Q_weaken; [|exact HQ']. by apply extends_length.
    + rewrite !fmap_cons. intros [Hnotin Hnd']%NoDup_cons [Hbx Hbxs]%Forall_cons.
      apply NoDup_cons. split.
      * intros Hin. apply list_elem_of_fmap in Hin as (y' & Hky & Hy').
        apply list_elem_of_lookup in Hy' as (i & Hi).
        destruct (Forall2_lookup_r _ _ _ _ _ HQs Hi) as (x' & Hx' & HQ').
        apply Q_key in HQ as [Hfs Hb]. apply Q_key in HQ' as [Hfs' _].
        assert (Hbx' : bounded (heap m) (key x') = true).
        { eapply Forall_lookup_1 in Hbxs; [|exact Hx']. done. }
        assert (Hx'in : key x' ∈ key <$> xs).
        { apply list_elem_of_fmap. exists x'. split; [done|]. by eapply list_elem_of_lookup_2. }
        pose proof (extends_length _ _ Hext1) as Hlen.
        destruct Hfs as [Hs|(a & Ha & Hge)], Hfs' as [Hs'|(a' & Ha' & Hge')].
        -- apply Hnotin. congruence.
        -- rewrite Hky, Ha' in Hs. rewrite <- Hs in Hbx. simpl in Hbx.
           apply bool_decide_eq_true in Hbx. lia.
        -- rewrite <- Hky, Hs', Ha in *. simpl in Hbx'.
           apply bool_decide_eq_true in Hbx'. lia.
        -- assert (a = a') by congruence. subst a'.
           rewrite Ha in Hb. simpl in Hb. apply bool_decide_eq_true in Hb. lia.
      * apply Hnd; [done|]. eapply Forall_impl; [exact Hbxs|].
        intros x' Hb'. subst m1. simpl. by apply bounded_extend.
Qed.
End Traverse.

(** The loops that fill a set, a map or a record are traversals followed by
    a pure fold. *)
Lemma foldM_set_add (g : jsvalue -> M mem jsvalue) xs acc m :
  foldM (fun newSet item => x <- g item ;; ret (set_add newSet x)) xs acc m
  = (ys <- traverse g xs ;; ret (fold_left set_add ys acc)) m.
Proof.
  revert acc m. induction xs as [|x xs IH]; intros acc m; [done|].
  simpl. unfold bind. destruct (g x m) as [y m1| |]; [|done..].
  simpl. rewrite IH. unfold bind. by destruct (traverse g xs m1).
Qed.

Lemma foldM_map_set (g : jsvalue -> M mem jsvalue) es acc m :
  foldM (fun newMap kv => k <- g kv.1 ;; x <- g kv.2 ;; ret (map_set newMap k x)) es acc m
  = (ps <- traverse (fun kv => k <- g kv.1 ;; x <- g kv.2 ;; ret (k, x)) es ;;
     ret (fold_left (fun a p => map_set a p.1 p.2) ps acc)) m.
Proof.
  revert acc m. induction es as [|[k x] es IH]; intros acc m; [done|].
  simpl. unfold bind. destruct (g k m) as [k' m1| |]; [|done..].
  destruct (g x m1) as [x' m2| |]; [|done..].
  simpl. rewrite IH. unfold bind. by destruct (traverse _ es m2).
Qed.

Lemma set_add_fresh xs x : x ∉ xs -> set_add xs x = xs ++ [x].
Proof. intros H. unfold set_add. by rewrite decide_False. Qed.

Lemma fold_set_add_nodup ys acc :
  NoDup (acc ++ ys) -> fold_left set_add ys acc = acc ++ ys.
Proof.
  revert acc. induction ys as [|y ys IH]; intros acc Hnd; simpl.
  - by rewrite app_nil_r.
  - rewrite set_add_fresh.
    + rewrite IH; rewrite <- app_assoc; done.
    + apply NoDup_app in Hnd as (_ & Hd & _). intros Hin. apply (Hd y Hin). by left.
Qed.

Lemma map_set_fresh es k v : k ∉ es.*1 -> map_set es k v = es ++ [(k, v)].
Proof.
  induction es as [|[k' v'] es IH]; intros Hk; simpl; [done|].
  rewrite fmap_cons in Hk. apply not_elem_of_cons in Hk as [Hne Hk].
  rewrite decide_False by done. by rewrite IH.
Qed.

Lemma fold_map_set_nodup (ps acc : list (jsvalue * jsvalue)) :
  NoDup ((acc ++ ps).*1) ->
  fold_left (fun a p => map_set a p.1 p.2) ps acc = acc ++ ps.
Proof.
  revert acc. induction ps as [|[k v] ps IH]; intros acc Hnd; simpl.
  - by rewrite app_nil_r.
  - rewrite map_set_fresh.
    + rewrite IH; rewrite <- app_assoc; done.
    + rewrite fmap_app in Hnd. apply NoDup_app in Hnd as (_ & Hd & _).
      intros Hin. apply (Hd k Hin). simpl. by left.
Qed.

Lemma prop_set_fresh {A} (ps : list (string * A)) k v :
  k ∉ ps.*1 -> prop_set ps k v = ps ++ [(k, v)].
Proof.
  induction ps as [|[k' v'] ps IH]; intros Hk; simpl; [done|].
  rewrite fmap_cons in Hk. apply not_elem_of_cons in Hk as [Hne Hk].
  rewrite decide_False by done. by rewrite IH.
Qed.

Lemma fold_prop_set_nodup {A} (ps acc : list (string * A)) :
  NoDup ((acc ++ ps).*1) ->
  fold_left (fun a kv => prop_set a kv.1 kv.2) ps acc = acc ++ ps.
Proof.
  revert acc. induction ps as [|[k v] ps IH]; intros acc Hnd; simpl.
  - by rewrite app_nil_r.
  - rewrite prop_set_fresh.
    + rewrite IH; rewrite <- app_assoc; done.
    + rewrite fmap_app in Hnd. apply NoDup_app in Hnd as (_ & Hd & _).
      intros Hin. apply (Hd k Hin). simpl. by left.
Qed.

Lemma fromEntries_nodup {A} (es : list (string * A)) :
  NoDup es.*1 -> fromEntries es = es.
Proof. intros H. unfold fromEntries. by rewrite fold_prop_set_nodup. Qed.

Lemma reify_extends n m m' v t :
  extends m m' -> reify n (heap m) v = Some t -> reify n (heap m') v = Some t.
Proof. intros [h' ->]. apply reify_extend. Qed.

Lemma finite_plain_ext n h h' x : finite_plain n h x -> finite_plain n (h ++ h') x.
Proof. intros (t & Hr & Hn). exists t. split; [by apply reify_extend|done]. Qed.

Lemma copy_of_ext n b h h' x y : copy_of n b h x y -> copy_of n b (h ++ h') x y.
Proof.
  intros (Hf & Hb & Hfn & t & Hr & Hc). split_and!; [done|by apply bounded_extend| |].
  - rewrite !is_function_extend; [done|by eapply reify_bounded|done].
  - exists t. split; [by apply reify_extend|]. intros Hcl.
    destruct (Hc Hcl). split; [by apply reify_extend|by apply isolated_extend].
Qed.

Lemma copy_of_extends n b m m' x y :
  extends m m' -> copy_of n b (heap m) x y -> copy_of n b (heap m') x y.
Proof. intros [h' ->]. apply copy_of_ext. Qed.

Lemma copy_of_weaken n b b' h x y : b' <= b -> copy_of n b h x y -> copy_of n b' h x y.
Proof.
  intros Hle (Hf & Hb & Hfn & t & Hr & Hc). split_and!; [|done|done|].
  - destruct Hf as [?|(a & ? & ?)]; [by left|right]. exists a. split; [done|lia].
  - exists t. split; [done|]. intros Hcl. destruct (Hc Hcl).
    split; [done|by eapply isolated_weaken].
Qed.

Lemma mapM_reify_plain k h items ts :
  mapM (reify k h) items = Some ts ->
  forallb no_custom ts = true ->
  Forall (finite_plain k h) items.
Proof.
  rewrite mapM_Some. induction 1 as [|x t xs ts' Hx _ IH]; simpl; [constructor|].
  intros [Ht Hts]%andb_true_iff. constructor; [by exists t|auto].
Qed.

Lemma copies_reify k b h xs ys ts :
  Forall2 (copy_of k b h) xs ys ->
  Forall2 (fun x t => reify k h x = Some t) xs ts ->
  forallb cloneable ts = true ->
  Forall2 (fun y t => reify k h y = Some t) ys ts /\
  forallb (isolated k h b) ys = true.
Proof.
  intros H. revert ts. induction H as [|x y xs ys Hxy _ IH]; intros ts Hts Hcl.
  - inversion Hts. by split; [constructor|].
  - inversion Hts as [|? t ? ts' Hx Hxs]; subst. simpl in Hcl.
    apply andb_true_iff in Hcl as [Ht Hcl].
    destruct (IH _ Hxs Hcl) as [IH1 IH2].
    destruct Hxy as (_ & _ & _ & t' & Hr & Hc).
    assert (t' = t) by congruence. subst t'.
    destruct (Hc Ht) as [Hy Hi]. split; [by constructor|]. simpl. by rewrite Hi.
Qed.

Lemma mapM_entries_plain k h es ts :
  mapM (reify_entry (reify k h)) es = Some ts ->
  forallb (fun kv => no_custom (fst kv) && no_custom (snd kv)) ts = true ->
  Forall (fun kv => finite_plain k h kv.1 /\ finite_plain k h kv.2) es.
Proof.
  rewrite mapM_Some. induction 1 as [|[x1 x2] [t1 t2] xs ts' Hx _ IH]; simpl; [constructor|].
  intros [[Ht1 Ht2]%andb_true_iff Hts]%andb_true_iff. constructor; [|auto].
  unfold reify_entry in Hx. simpl in *.
  destruct (reify k h x1) as [t1'|] eqn:E1; [|done].
  destruct (reify k h x2) as [t2'|] eqn:E2; [|done].
  simpl in Hx. injection Hx as -> ->. split; by eexists.
Qed.

Lemma mapM_props_plain k h ps ts :
  mapM (reify_prop (reify k h)) ps = Some ts ->
  forallb (fun kv => no_custom (snd kv)) ts = true ->
  Forall (fun kv => finite_plain k h kv.2) ps.
Proof.
  rewrite mapM_Some. induction 1 as [|[x1 x2] [t1 t2] xs ts' Hx _ IH]; simpl; [constructor|].
  intros [Ht2 Hts]%andb_true_iff. constructor; [|auto].
  unfold reify_prop in Hx. simpl in *.
  destruct (reify k h x2) as [t2'|] eqn:E2; [|done].
  simpl in Hx. injection Hx as -> ->. by eexists.
Qed.

Lemma copies_reify_entries k b h es ps ts :
  Forall2 (fun kv p => copy_of k b h kv.1 p.1 /\ copy_of k b h kv.2 p.2) es ps ->
  Forall2 (fun kv t => reify_entry (reify k h) kv = Some t) es ts ->
  forallb (fun kv => cloneable (fst kv) && cloneable (snd kv)) ts = true ->
  Forall2 (fun p t => reify_entry (reify k h) p = Some t) ps ts /\
  forallb (fun p => isolated k h b p.1 && isolated k h b p.2) ps = true.
Proof.
  intros H. revert ts. induction H as [|[x1 x2] [y1 y2] xs ys [H1 H2] _ IH]; intros ts Hts Hcl.
  - inversion Hts. by split; [constructor|].
  - inversion Hts as [|? [t1 t2] ? ts' Hx Hxs]; subst. simpl in *.
    apply andb_true_iff in Hcl as [[Ht1 Ht2]%andb_true_iff Hcl].
    destruct (IH _ Hxs Hcl) as [IH1 IH2].
    destruct H1 as (_ & _ & _ & t1' & Hr1 & Hc1).
    destruct H2 as (_ & _ & _ & t2' & Hr2 & Hc2).
    unfold reify_entry in Hx. simpl in Hx. rewrite Hr1, Hr2 in Hx. simpl in Hx.
    injection Hx as -> ->.
    destruct (Hc1 Ht1) as [Hy1 Hi1]. destruct (Hc2 Ht2) as [Hy2 Hi2].
    split.
    + constructor; [|done]. unfold reify_entry. simpl. by rewrite Hy1, Hy2.
    + by rewrite Hi1, Hi2.
Qed.

Lemma copies_reify_props k b h props es ts :
  Forall2 (fun kv p => p.1 = kv.1 /\ copy_of k b h kv.2 p.2) props es ->
  Forall2 (fun kv t => reify_prop (reify k h) kv = Some t) props ts ->
  forallb (fun kv => cloneable (snd kv)) ts = true ->
  Forall2 (fun p t => reify_prop (reify k h) p = Some t) es ts /\
  forallb (fun p => isolated k h b p.2) es = true.
Proof.
  intros H. revert ts. induction H as [|[x1 x2] [y1 y2] xs ys [H1 H2] _ IH]; intros ts Hts Hcl.
  - inversion Hts. by split; [constructor|].
  - inversion Hts as [|? [t1 t2] ? ts' Hx Hxs]; subst. simpl in *. subst y1.
    apply andb_true_iff in Hcl as [Ht2 Hcl].
    destruct (IH _ Hxs Hcl) as [IH1 IH2].
    destruct H2 as (_ & _ & _ & t2' & Hr2 & Hc2).
    unfold reify_prop in Hx. simpl in Hx. rewrite Hr2 in Hx. simpl in Hx.
    injection Hx as -> ->.
    destruct (Hc2 Ht2) as [Hy2 Hi2].
    split.
    + constructor; [|done]. unfold reify_prop. simpl. by rewrite Hy2.
    + by rewrite Hi2.
Qed.

Lemma props_same_keys k b h (props es : list (string * jsvalue)) :
  Forall2 (fun kv p => p.1 = kv.1 /\ copy_of k b h kv.2 p.2) props es ->
  es.*1 = props.*1.
Proof.
  induction 1 as [|[] [] ? ? [? _] _ IH]; simpl in *; [done|]. by f_equal.
Qed.

Lemma props_assoc k b h (props es : list (string * jsvalue)) key :
  Forall2 (fun kv p => p.1 = kv.1 /\ copy_of k b h kv.2 p.2) props es ->
  match assoc key props, assoc key es with
  | Some c, Some c' => copy_of k b h c c'
  | None, None => True
  | _, _ => False
  end.
Proof.
  induction 1 as [|[k1 x] [k2 y] ? ? [? Hc] _ IH]; simpl in *; [done|].
  subst k2. by destruct (decide (key = k1)).
Qed.

Lemma lookup_alloc (h : list object) o : (h ++ [o]) !! length h = Some o.
Proof. by rewrite list_lookup_middle. Qed.

Lemma is_function_alloc (h : list object) o :
  (forall f, o <> OFunction f) -> is_function (h ++ [o]) (VRef (length h)) = None.
Proof.
  intros Ho. simpl. rewrite lookup_alloc. destruct o; try done. by destruct (Ho f).
Qed.

Lemma is_function_old (h : list object) a o :
  h !! a = Some o -> (forall f, o <> OFunction f) -> is_function h (VRef a) = None.
Proof. intros Ha Ho. simpl. rewrite Ha. destruct o; try done. by destruct (Ho f). Qed.

Lemma reify_entry_extend k h h' p t :
  reify_entry (reify k h) p = Some t -> reify_entry (reify k (h ++ h')) p = Some t.
Proof.
  unfold reify_entry. destruct (reify k h p.1) as [t1|] eqn:H1; [|done].
  destruct (reify k h p.2) as [t2|] eqn:H2; [|done]. simpl.
  by rewrite (reify_extend _ _ _ _ _ H1), (reify_extend _ _ _ _ _ H2).
Qed.

Lemma reify_prop_extend k h h' p t :
  reify_prop (reify k h) p = Some t -> reify_prop (reify k (h ++ h')) p = Some t.
Proof.
  unfold reify_prop. destruct (reify k h p.2) as [t2|] eqn:H2; [|done]. simpl.
  by rewrite (reify_extend _ _ _ _ _ H2).
Qed.

Lemma plain_bounded k h x : finite_plain k h x -> bounded h x = true.
Proof. intros (t & Hr & _). by eapply reify_bounded. Qed.

Lemma has_clone_false h p props :
  has_clone h p props = false -> is_function h (get_property p props "clone") = None.
Proof.
  unfold has_clone. intros H%bool_decide_eq_false.
  destruct (is_function _ _); [|done]. destruct H. by eexists.
Qed.

Lemma copy_clone_property k b m m1 (props es : list (string * jsvalue)) o' :
  extends m m1 ->
  Forall2 (fun kv p => p.1 = kv.1 /\ copy_of k b (heap m1) kv.2 p.2) props es ->
  bounded (heap m) (get_property ProtoObject props "clone") = true ->
  is_function (heap m) (get_property ProtoObject props "clone") = None ->
  bounded (heap m1 ++ [o']) (get_property ProtoObject es "clone") = true /\
  has_clone (heap m1 ++ [o']) ProtoObject es = false.
Proof.
  intros [h' ->] HQ Hb Hfn. simpl in *. unfold has_clone, get_property in *.
  pose proof (props_assoc _ _ _ _ _ "clone" HQ) as Hassoc.
  destruct (assoc "clone" props) as [c|], (assoc "clone" es) as [c'|]; try done.
  destruct Hassoc as (_ & Hb' & Hfn' & _).
  split; [by apply bounded_extend|].
  apply bool_decide_eq_false. rewrite is_function_extend by done.
  rewrite Hfn', is_function_extend by done. rewrite Hfn. by intros [? ?].
Qed.

Section CloneSpec.
Variable call : fn -> jsvalue -> list jsvalue -> M mem jsvalue.

Lemma copy_of_key k b h x y :
  copy_of k b h x y -> fresh_or_same b x y /\ bounded h y = true.
Proof. by intros (? & ? & _). Qed.

(** The copy that is allocated for a container. *)
Lemma copy_allocated k m m1 a o o' t :
  heap m !! a = Some o ->
  (forall f, o <> OFunction f) -> (forall f, o' <> OFunction f) ->
  extends m m1 ->
  reify (S k) (heap m) (VRef a) = Some t ->
  (cloneable t = true ->
   reify (S k) (heap m1 ++ [o']) (VRef (length (heap m1))) = Some t /\
   isolated (S k) (heap m1 ++ [o']) (length (heap m)) (VRef (length (heap m1))) = true) ->
  exists y m',
    alloc o' m1 = Ret y m' /\ extends m m' /\
    copy_of (S k) (length (heap m)) (heap m') (VRef a) y.
Proof.
  intros Ha Ho Ho' Hext Hr Hc.
  exists (VRef (length (heap m1))), (Mem (heap m1 ++ [o']) (console m1)).
  assert (Hext' : extends m (Mem (heap m1 ++ [o']) (console m1))).
  { eapply extends_trans; [exact Hext|]. by exists [o']. }
  split_and!; [done|done|]. simpl. split_and!.
  - right. eexists. split; [done|]. by apply extends_length.
  - apply bool_decide_eq_true. rewrite length_app. simpl. lia.
  - rewrite is_function_alloc by done. symmetry.
    destruct Hext' as [h' Heq]. injection Heq as Heq _. rewrite Heq.
    apply (is_function_old _ a o); [by apply lookup_app_l_Some|done].
  - exists t. split; [|done]. by apply (reify_extends _ _ _ _ _ Hext').
Qed.

Lemma clone_spec k x m :
  finite_plain k (heap m) x ->
  exists y m',
    safeClone call k x m = Ret y m' /\ extends m m' /\
    copy_of k (length (heap m)) (heap m') x y.
Proof.
  revert x m. induction k as [|k IH]; intros x m (t & Hr & Hnc); [done|].
  assert (Hprim : primitive x = true ->
            exists y m', safeClone call (S k) x m = Ret y m' /\ extends m m' /\
                         copy_of (S k) (length (heap m)) (heap m') x y).
  { intros Hp. exists x, m. destruct x; try done;
      (split_and!; [done|apply extends_refl|]);
      (split_and!; [by left|done|done|]); exists t; (split; [done|]);
      intros _; simpl in Hr; by injection Hr as <-. }
  destruct x as [| | | | | | |a]; try (by apply Hprim).
  clear Hprim. simpl in Hr.
  destruct (heap m !! a) as [o|] eqn:Ha; [|done].
  assert (Hsame : isolated (S k) (heap m) (length (heap m)) (VRef a) = true ->
            safeClone call (S k) (VRef a) m = Ret (VRef a) m ->
            exists y m', safeClone call (S k) (VRef a) m = Ret y m' /\ extends m m' /\
                         copy_of (S k) (length (heap m)) (heap m') (VRef a) y).
  { intros Hiso Hcl. exists (VRef a), m.
    split_and!; [done|apply extends_refl|].
    assert (Hr' : reify (S k) (heap m) (VRef a) = Some t) by (simpl; by rewrite Ha).
    split_and!; [by left|by eapply reify_bounded|done|].
    exists t. by split. }
  destruct o as [items|entries|items|name message stack fields|time|source flags li
                 |bytes|f|p|p props].
  - (* arrays *)
    apply fmap_Some in Hr as (ts & Hm & ->). simpl in Hnc.
    destruct (traverse_spec (safeClone call k) (finite_plain k) (copy_of k) id id
                (finite_plain_ext k) (fun b => copy_of_ext k b)
                (fun b b' h x y => copy_of_weaken k b b' h x y)
                (copy_of_key k) IH items m (mapM_reify_plain _ _ _ _ Hm Hnc))
      as (ys & m1 & Htr & Hext & HQ & _).
    simpl. rewrite Ha. unfold bind. rewrite Htr.
    eapply (copy_allocated k m m1 a (OArray items) (OArray ys)); try done.
    { simpl. rewrite Ha, Hm. done. }
    simpl. intros Hcl. rewrite lookup_alloc.
    apply mapM_Some in Hm.
    assert (Hm1 : Forall2 (fun x t => reify k (heap m1) x = Some t) items ts).
    { eapply Forall2_impl; [exact Hm|]. intros ? ?. by apply reify_extends. }
    destruct (copies_reify _ _ _ _ _ _ HQ Hm1 Hcl) as [Hys Hiso].
    split.
    + apply fmap_Some. exists ts. split; [|done]. apply mapM_Some.
      eapply Forall2_impl; [exact Hys|]. intros ? ?. apply reify_extend.
    + apply andb_true_iff. split.
      * apply bool_decide_eq_true. by apply extends_length.
      * revert Hiso. apply forallb_impl. intros ?. apply isolated_extend.
  - (* maps *)
    case_decide as Hnd; [|done].
    apply fmap_Some in Hr as (ts & Hm & ->). simpl in Hnc.
    set (g := fun kv : jsvalue * jsvalue =>
                k' <- safeClone call k kv.1 ;; x <- safeClone call k kv.2 ;; ret (k', x)).
    set (P := fun h (kv : jsvalue * jsvalue) =>
                finite_plain k h kv.1 /\ finite_plain k h kv.2).
    set (Q := fun b h (kv p : jsvalue * jsvalue) =>
                copy_of k b h kv.1 p.1 /\ copy_of k b h kv.2 p.2).
    assert (Hg : forall kv m0, P (heap m0) kv ->
              exists p m', g kv m0 = Ret p m' /\ extends m0 m' /\
                           Q (length (heap m0)) (heap m') kv p).
    { intros [x1 x2] m0 [H1 H2]. simpl in *.
      destruct (IH x1 m0 H1) as (y1 & m1 & Hc1 & He1 & Hq1).
      assert (H2' : finite_plain k (heap m1) x2).
      { destruct He1 as [h' ->]. by apply finite_plain_ext. }
      destruct (IH x2 m1 H2') as (y2 & m2 & Hc2 & He2 & Hq2).
      exists (y1, y2), m2. unfold g, bind. simpl. rewrite Hc1, Hc2.
      split; [done|]. split; [by eapply extends_trans|]. split; simpl.
      - by eapply copy_of_extends.
      - eapply copy_of_weaken; [|exact Hq2]. by apply extends_length. }
    assert (HP : Forall (P (heap m)) entries) by (by eapply mapM_entries_plain).
    destruct (traverse_spec g P Q fst fst) with (xs := entries) (m := m)
      as (ps & m1 & Htr & Hext & HQ & Hnodup); try done.
    { intros h h' kv [? ?]. split; by apply finite_plain_ext. }
    { intros b h h' kv p [? ?]. split; by apply copy_of_ext. }
    { intros b b' h kv p ? [? ?]. split; by eapply copy_of_weaken. }
    { intros b h kv p [? _]. by eapply copy_of_key. }
    assert (Hndps : NoDup ps.*1).
    { apply Hnodup; [done|]. eapply Forall_impl; [exact HP|].
      intros kv [? _]. by eapply plain_bounded. }
    simpl. rewrite Ha. unfold bind at 1. rewrite foldM_map_set. fold g.
    unfold bind. rewrite Htr. unfold ret. rewrite fold_map_set_nodup by done. simpl.
    eapply (copy_allocated k m m1 a (OMap entries) (OMap ps)); try done.
    { simpl. rewrite Ha, decide_True by done. by rewrite Hm. }
    simpl. intros Hcl. rewrite lookup_alloc, decide_True by done.
    apply mapM_Some in Hm.
    assert (Hm1 : Forall2 (fun x t => reify_entry (reify k (heap m1)) x = Some t) entries ts).
    { eapply Forall2_impl; [exact Hm|]. intros ? ?.
      destruct Hext as [h' ->]. apply reify_entry_extend. }
    destruct (copies_reify_entries _ _ _ _ _ _ HQ Hm1 Hcl) as [Hys Hiso].
    split.
    + apply fmap_Some. exists ts. split; [|done]. apply mapM_Some.
      eapply Forall2_impl; [exact Hys|]. intros ? ?. apply reify_entry_extend.
    + apply andb_true_iff. split.
      * apply bool_decide_eq_true. by apply extends_length.
      * revert Hiso. apply forallb_impl. intros [y1 y2]. simpl.
        rewrite !andb_true_iff. intros [? ?]. split; by apply isolated_extend.
  - (* sets *)
    case_decide as Hnd; [|done].
    apply fmap_Some in Hr as (ts & Hm & ->). simpl in Hnc.
    pose proof (mapM_reify_plain _ _ _ _ Hm Hnc) as HP.
    destruct (traverse_spec (safeClone call k) (finite_plain k) (copy_of k) id id
                (finite_plain_ext k) (fun b => copy_of_ext k b)
                (fun b b' h x y => copy_of_weaken k b b' h x y)
                (copy_of_key k) IH items m HP)
      as (ys & m1 & Htr & Hext & HQ & Hnodup).
    assert (Hndys : NoDup ys).
    { rewrite <- (list_fmap_id ys). apply Hnodup; [by rewrite list_fmap_id|].
      eapply Forall_impl; [exact HP|]. intros x ?. by eapply plain_bounded. }
    simpl. rewrite Ha. unfold bind at 1. rewrite foldM_set_add.
    unfold bind. rewrite Htr. unfold ret. rewrite fold_set_add_nodup by done. simpl.
    eapply (copy_allocated k m m1 a (OSet items) (OSet ys)); try done.
    { simpl. rewrite Ha, decide_True by done. by rewrite Hm. }
    simpl. intros Hcl. rewrite lookup_alloc, decide_True by done.
    apply mapM_Some in Hm.
    assert (Hm1 : Forall2 (fun x t => reify k (heap m1) x = Some t) items ts).
    { eapply Forall2_impl; [exact Hm|]. intros ? ?. by apply reify_extends. }
    destruct (copies_reify _ _ _ _ _ _ HQ Hm1 Hcl) as [Hys Hiso].
    split.
    + apply fmap_Some. exists ts. split; [|done]. apply mapM_Some.
      eapply Forall2_impl; [exact Hys|]. intros ? ?. apply reify_extend.
    + apply andb_true_iff. split.
      * apply bool_decide_eq_true. by apply extends_length.
      * revert Hiso. apply forallb_impl. intros ?. apply isolated_extend.
  - (* errors *)
    injection Hr as <-. simpl. rewrite Ha.
    eapply (copy_allocated k m m a); try done; [apply extends_refl|by simpl; rewrite Ha|].
    simpl. rewrite lookup_alloc.
    intros [[->%bool_decide_eq_true [s ->]%bool_decide_eq_true]%andb_true_iff
              ->%bool_decide_eq_true]%andb_true_iff.
    split; [done|]. by apply bool_decide_eq_true.
  - (* dates *)
    injection Hr as <-. simpl. rewrite Ha.
    eapply (copy_allocated k m m a); try done; [apply extends_refl|by simpl; rewrite Ha|].
    simpl. rewrite lookup_alloc. intros _.
    split; [done|]. by apply bool_decide_eq_true.
  - (* pattern matchers *)
    injection Hr as <-. simpl. rewrite Ha.
    eapply (copy_allocated k m m a); try done; [apply extends_refl|by simpl; rewrite Ha|].
    simpl. rewrite lookup_alloc. intros ->%bool_decide_eq_true.
    split; [done|]. by apply bool_decide_eq_true.
  - (* buffers *)
    injection Hr as <-. simpl. rewrite Ha.
    eapply (copy_allocated k m m a); try done; [apply extends_refl|by simpl; rewrite Ha|].
    simpl. rewrite lookup_alloc. intros _.
    split; [done|]. by apply bool_decide_eq_true.
  - (* functions *)
    injection Hr as <-. apply Hsame; by simpl; rewrite Ha.
  - (* promises *)
    injection Hr as <-. apply Hsame; by simpl; rewrite Ha.
  - (* generic objects *)
    destruct (bounded (heap m) (get_property p props "clone")) eqn:Hb; [|done].
    simpl in Hr.
    destruct (has_clone (heap m) p props) eqn:Hhc; [by injection Hr as <-|].
    pose proof (has_clone_false _ _ _ Hhc) as Hfn.
    destruct (isLikelyClassInstance (ORecord p props)) eqn:Hinst.
    { injection Hr as <-. apply Hsame; simpl.
      - by rewrite Ha, Hb, Hhc, Hinst.
      - by rewrite Ha, Hfn, Hinst. }
    case_decide as Hnd; [|done].
    apply fmap_Some in Hr as (ts & Hm & ->). simpl in Hnc.
    set (g := fun kv : string * jsvalue => x <- safeClone call k kv.2 ;; ret (kv.1, x)).
    set (P := fun h (kv : string * jsvalue) => finite_plain k h kv.2).
    set (Q := fun b h (kv p : string * jsvalue) =>
                p.1 = kv.1 /\ copy_of k b h kv.2 p.2).
    assert (Hg : forall kv m0, P (heap m0) kv ->
              exists p m', g kv m0 = Ret p m' /\ extends m0 m' /\
                           Q (length (heap m0)) (heap m') kv p).
    { intros [x1 x2] m0 H2. simpl in *.
      destruct (IH x2 m0 H2) as (y2 & m2 & Hc2 & He2 & Hq2).
      exists (x1, y2), m2. unfold g, bind. simpl. rewrite Hc2. by split_and!. }
    assert (HP : Forall (P (heap m)) props) by (by eapply mapM_props_plain).
    destruct (traverse_spec g P Q snd snd) with (xs := props) (m := m)
      as (es & m1 & Htr & Hext & HQ & _); try done.
    { intros h h' kv ?. by apply finite_plain_ext. }
    { intros b h h' kv q [? ?]. split; [done|by apply copy_of_ext]. }
    { intros b b' h kv q ? [? ?]. split; [done|by eapply copy_of_weaken]. }
    { intros b h kv q [_ ?]. by eapply copy_of_key. }
    assert (Hkeys : es.*1 = props.*1) by (by eapply props_same_keys).
    assert (Hndes : NoDup es.*1) by (by rewrite Hkeys).
    simpl. rewrite Ha, Hfn, Hinst. unfold bind at 1.
    change (traverse _ props m) with (traverse g props m). rewrite Htr.
    rewrite fromEntries_nodup by done.
    eapply (copy_allocated k m m1 a (ORecord p props) (ORecord ProtoObject es)); try done.
    { simpl. rewrite Ha, Hb. simpl. rewrite Hhc, Hinst, decide_True by done. by rewrite Hm. }
    intros [->%bool_decide_eq_true Hcl]%andb_true_iff.
    destruct (copy_clone_property k _ m m1 props es (ORecord ProtoObject es) Hext HQ Hb Hfn)
      as [Hb' Hhc'].
    apply mapM_Some in Hm.
    assert (Hm1 : Forall2 (fun x t => reify_prop (reify k (heap m1)) x = Some t) props ts).
    { eapply Forall2_impl; [exact Hm|]. intros ? ?.
      destruct Hext as [h' ->]. apply reify_prop_extend. }
    destruct (copies_reify_props _ _ _ _ _ _ HQ Hm1 Hcl) as [Hys Hiso].
    simpl. rewrite lookup_alloc, Hb'. simpl. rewrite Hhc'.
    change (isLikelyClassInstance (ORecord ProtoObject es)) with false. cbv iota.
    rewrite decide_True by done.
    split.
    + apply fmap_Some. exists ts. split; [|done]. apply mapM_Some.
      eapply Forall2_impl; [exact Hys|]. intros ? ?. apply reify_prop_extend.
    + apply andb_true_iff. split.
      * apply bool_decide_eq_true. by apply extends_length.
      * revert Hiso. apply forallb_impl. intros [y1 y2]. simpl. apply isolated_extend.
Qed.
End CloneSpec.

Lemma cloneable_no_custom : forall t, cloneable t = true -> no_custom t = true.
Proof.
  fix IH 1. intros [v|a|a|items|entries|items| | | | |p props]; simpl; try done.
  - revert items. fix IHl 1. intros [|x xs]; simpl; [done|].
    intros [Hx Hxs]%andb_true_iff. apply andb_true_iff. split; [by apply IH|by apply IHl].
  - revert entries. fix IHl 1. intros [|[x1 x2] xs]; simpl; [done|].
    intros [[H1 H2]%andb_true_iff Hxs]%andb_true_iff.
    rewrite !andb_true_iff. split_and!; [by apply IH|by apply IH|by apply IHl].
  - revert items. fix IHl 1. intros [|x xs]; simpl; [done|].
    intros [Hx Hxs]%andb_true_iff. apply andb_true_iff. split; [by apply IH|by apply IHl].
  - intros [_ H]%andb_true_iff. revert props H. fix IHl 1. intros [|[x1 x2] xs]; simpl; [done|].
    intros [H2 Hxs]%andb_true_iff.
    rewrite !andb_true_iff. split_and!; [by apply IH|by apply IHl].
Qed.


Lemma isolated_old n h b a t :
  isolated n h b (VRef a) = true -> a < b ->
  reify n h (VRef a) = Some t -> cloneable t = true -> t = TShared a.
Proof.
  destruct n; [done|]. simpl. intros Hiso Hlt.
  destruct (h !! a) as [o|]; [|done].
  assert (Hnb : bool_decide (b <= a) = false) by (apply bool_decide_eq_false; lia).
  destruct o; rewrite ?Hnb in Hiso; try done; try (by intros [= <-]).
  destruct (negb _); [done|]. destruct (has_clone _ _ _); [by intros [= <-]|].
  destruct (isLikelyClassInstance _); [by intros [= <-]|done].
Qed.

End Copies.

(** ** Termination of [safeClone] *)



(** ** Reading back what was written *)

Lemma heap_grows_refl m : heap_grows m m.
Proof. exists []. by rewrite app_nil_r. Qed.

Lemma heap_grows_trans m1 m2 m3 : heap_grows m1 m2 -> heap_grows m2 m3 -> heap_grows m1 m3.
Proof. intros [h1 H1] [h2 H2]. exists (h1 ++ h2). by rewrite H2, H1, app_assoc. Qed.

Lemma allocates_only_total call : allocates_only call -> total call.
Proof.
  intros H f this args m Hd. specialize (H f this args m). by rewrite Hd in H.
Qed.

Section Grow.

Variable call : fn -> jsvalue -> list jsvalue -> M mem jsvalue.
Variable depth : nat.
Variable n : nat.
Hypothesis Hcall : allocates_only call.

#[local] Abbreviation run := (Whispr.run_listener call depth (S n)).

Lemma lift_call_grows f v w :
  match lift (call f VUndefined [v]) w with
  | Ret _ w' | Throw _ w' => heap_grows (memory w) (memory w')
  | Diverge => False
  end.
Proof.
  unfold lift. pose proof (Hcall f VUndefined [v] (memory w)) as H.
  by destruct (call f VUndefined [v] (memory w)).
Qed.

Lemma run_local_grows l v w :
  local l = true ->
  match run l v w with
  | Ret _ w' | Throw _ w' => heap_grows (memory w) (memory w')
  | Diverge => False
  end.
Proof.
  intros Hl. destruct l as [f|cb p|]; [| |done]; simpl.
  - apply lift_call_grows.
  - destruct (truthy v); [|apply heap_grows_refl]. unfold bind.
    destruct cb as [f|]; simpl.
    + pose proof (lift_call_grows f v w) as H.
      destruct (lift _ w) as [r w'|e w'|]; [|done..].
      destruct (is_nullish r); simpl; [done|].
      unfold Whispr.resolve. by destruct (promises w' !! p) as [[?|]|].
    + unfold ret. destruct (is_nullish v); simpl; [apply heap_grows_refl|].
      unfold Whispr.resolve.
      destruct (promises w !! p) as [[?|]|]; apply heap_grows_refl.
Qed.

#[local] Arguments Whispr.run_listener : simpl never.

Lemma notify_local_grows c l w w' :
  local l = true ->
  Observable.notify run c l w = Ret tt w' ->
  heap_grows (memory w) (memory w').
Proof.
  intros Hl. unfold Observable.notify.
  destruct (cell c w) as [o|]; [|intros [= <-]; apply heap_grows_refl].
  set (w0 := with_delivered _ w).
  pose proof (run_local_grows l (_data o) w0 Hl) as H.
  destruct (run l (_data o) w0) as [r w1|e w1|]; [| |done].
  - destruct (is_promise w1 r); intros [= <-]; [done|].
    unfold Observable.notify_result. by case_decide.
  - by intros [= <-].
Qed.

Lemma dispatch_local_grows c ls :
  Forall (fun l => local l = true) ls ->
  forall w w', dispatch run c ls w = Ret tt w' -> heap_grows (memory w) (memory w').
Proof.
  induction 1 as [|l ls Hl _ IH]; intros w w'; unfold dispatch in *; simpl.
  - intros [= <-]. apply heap_grows_refl.
  - unfold bind.
    destruct (Observable.notify run c l w) as [[] w1|e w1|] eqn:Hn; [|done..].
    intros Hd. eapply heap_grows_trans; [by eapply notify_local_grows|by apply IH].
Qed.

End Grow.





Lemma quiet_allocates_only : allocates_only Scenario.quiet.
Proof. intros f this args m. apply heap_grows_refl. Qed.


(** The same on a run: the copy read back is at address 6, the array in
    it at address 5, and the instance of the class is still address 2. *)
Example write_then_read_nested :
  (_ <- Observable.set Scenario.quiet 4 (Whispr.run_listener Scenario.quiet 4 1) 0 (VRef 0) ;;
   Observable.value Scenario.quiet 4 0)%js Scenario.nested_world
  = Ret (VRef 6)
      (World (Mem (Scenario.nested
                   ++ [OArray [VRef 2; VString "x"];
                       ORecord ProtoObject [("a", VNumber (Num 1)); ("nested", VRef 3)];
                       OArray [VRef 2; VString "x"];
                       ORecord ProtoObject [("a", VNumber (Num 1)); ("nested", VRef 5)]])
                  [])
             [MkWhispr (MkObservable (VRef 4) [LUser Scenario.idle]) true] [] []
             [(0, LUser Scenario.idle, VRef 4)]).
Proof. reflexivity. Qed.

Lemma with_memory_id w : with_memory (memory w) w = w.
Proof. by destruct w. Qed.

Lemma safeClone_primitive call k v m :
  primitive v = true -> safeClone call (S k) v m = Ret v m.
Proof. by destruct v. Qed.

Lemma bind_Ret {S A B} (c : M S A) (k : A -> M S B) s x s1 :
  c s = Ret x s1 -> bind c k s = k x s1.
Proof. intros H. unfold bind. by rewrite H. Qed.

Lemma traverse_cons_Ret {S A B} (g : A -> M S B) x xs s y s1 ys s2 :
  g x s = Ret y s1 -> traverse g xs s1 = Ret ys s2 ->
  traverse g (x :: xs) s = Ret (y :: ys) s2.
Proof. intros H1 H2. simpl. unfold bind. by rewrite H1, H2. Qed.

(** ** Derived handles *)

Section Derive.

Variable call : fn -> jsvalue -> list jsvalue -> M mem jsvalue.
Variable depth : nat.

Lemma value_primitive c w p ls al :
  handles w !! c = Some (MkWhispr (MkObservable p ls) al) ->
  primitive p = true ->
  Whispr.value call (S depth) c w = Ret p w.
Proof.
  intros Hc Hp. unfold Whispr.value, Observable.value.
  rewrite (cell_lookup _ _ _ _ _ Hc). unfold lift. cbn [_data].
  by rewrite safeClone_primitive, with_memory_id.
Qed.

Lemma traverse_values (input : list (string * nat)) ps w :
  Forall2 (fun kv p => primitive p = true /\
             exists ls al, handles w !! kv.2 = Some (MkWhispr (MkObservable p ls) al))
          input ps ->
  traverse (fun kv => x <- Whispr.value call (S depth) kv.2 ;; ret (kv.1, x)) input w
  = Ret (zip input.*1 ps) w.
Proof.
  induction 1 as [|[k s] p input ps (Hp & ls & al & Hs) _ IH]; [done|].
  rewrite fmap_cons. cbn [zip zip_with]. eapply traverse_cons_Ret; [|exact IH].
  cbn [fst snd]. by rewrite (bind_Ret _ _ _ _ _ (value_primitive _ _ _ _ _ Hs Hp)).
Qed.

Lemma getValue_reads_current (input : list (string * nat)) f G ps w :
  pure_combiner call f G ->
  NoDup input.*1 ->
  Forall2 (fun kv p => primitive p = true /\
             exists ls al, handles w !! kv.2 = Some (MkWhispr (MkObservable p ls) al))
          input ps ->
  Whispr.getValue call (S depth) input (CUser f) w
  = Ret (G (zip input.*1 ps))
        (with_memory (Mem (heap (memory w) ++ [ORecord ProtoObject (zip input.*1 ps)])
                          (console (memory w))) w).
Proof.
  intros [HG _] Hnd Hin. unfold Whispr.getValue.
  rewrite (bind_Ret _ _ _ _ _ (traverse_values _ _ _ Hin)).
  assert (Hkeys : (zip input.*1 ps).*1 = input.*1).
  { apply fst_zip. rewrite length_fmap. by rewrite (Forall2_length _ _ _ Hin). }
  rewrite fromEntries_nodup by (by rewrite Hkeys).
  unfold bind, lift, alloc. simpl. unfold lift.
  rewrite (HG (length (heap (memory w))) _ (zip input.*1 ps)); [done|].
  simpl. by rewrite list_lookup_middle.
Qed.

End Derive.

Section Recombine.

Variable call : fn -> jsvalue -> list jsvalue -> M mem jsvalue.
Variable depth : nat.
Variable n : nat.
Hypothesis Htotal : total call.

Variable input : list (string * nat).
Variable f : fn.
Variable G : list (string * jsvalue) -> jsvalue.
Variable out : nat.
Hypothesis HG : pure_combiner call f G.
Hypothesis Hndk : NoDup input.*1.

#[local] Abbreviation run := (Whispr.run_listener call (S depth) (S (S n))).
#[local] Arguments Whispr.run_listener : simpl never.

#[local] Abbreviation hold := (sources_hold input).


Variable j : nat.
Variable s : nat.
Variable v' : jsvalue.
Variable ps : list jsvalue.
Hypothesis Hsout : s <> out.

#[local] Abbreviation L := (LFrom input (CUser f) out j).




End Recombine.


Lemma sum_is_pure : pure_combiner Scenario.user Scenario.sum Scenario.sum_of.
Proof.
  split.
  - intros a m props Ha. unfold Scenario.user, Scenario.sum, Scenario.sum_of, get. simpl.
    rewrite Ha. unfold get_property.
    by destruct (assoc "a" props), (assoc "b" props).
  - intros props. unfold Scenario.sum_of, Scenario.add. by repeat case_match.
Qed.



(** The two writes on a run: a write to [a] alone recombines with the
    value [b] holds, the write to [b] that follows recombines with the
    new value of [a], and each write notifies the listener of its source
    once. *)
Example two_writes_two_recombinations :
  match Scenario.derive_sum_writes Scenario.empty with
  | Ret r w =>
    r = (VNumber (Num 12), VNumber (Num 22)) /\
    delivered w
    = [(0, LFrom [("a", 0); ("b", 1)] (CUser Scenario.sum) 2 0, VNumber (Num 1));
       (1, LFrom [("a", 0); ("b", 1)] (CUser Scenario.sum) 2 1, VNumber (Num 10));
       (0, LFrom [("a", 0); ("b", 1)] (CUser Scenario.sum) 2 0, VNumber (Num 2));
       (1, LFrom [("a", 0); ("b", 1)] (CUser Scenario.sum) 2 1, VNumber (Num 20))]
  | _ => False
  end.
Proof. vm_compute. split; reflexivity. Qed.

(** * Further properties

    Properties of the functions that the sections above leave out, or
    cover only in part: what [safeClone] returns, [create] and the
    getter [value], [subscribe] and the function it returns, listeners
    that return a promise, [wait] and [load], the handles derived by
    [from], [transform] and [consolidate], and the map of handles. *)

#[local] Arguments Whispr.run_listener : simpl never.

(** ** What [safeClone] returns *)

(** X1.  On a value that is finite and of the kinds that [safeClone]
    reproduces, [safeClone] returns a value with the same content as its
    argument, which is left as it was; it adds objects at the end of the
    heap and writes nothing to the console; every object of the result
    that is not shared by identity is a new one, and the result is an
    address of the heap it started from only when the whole value is one
    that is shared. *)
Theorem safeClone_makes_a_deep_copy
    (call : fn -> jsvalue -> list jsvalue -> M mem jsvalue) (n : nat)
    (m : mem) (v : jsvalue) (t : tree) :
  reify n (heap m) v = Some t ->
  cloneable t = true ->
  exists v' h',
    safeClone call n v m = Ret v' (Mem (heap m ++ h') (console m)) /\
    reify n (heap m ++ h') v' = Some t /\
    reify n (heap m ++ h') v = Some t /\
    isolated n (heap m ++ h') (length (heap m)) v' = true /\
    (forall a, v' = VRef a -> a < length (heap m) -> t = TShared a).
Proof.
  intros Hr Hcl.
  destruct (clone_spec call n v m) as (v' & m' & Hc & [h' ->] & _ & _ & _ & t' & Hr' & Hcopy).
  { exists t. split; [done|by apply cloneable_no_custom]. }
  simpl in *. rewrite (reify_extend _ _ h' _ _ Hr) in Hr'. injection Hr' as <-.
  destruct (Hcopy Hcl) as [Hv' Hiso].
  exists v', h'. split_and!; [done|done|by apply reify_extend|done|].
  intros a -> Hlt. by eapply isolated_old.
Qed.

Lemma safeClone_makes_a_deep_copy_witness :
  exists v' h',
    safeClone Scenario.quiet 4 (VRef 0) (Mem Scenario.nested [])
    = Ret v' (Mem (heap (Mem Scenario.nested []) ++ h') (console (Mem Scenario.nested []))) /\
    reify 4 (heap (Mem Scenario.nested []) ++ h') v' = Some Scenario.nested_tree /\
    reify 4 (heap (Mem Scenario.nested []) ++ h') (VRef 0) = Some Scenario.nested_tree /\
    isolated 4 (heap (Mem Scenario.nested []) ++ h')
             (length (heap (Mem Scenario.nested []))) v' = true /\
    (forall a, v' = VRef a -> a < length (heap (Mem Scenario.nested [])) ->
               Scenario.nested_tree = TShared a).
Proof.
  apply (safeClone_makes_a_deep_copy Scenario.quiet 4 (Mem Scenario.nested []) (VRef 0)
           Scenario.nested_tree).
  - vm_compute. reflexivity.
  - reflexivity.
Defined.

Section Generic.

#[local] Arguments isLikelyClassInstance : simpl never.

(** X2.  A generic object that has no [clone] method and is not taken
    for an instance of a class is cloned into a new object whose
    prototype is [Object.prototype], whatever the prototype of the
    original: the own properties are copied under the same keys, in the
    same order, each value by [safeClone]; what the original inherits from
    its prototype is not copied, and the original is left as it was. *)
Theorem generic_object_is_cloned_as_a_plain_record
    (call : fn -> jsvalue -> list jsvalue -> M mem jsvalue) (k : nat)
    (m : mem) (a : addr) (p : proto) (props : list (string * jsvalue)) :
  heap m !! a = Some (ORecord p props) ->
  is_function (heap m) (get_property p props "clone") = None ->
  isLikelyClassInstance (ORecord p props) = false ->
  NoDup props.*1 ->
  Forall (fun kv => finite_plain k (heap m) kv.2) props ->
  exists a' es m',
    safeClone call (S k) (VRef a) m = Ret (VRef a') m' /\
    extends m m' /\
    length (heap m) <= a' /\
    heap m' !! a' = Some (ORecord ProtoObject es) /\
    heap m' !! a = Some (ORecord p props) /\
    es.*1 = props.*1 /\
    Forall2 (fun kv e => copy_of k (length (heap m)) (heap m') kv.2 e.2) props es.
Proof.
  intros Ha Hfn Hinst Hnd HP.
  set (g := fun kv : string * jsvalue => x <- safeClone call k kv.2 ;; ret (kv.1, x)).
  set (P := fun h (kv : string * jsvalue) => finite_plain k h kv.2).
  set (Q := fun b h (kv e : string * jsvalue) => e.1 = kv.1 /\ copy_of k b h kv.2 e.2).
  assert (Hg : forall kv m0, P (heap m0) kv ->
            exists e m', g kv m0 = Ret e m' /\ extends m0 m' /\
                         Q (length (heap m0)) (heap m') kv e).
  { intros [x1 x2] m0 H2. simpl in *.
    destruct (clone_spec call k x2 m0 H2) as (y2 & m2 & Hc2 & He2 & Hq2).
    exists (x1, y2), m2. unfold g, bind. simpl. rewrite Hc2. by split_and!. }
  destruct (traverse_spec g P Q snd snd) with (xs := props) (m := m)
    as (es & m1 & Htr & Hext & HQ & _); try done.
  { intros h h' kv ?. by apply finite_plain_ext. }
  { intros b h h' kv q [? ?]. split; [done|by apply copy_of_ext]. }
  { intros b b' h kv q ? [? ?]. split; [done|by eapply copy_of_weaken]. }
  { intros b h kv q [_ ?]. by eapply copy_of_key. }
  assert (Hkeys : es.*1 = props.*1) by (by eapply props_same_keys).
  assert (Hndes : NoDup es.*1) by (by rewrite Hkeys).
  exists (length (heap m1)), es, (Mem (heap m1 ++ [ORecord ProtoObject es]) (console m1)).
  split_and!.
  - cbn [safeClone]. rewrite Ha, Hfn, Hinst. unfold bind at 1.
    change (traverse _ props m) with (traverse g props m). rewrite Htr.
    by rewrite fromEntries_nodup.
  - eapply extends_trans; [exact Hext|]. by exists [ORecord ProtoObject es].
  - by apply extends_length.
  - simpl. by rewrite list_lookup_middle.
  - simpl. destruct Hext as [h' ->]. simpl. rewrite <- app_assoc.
    by apply lookup_app_l_Some.
  - done.
  - simpl. eapply Forall2_impl; [exact HQ|]. intros kv e [_ Hc]. by apply copy_of_ext.
Qed.

End Generic.

Lemma generic_object_is_cloned_as_a_plain_record_witness :
  exists a' es m',
    safeClone Scenario.user 2 (VRef 0) (Mem [Cases.bare] []) = Ret (VRef a') m' /\
    extends (Mem [Cases.bare] []) m' /\
    length (heap (Mem [Cases.bare] [])) <= a' /\
    heap m' !! a' = Some (ORecord ProtoObject es) /\
    heap m' !! 0 = Some (ORecord ProtoNull [("a", VNumber (Num 1))]) /\
    es.*1 = [("a", VNumber (Num 1))].*1 /\
    Forall2 (fun kv e => copy_of 1 (length (heap (Mem [Cases.bare] []))) (heap m') kv.2 e.2)
            [("a", VNumber (Num 1))] es.
Proof.
  apply (generic_object_is_cloned_as_a_plain_record Scenario.user 1 (Mem [Cases.bare] []) 0
           ProtoNull [("a", VNumber (Num 1))]).
  - reflexivity.
  - reflexivity.
  - reflexivity.
  - apply (bool_decide_unpack _). by vm_compute.
  - repeat constructor. exists (TPrim (VNumber (Num 1))). split; reflexivity.
Defined.

(** ** Creating a handle and reading it *)

(** X3.  [create] on a value that is finite and of the kinds that
    [safeClone] reproduces returns a new handle, alive and without
    listeners, after the handles that were there, which are left as they
    were; it stores a copy of the value, of which no object other than
    those shared by identity is an object of the value it was passed:
    what the caller does to that value afterwards does not reach the
    handle.  No listener runs and no promise changes. *)
Theorem create_stores_an_isolated_copy
    (call : fn -> jsvalue -> list jsvalue -> M mem jsvalue) (depth : nat)
    (w : world) (d : jsvalue) (t : tree) :
  reify depth (heap (memory w)) d = Some t ->
  cloneable t = true ->
  exists d' h',
    Whispr.create call depth d w
    = Ret (length (handles w))
          (World (Mem (heap (memory w) ++ h') (console (memory w)))
                 (handles w ++ [MkWhispr (MkObservable d' []) true])
                 (promises w) (suspended w) (delivered w)) /\
    reify depth (heap (memory w) ++ h') d' = Some t /\
    reify depth (heap (memory w) ++ h') d = Some t /\
    isolated depth (heap (memory w) ++ h') (length (heap (memory w))) d' = true.
Proof.
  intros Hr Hcl.
  destruct (clone_spec call depth d (memory w))
    as (d' & m' & Hc & [h' ->] & _ & _ & _ & t' & Hr' & Hcopy).
  { exists t. split; [done|by apply cloneable_no_custom]. }
  simpl in *. rewrite (reify_extend _ _ h' _ _ Hr) in Hr'. injection Hr' as <-.
  destruct (Hcopy Hcl) as [Hd' Hiso].
  exists d', h'. split_and!; [|done|by apply reify_extend|done].
  unfold Whispr.create, Observable.constructor, bind, lift. by rewrite Hc.
Qed.

Lemma create_stores_an_isolated_copy_witness :
  exists d' h',
    Whispr.create Scenario.quiet 4 (VRef 0) Scenario.nested_world
    = Ret (length (handles Scenario.nested_world))
          (World (Mem (heap (memory Scenario.nested_world) ++ h')
                      (console (memory Scenario.nested_world)))
                 (handles Scenario.nested_world ++ [MkWhispr (MkObservable d' []) true])
                 (promises Scenario.nested_world) (suspended Scenario.nested_world)
                 (delivered Scenario.nested_world)) /\
    reify 4 (heap (memory Scenario.nested_world) ++ h') d' = Some Scenario.nested_tree /\
    reify 4 (heap (memory Scenario.nested_world) ++ h') (VRef 0) = Some Scenario.nested_tree /\
    isolated 4 (heap (memory Scenario.nested_world) ++ h')
             (length (heap (memory Scenario.nested_world))) d' = true.
Proof.
  apply (create_stores_an_isolated_copy Scenario.quiet 4 Scenario.nested_world (VRef 0)
           Scenario.nested_tree).
  - vm_compute. reflexivity.
  - reflexivity.
Defined.

(** X4.  Reading a handle, alive or dead, whose stored value is finite
    and of the kinds that [safeClone] reproduces returns a copy of the
    stored value and changes nothing but the heap, where the copy is
    added: the handles, their listeners, the promises and the history of
    deliveries are as they were.  The value returned is not the stored
    object, nor any object that was there before the read, unless the
    whole value is one that is shared by identity. *)
Theorem read_returns_a_fresh_copy
    (call : fn -> jsvalue -> list jsvalue -> M mem jsvalue) (depth c : nat)
    (w : world) (d : jsvalue) (ls : list listener) (al : bool) (t : tree) :
  handles w !! c = Some (MkWhispr (MkObservable d ls) al) ->
  reify depth (heap (memory w)) d = Some t ->
  cloneable t = true ->
  exists r h',
    Whispr.value call depth c w
    = Ret r (with_memory (Mem (heap (memory w) ++ h') (console (memory w))) w) /\
    reify depth (heap (memory w) ++ h') r = Some t /\
    reify depth (heap (memory w) ++ h') d = Some t /\
    isolated depth (heap (memory w) ++ h') (length (heap (memory w))) r = true /\
    (forall a, r = VRef a -> a < length (heap (memory w)) -> t = TShared a).
Proof.
  intros Hc Hr Hcl.
  destruct (clone_spec call depth d (memory w))
    as (r & m' & Hclone & [h' ->] & _ & _ & _ & t' & Hr' & Hcopy).
  { exists t. split; [done|by apply cloneable_no_custom]. }
  simpl in *. rewrite (reify_extend _ _ h' _ _ Hr) in Hr'. injection Hr' as <-.
  destruct (Hcopy Hcl) as [Hrt Hiso].
  exists r, h'. split_and!; [|done|by apply reify_extend|done|].
  - unfold Whispr.value, Observable.value. rewrite (cell_lookup _ _ _ _ _ Hc).
    unfold lift. cbn [_data]. by rewrite Hclone.
  - intros a -> Hlt. by eapply isolated_old.
Qed.

Lemma read_returns_a_fresh_copy_witness :
  exists r h',
    Whispr.value Scenario.quiet 4 0 Cases.nested_cell
    = Ret r (with_memory (Mem (heap (memory Cases.nested_cell) ++ h')
                              (console (memory Cases.nested_cell))) Cases.nested_cell) /\
    reify 4 (heap (memory Cases.nested_cell) ++ h') r = Some Scenario.nested_tree /\
    reify 4 (heap (memory Cases.nested_cell) ++ h') (VRef 0) = Some Scenario.nested_tree /\
    isolated 4 (heap (memory Cases.nested_cell) ++ h')
             (length (heap (memory Cases.nested_cell))) r = true /\
    (forall a, r = VRef a -> a < length (heap (memory Cases.nested_cell)) ->
               Scenario.nested_tree = TShared a).
Proof.
  apply (read_returns_a_fresh_copy Scenario.quiet 4 0 Cases.nested_cell (VRef 0) [] false
           Scenario.nested_tree).
  - reflexivity.
  - vm_compute. reflexivity.
  - reflexivity.
Defined.

(** ** Subscribing *)

Lemma filter_snoc_self (cb : listener) (ls : list listener) :
  filter (fun l => l <> cb) (ls ++ [cb]) = filter (fun l => l <> cb) ls.
Proof.
  rewrite filter_app, filter_cons_False, filter_nil, app_nil_r; [done|]. by intros ?.
Qed.

Lemma filter_absent (cb : listener) (ls : list listener) :
  cb ∉ ls -> filter (fun l => l <> cb) ls = ls.
Proof.
  intros H. induction ls as [|l ls IH]; [done|].
  apply not_elem_of_cons in H as [Hne Hls].
  rewrite filter_cons_True by done. by rewrite IH.
Qed.

Lemma update_cell_id c f w :
  (forall o, cell c w = Some o -> f o = o) -> update_cell c f w = w.
Proof.
  intros Hf. unfold update_cell, cell in *.
  destruct w as [m hs ps ss ds]. unfold with_handles. simpl in *. f_equal.
  apply list_eq. intros i. destruct (decide (i = c)) as [->|Hne].
  - rewrite list_lookup_alter_eq.
    destruct (hs !! c) as [[o al]|]; [|done]. simpl. by rewrite Hf.
  - by rewrite list_lookup_alter_ne.
Qed.

Lemma update_cell_compose c f g w :
  update_cell c f (update_cell c g w) = update_cell c (fun o => f (g o)) w.
Proof.
  unfold update_cell. destruct w as [m hs ps ss ds]. unfold with_handles. simpl. f_equal.
  apply list_eq. intros i. destruct (decide (i = c)) as [->|Hne].
  - rewrite !list_lookup_alter_eq. by destruct (hs !! c).
  - by rewrite !list_lookup_alter_ne.
Qed.



(** X6.  Subscribing a listener that is not yet on the list, without
    immediate notification, and then calling the function that
    [subscribe] returned gives back the world as it was: the listener was
    added at the end of the list, no listener ran, and the unsubscription
    removes it again. *)
Theorem subscribe_then_unsubscribe
    (call : fn -> jsvalue -> list jsvalue -> M mem jsvalue) (depth n c : nat)
    (cb : listener) (w : world) :
  cb ∉ default [] (listeners <$> cell c w) ->
  exists w1,
    Whispr.subscribe call depth n c cb false w = Ret tt w1 /\
    (forall o, cell c w = Some o ->
               cell c w1 = Some (MkObservable (_data o) (listeners o ++ [cb]))) /\
    Observable.unsubscribe c cb w1 = w.
Proof.
  intros Hcb. eexists. split; [reflexivity|]. split.
  - intros o Ho. by rewrite cell_update_cell, Ho.
  - unfold Observable.unsubscribe. rewrite update_cell_compose.
    apply update_cell_id. intros [d ls] Ho. rewrite Ho in Hcb. simpl in *.
    by rewrite filter_snoc_self, filter_absent.
Qed.

Lemma subscribe_then_unsubscribe_witness :
  exists w1,
    Whispr.subscribe Scenario.user 3 1 0 (LUser Scenario.thrower) false
      (Scenario.one_cell VNull [LUser Scenario.idle]) = Ret tt w1 /\
    (forall o, cell 0 (Scenario.one_cell VNull [LUser Scenario.idle]) = Some o ->
               cell 0 w1
               = Some (MkObservable (_data o) (listeners o ++ [LUser Scenario.thrower]))) /\
    Observable.unsubscribe 0 (LUser Scenario.thrower) w1
    = Scenario.one_cell VNull [LUser Scenario.idle].
Proof.
  apply (subscribe_then_unsubscribe Scenario.user 3 1 0 (LUser Scenario.thrower)
           (Scenario.one_cell VNull [LUser Scenario.idle])).
  apply (bool_decide_unpack _). by vm_compute.
Defined.

(** X7.  Unsubscribing twice is unsubscribing once; unsubscribing a
    listener that is not on the list of the cell changes nothing; and two
    unsubscriptions, of any listeners on any cells, give the same world in
    either order. *)
Theorem unsubscribe_twice_or_absent (c : nat) (cb : listener) (w : world) :
  Observable.unsubscribe c cb (Observable.unsubscribe c cb w) = Observable.unsubscribe c cb w /\
  (cb ∉ default [] (listeners <$> cell c w) -> Observable.unsubscribe c cb w = w) /\
  (forall c' cb',
     Observable.unsubscribe c cb (Observable.unsubscribe c' cb' w)
     = Observable.unsubscribe c' cb' (Observable.unsubscribe c cb w)).
Proof.
  split_and!.
  - unfold Observable.unsubscribe. rewrite update_cell_compose. simpl.
    destruct w as [m hs ps ss ds]. unfold update_cell, with_handles. simpl. f_equal.
    apply list_eq. intros i. destruct (decide (i = c)) as [->|Hne].
    + rewrite !list_lookup_alter_eq. destruct (hs !! c) as [[[d ls] al]|]; [|done].
      simpl. by rewrite (filter_absent cb _ (filter_removes_all cb ls)).
    + by rewrite !list_lookup_alter_ne.
  - intros Hcb. apply update_cell_id. intros [d ls] Ho. rewrite Ho in Hcb. simpl in *.
    by rewrite filter_absent.
  - intros c' cb'. unfold Observable.unsubscribe.
    destruct w as [m hs ps ss ds]. unfold update_cell, with_handles. simpl. f_equal.
    apply list_eq. intros i.
    destruct (decide (i = c)) as [Hc|Hc], (decide (i = c')) as [Hc'|Hc']; subst;
      rewrite ?list_lookup_alter_eq, ?list_lookup_alter_ne by done;
      rewrite ?list_lookup_alter_eq, ?list_lookup_alter_ne by done; try done.
    destruct (hs !! c') as [[[d ls] al]|]; [|done]. simpl. do 3 f_equal.
    rewrite !list_filter_filter. apply list_filter_iff. tauto.
Qed.

Lemma unsubscribe_twice_or_absent_witness :
  Observable.unsubscribe 0 (LUser Scenario.thrower)
    (Observable.unsubscribe 0 (LUser Scenario.thrower)
       (Scenario.one_cell VNull [LUser Scenario.idle]))
  = Observable.unsubscribe 0 (LUser Scenario.thrower)
      (Scenario.one_cell VNull [LUser Scenario.idle]) /\
  (LUser Scenario.thrower
     ∉ default [] (listeners <$> cell 0 (Scenario.one_cell VNull [LUser Scenario.idle])) ->
   Observable.unsubscribe 0 (LUser Scenario.thrower)
     (Scenario.one_cell VNull [LUser Scenario.idle])
   = Scenario.one_cell VNull [LUser Scenario.idle]) /\
  (forall c' cb',
     Observable.unsubscribe 0 (LUser Scenario.thrower)
       (Observable.unsubscribe c' cb' (Scenario.one_cell VNull [LUser Scenario.idle]))
     = Observable.unsubscribe c' cb'
         (Observable.unsubscribe 0 (LUser Scenario.thrower)
            (Scenario.one_cell VNull [LUser Scenario.idle]))).
Proof.
  exact (unsubscribe_twice_or_absent 0 (LUser Scenario.thrower)
           (Scenario.one_cell VNull [LUser Scenario.idle])).
Defined.


(** ** Listeners that return a promise *)

Lemma settle_unfold p settled w :
  Observable.settle p settled w
  = resume_all settled (filter (fun s => s.2 = p) (suspended w))
               (with_suspended (filter (fun s => s.2 <> p) (suspended w)) w).
Proof. done. Qed.

Lemma resume_all_rejected e waiting w :
  resume_all (inr e) waiting w
  = with_memory (Mem (heap (memory w))
                     (console (memory w)
                      ++ replicate (length waiting)
                                   (Warn "Whispr listener threw an error:" e))) w.
Proof.
  revert w. induction waiting as [|s waiting IH]; intros w; simpl.
  - rewrite app_nil_r. by destruct w as [[] ? ? ? ?].
  - unfold resume_all in *. rewrite IH. destruct w as [[h k] ? ? ? ?].
    unfold with_memory, Observable.notify_caught, console_warn, warn. simpl.
    by rewrite <- app_assoc.
Qed.

Lemma resume_all_ignored r waiting w :
  r <> VString "STOP" -> resume_all (inl r) waiting w = w.
Proof.
  intros Hr. revert w. induction waiting as [|s waiting IH]; intros w; [done|].
  simpl. unfold resume_all in IH. rewrite <- (IH w) at 2. f_equal.
  unfold Observable.notify_result. by rewrite decide_False.
Qed.

Lemma unsubscribe_listeners c cb w c' :
  listeners <$> cell c' (Observable.unsubscribe c cb w)
  = (fun ls => if decide (c' = c) then filter (fun l => l <> cb) ls else ls)
      <$> (listeners <$> cell c' w).
Proof.
  unfold Observable.unsubscribe. destruct (decide (c' = c)) as [->|Hne].
  - rewrite cell_update_cell. by destruct (cell c w).
  - unfold cell, update_cell. simpl. rewrite list_lookup_alter_ne by done.
    by destruct (handles w !! c').
Qed.

Lemma notify_result_stop c l w :
  Observable.notify_result c l (VString "STOP") w = Observable.unsubscribe c l w.
Proof. unfold Observable.notify_result. by rewrite decide_True. Qed.

Lemma resume_all_stop_frame waiting w :
  memory (resume_all (inl (VString "STOP")) waiting w) = memory w /\
  promises (resume_all (inl (VString "STOP")) waiting w) = promises w /\
  suspended (resume_all (inl (VString "STOP")) waiting w) = suspended w /\
  delivered (resume_all (inl (VString "STOP")) waiting w) = delivered w.
Proof.
  revert w. induction waiting as [|[[c0 l0] p0] waiting IH]; intros w; [done|].
  change (resume_all (inl (VString "STOP")) ((c0, l0, p0) :: waiting) w)
    with (resume_all (inl (VString "STOP")) waiting
            (Observable.notify_result c0 l0 (VString "STOP") w)).
  rewrite notify_result_stop. apply (IH (Observable.unsubscribe c0 l0 w)).
Qed.

Lemma resume_all_stop_listeners waiting w c :
  listeners <$> cell c (resume_all (inl (VString "STOP")) waiting w)
  = filter (fun l => (c, l) ∉ waiting.*1) <$> (listeners <$> cell c w).
Proof.
  revert w. induction waiting as [|[[c0 l0] p0] waiting IH]; intros w.
  - simpl. destruct (listeners <$> cell c w) as [ls|]; [|done]. simpl. f_equal.
    induction ls as [|l ls IHls]; [done|].
    rewrite filter_cons_True by apply not_elem_of_nil. by rewrite <- IHls.
  - change (resume_all (inl (VString "STOP")) ((c0, l0, p0) :: waiting) w)
      with (resume_all (inl (VString "STOP")) waiting
              (Observable.notify_result c0 l0 (VString "STOP") w)).
    rewrite notify_result_stop, IH, unsubscribe_listeners.
    destruct (listeners <$> cell c w) as [ls|]; [|done]. simpl. f_equal.
    cbn [fmap list_fmap fst]. case_decide as Hc.
    + subst c0. rewrite list_filter_filter. apply list_filter_iff. intros l.
      rewrite not_elem_of_cons. split.
      * intros [? ?]. split; [congruence|done].
      * intros [? ?]. split; [done|congruence].
    + apply list_filter_iff. intros l. rewrite not_elem_of_cons. split.
      * intros ?. split; [congruence|done].
      * by intros [? ?].
Qed.

(** X8.  When a listener returns a promise, [notify] returns at once:
    the notification is suspended on the promise, and the list of
    listeners is as the listener left it, so the listener stays
    subscribed while the promise is pending.  Once the promise is
    fulfilled with ["STOP"] the listener is off the list of the cell; if
    the promise is rejected instead, no handle changes and the reason is
    reported on the console. *)
Theorem listener_promise_is_awaited
    (run : listener -> jsvalue -> M world jsvalue) (c : nat) (l : listener)
    (w : world) (o : Observable) (a : addr) (p : nat) (w1 : world) :
  cell c w = Some o ->
  run l (_data o) (with_delivered (delivered w ++ [(c, l, _data o)]) w) = Ret (VRef a) w1 ->
  heap (memory w1) !! a = Some (OPromise p) ->
  exists w2,
    Observable.notify run c l w = Ret tt w2 /\
    memory w2 = memory w1 /\ handles w2 = handles w1 /\
    suspended w2 = suspended w1 ++ [(c, l, p)] /\
    (forall ls,
       listeners <$> cell c (Observable.settle p (inl (VString "STOP")) w2) = Some ls ->
       l ∉ ls) /\
    (forall e,
       handles (Observable.settle p (inr e) w2) = handles w1 /\
       Warn "Whispr listener threw an error:" e
         ∈ console (memory (Observable.settle p (inr e) w2))).
Proof.
  intros Hc Hrun Ha. exists (with_suspended (suspended w1 ++ [(c, l, p)]) w1).
  split_and!; [|done..| |].
  - unfold Observable.notify. rewrite Hc, Hrun. simpl. by rewrite Ha.
  - intros ls. rewrite settle_unfold, resume_all_stop_listeners.
    set (w2 := with_suspended _ w1).
    change (cell c (with_suspended _ w2)) with (cell c w1).
    destruct (listeners <$> cell c w1) as [ls1|]; [|done]. simpl. intros [= <-].
    intros [Hnot _]%list_elem_of_filter. apply Hnot.
    apply list_elem_of_fmap. exists (c, l, p). split; [done|].
    apply list_elem_of_filter. split; [done|].
    unfold w2. simpl. apply elem_of_app. right. by left.
  - intros e. rewrite settle_unfold, resume_all_rejected. split; [done|]. simpl.
    apply elem_of_app. right.
    rewrite filter_app, filter_cons_True, length_app by done. simpl.
    rewrite Nat.add_1_r. simpl. by left.
Qed.

Lemma listener_promise_is_awaited_witness :
  exists w2,
    Observable.notify (Whispr.run_listener Cases.calm 3 1) 0 (LUser Cases.later)
      Cases.promise_cell = Ret tt w2 /\
    memory w2
    = memory (with_delivered [(0, LUser Cases.later, VNull)] Cases.promise_cell) /\
    handles w2
    = handles (with_delivered [(0, LUser Cases.later, VNull)] Cases.promise_cell) /\
    suspended w2
    = suspended (with_delivered [(0, LUser Cases.later, VNull)] Cases.promise_cell)
      ++ [(0, LUser Cases.later, 0)] /\
    (forall ls,
       listeners <$> cell 0 (Observable.settle 0 (inl (VString "STOP")) w2) = Some ls ->
       LUser Cases.later ∉ ls) /\
    (forall e,
       handles (Observable.settle 0 (inr e) w2)
       = handles (with_delivered [(0, LUser Cases.later, VNull)] Cases.promise_cell) /\
       Warn "Whispr listener threw an error:" e
         ∈ console (memory (Observable.settle 0 (inr e) w2))).
Proof.
  apply (listener_promise_is_awaited (Whispr.run_listener Cases.calm 3 1) 0
           (LUser Cases.later) Cases.promise_cell (MkObservable VNull [LUser Cases.later])
           0 0 (with_delivered [(0, LUser Cases.later, VNull)] Cases.promise_cell)).
  - reflexivity.
  - reflexivity.
  - reflexivity.
Defined.

(** X9.  When a promise is fulfilled, every notification suspended on it
    resumes and no other: if the value is ["STOP"], each of their
    listeners is taken off the list of its cell, every registration of
    it, and the other listeners stay, in their order; for any other value
    the lists are as they were.  The memory, the promises of [wait] and
    the history of deliveries do not change, and no listener is called. *)
Theorem fulfilled_promise_resumes (p : nat) (r : jsvalue) (w : world) :
  let w' := Observable.settle p (inl r) w in
  memory w' = memory w /\ promises w' = promises w /\ delivered w' = delivered w /\
  suspended w' = filter (fun s => s.2 <> p) (suspended w) /\
  forall c,
    listeners <$> cell c w'
    = (fun ls => if decide (r = VString "STOP")
                 then filter (fun l => (c, l, p) ∉ suspended w) ls
                 else ls) <$> (listeners <$> cell c w).
Proof.
  cbv zeta. rewrite settle_unfold.
  set (waiting := filter (fun s => s.2 = p) (suspended w)).
  set (w0 := with_suspended _ w).
  case_decide as Hr.
  - subst r. destruct (resume_all_stop_frame waiting w0) as (Hm & Hp & Hs & Hd).
    split_and!; [done..|]. intros c. rewrite resume_all_stop_listeners.
    change (cell c w0) with (cell c w).
    destruct (listeners <$> cell c w) as [ls|]; [|done]. simpl. f_equal.
    apply list_filter_iff. intros l.
    assert (Hiff : (c, l) ∈ waiting.*1 <-> (c, l, p) ∈ suspended w); [|by rewrite Hiff].
    unfold waiting. rewrite list_elem_of_fmap. split.
    + intros ([[c' l'] p'] & [= <- <-] & [Hp' Hin]%list_elem_of_filter). simpl in Hp'.
      by subst p'.
    + intros Hin. exists (c, l, p). split; [done|]. by apply list_elem_of_filter.
  - rewrite resume_all_ignored by done. split_and!; [done..|].
    intros c. change (cell c w0) with (cell c w).
    by destruct (listeners <$> cell c w).
Qed.

(** X10.  When a promise is rejected, every notification suspended on it
    reports the reason on the console, one line each, and nothing else
    changes: the handles and their lists of listeners are as they were,
    so the listeners stay subscribed, and the notifications suspended on
    other promises still wait. *)
Theorem rejected_promise_is_logged (p : nat) (e : jsvalue) (w : world) :
  Observable.settle p (inr e) w
  = World (Mem (heap (memory w))
               (console (memory w)
                ++ replicate (length (filter (fun s => s.2 = p) (suspended w)))
                             (Warn "Whispr listener threw an error:" e)))
          (handles w) (promises w)
          (filter (fun s => s.2 <> p) (suspended w))
          (delivered w).
Proof. rewrite settle_unfold. by rewrite resume_all_rejected. Qed.

(** ** Waiting: [wait] and [load] *)



(** The world in which the listener of a [wait] is notified for the
    first time: the promise is there, pending, the listener is at the end
    of the list, and the delivery is recorded. *)
Lemma wait_unfold
    (call : fn -> jsvalue -> list jsvalue -> M mem jsvalue) (depth n h : nat)
    (cb : predicate) (w : world) (d : jsvalue) (ls : list listener) (al : bool) :
  handles w !! h = Some (MkWhispr (MkObservable d ls) al) ->
  Whispr.wait call depth (S n) h cb w
  = match Whispr.run_listener call depth (S n) (LWait cb (length (promises w))) d
            (World (memory w)
                   (<[h:=MkWhispr (MkObservable d (ls ++ [LWait cb (length (promises w))])) al]>
                      (handles w))
                   (promises w ++ [None]) (suspended w)
                   (delivered w ++ [(h, LWait cb (length (promises w)), d)])) with
    | Ret result w1 =>
      match is_promise w1 result with
      | Some q =>
        Ret (length (promises w))
            (with_suspended (suspended w1 ++ [(h, LWait cb (length (promises w)), q)]) w1)
      | None =>
        Ret (length (promises w))
            (Observable.notify_result h (LWait cb (length (promises w))) result w1)
      end
    | Throw e w1 => Ret (length (promises w)) (Observable.notify_caught e w1)
    | Diverge => Diverge
    end.
Proof.
  intros Hh. unfold Whispr.wait, Whispr.subscribe, Observable.subscribe.
  cbv zeta. set (p := length (promises w)). set (L := LWait cb p).
  set (w0 := with_promises _ w). unfold bind at 1. set (w1 := update_cell h _ w0).
  assert (Hh1 : handles w1 = <[h:=MkWhispr (MkObservable d (ls ++ [L])) al]> (handles w)).
  { unfold w1. by rewrite (update_cell_insert h _ w0 d ls al). }
  assert (Hc1 : handles w1 !! h = Some (MkWhispr (MkObservable d (ls ++ [L])) al)).
  { rewrite Hh1. apply list_lookup_insert_eq. by eapply lookup_lt_Some. }
  unfold Observable.notify. rewrite (cell_lookup _ _ _ _ _ Hc1). cbn [_data].
  assert (Hw : with_delivered (delivered w1 ++ [(h, L, d)]) w1
               = World (memory w) (<[h:=MkWhispr (MkObservable d (ls ++ [L])) al]> (handles w))
                       (promises w ++ [None]) (suspended w) (delivered w ++ [(h, L, d)])).
  { unfold with_delivered. by rewrite Hh1. }
  rewrite Hw. destruct (Whispr.run_listener _ _ _ _ _ _) as [r w2|e w2|]; [|done..].
  by destruct (is_promise w2 r).
Qed.

(** The promise that a [wait] has just made is resolved, and its
    listener is taken off the list. *)
Lemma wait_resolved (h p : nat) (L : listener) (r : jsvalue) (m' : mem)
      (hs : list Whispr) (d : jsvalue) (ls : list listener) (al : bool)
      (ps : list (option jsvalue)) ss ds :
  h < length hs -> p = length ps ->
  Observable.notify_result h L (VString "STOP")
    (Whispr.resolve p r
       (World m' (<[h:=MkWhispr (MkObservable d (ls ++ [L])) al]> hs) (ps ++ [None]) ss ds))
  = World m' (<[h:=MkWhispr (MkObservable d (filter (fun l => l <> L) ls)) al]> hs)
          (ps ++ [Some r]) ss ds.
Proof.
  intros Hlen ->. unfold Observable.notify_result. rewrite decide_True by done.
  unfold Whispr.resolve. cbn [promises].
  rewrite list_lookup_middle by done. unfold with_promises.
  cbn [memory handles promises suspended delivered].
  rewrite insert_app_r_alt by done. rewrite Nat.sub_diag.
  unfold Observable.unsubscribe, update_cell, with_handles.
  cbn [memory handles promises suspended delivered]. f_equal.
  apply list_eq. intros i. destruct (decide (i = h)) as [->|Hne].
  - rewrite list_lookup_alter_eq, !list_lookup_insert_eq by done.
    cbn. by rewrite filter_snoc_self.
  - by rewrite list_lookup_alter_ne, !list_lookup_insert_ne.
Qed.



Section WaitLater.

Variable call : fn -> jsvalue -> list jsvalue -> M mem jsvalue.
Variable depth : nat.
Variable n : nat.
Hypothesis Htotal : total call.

Variable h : nat.
Variable f : fn.
Variable p : nat.
Variable d' : jsvalue.
Variable r : jsvalue.
Variable al : bool.
Hypothesis Htruthy : truthy d' = true.
Hypothesis Hpresent : is_nullish r = false.
Hypothesis Hpred : forall m, exists m', call f VUndefined [d'] m = Ret r m'.

#[local] Abbreviation run := (Whispr.run_listener call depth (S n)).
#[local] Abbreviation L := (LWait (PUser f) p).




End WaitLater.






(** ** Handles derived by [from], [transform] and [consolidate] *)

(** A write to a cell without listeners. *)
Lemma set_quiet (call : fn -> jsvalue -> list jsvalue -> M mem jsvalue) (depth c : nat)
      (run : listener -> jsvalue -> M world jsvalue) d w d0 al d' m' :
  handles w !! c = Some (MkWhispr (MkObservable d0 []) al) ->
  safeClone call depth d (memory w) = Ret d' m' ->
  Observable.set call depth run c d w
  = Ret true (World m' (<[c:=MkWhispr (MkObservable d' []) al]> (handles w))
                    (promises w) (suspended w) (delivered w)).
Proof.
  intros Hc Hclone. rewrite (set_unfold _ _ _ _ _ _ _ Hclone). cbv zeta.
  set (w1 := update_cell c _ _).
  assert (Hh1 : handles w1 = <[c:=MkWhispr (MkObservable d' []) al]> (handles w)).
  { unfold w1. by rewrite (update_cell_insert c _ _ d0 [] al). }
  assert (Hc1 : handles w1 !! c = Some (MkWhispr (MkObservable d' []) al)).
  { rewrite Hh1. apply list_lookup_insert_eq. by eapply lookup_lt_Some. }
  rewrite (cell_lookup _ _ _ _ _ Hc1). unfold bind, dispatch, ret. simpl. f_equal.
  rewrite <- Hh1. done.
Qed.

Section Subscribe.

Variable call : fn -> jsvalue -> list jsvalue -> M mem jsvalue.
Variable depth : nat.
Variable n : nat.

Variable input : list (string * nat).
Variable cb : combiner.
Variable R : list jsvalue -> list object -> jsvalue -> Prop.
Variable out : nat.
Variable ps : list jsvalue.
Variable lss : list (list listener).
Hypothesis Hcomb : combines call depth input cb R.
Hypothesis Hnds : NoDup input.*2.
Hypothesis Hout : out ∉ input.*2.
Hypothesis Hlps : length ps = length input.
Hypothesis Hllss : length lss = length input.
Hypothesis Hprim : Forall (fun p => primitive p = true) ps.

#[local] Arguments Whispr.run_listener : simpl never.
#[local] Abbreviation L := (LFrom input cb out).

(** The first [k] sources have the listener of [from] at the end of their
    list, the others have the list they had, and [out] holds a value that
    is right for [ps]. *)
#[local] Abbreviation subscribed k w :=
  ((exists d, handles w !! out = Some (MkWhispr (MkObservable d []) true) /\
              R ps (heap (memory w)) d) /\
   forall j kv p ls,
     input !! j = Some kv -> ps !! j = Some p -> lss !! j = Some ls ->
     handles w !! kv.2
     = Some (MkWhispr (MkObservable p (if decide (j < k) then ls ++ [L j] else ls)) true)).

Lemma subscribed_hold k w : subscribed k w -> sources_hold input ps w.
Proof.
  intros [_ Hsrc]. apply Forall2_same_length_lookup_2; [done|].
  intros i kv p Hi Hp.
  destruct (lookup_lt_is_Some_2 lss i) as [ls Hls].
  { rewrite Hllss. by eapply lookup_lt_Some. }
  split; [by eapply Forall_lookup_1 in Hprim|].
  eexists _, _. by eapply Hsrc.
Qed.

Lemma subscribe_source k key s p ls w :
  subscribed k w ->
  input !! k = Some (key, s) -> ps !! k = Some p -> lss !! k = Some ls ->
  exists w',
    Whispr.subscribe call depth (S n) s (L k) true w = Ret tt w' /\
    subscribed (S k) w' /\
    heap_grows (memory w) (memory w') /\
    promises w' = promises w /\ suspended w' = suspended w /\
    length (handles w') = length (handles w) /\
    delivered w' = delivered w ++ [(s, L k, p)].
Proof.
  intros Hsub Hk Hp Hls. pose proof Hsub as [(d0 & Ho & HR) Hsrc].
  pose proof (Hsrc k (key, s) p ls Hk Hp Hls) as Hs. cbn [snd] in Hs.
  rewrite decide_False in Hs by lia.
  assert (Hsout : s <> out).
  { intros ->. apply Hout. apply list_elem_of_fmap. exists (key, out). split; [done|].
    by eapply list_elem_of_lookup_2. }
  unfold Whispr.subscribe, Observable.subscribe. cbv zeta.
  set (w1 := update_cell s _ w).
  assert (Hh1 : handles w1 = <[s:=MkWhispr (MkObservable p (ls ++ [L k])) true]> (handles w)).
  { unfold w1. by rewrite (update_cell_insert s _ w p ls true). }
  assert (Hs1 : handles w1 !! s = Some (MkWhispr (MkObservable p (ls ++ [L k])) true)).
  { rewrite Hh1. apply list_lookup_insert_eq. by eapply lookup_lt_Some. }
  assert (Hsrc1 : forall j kv p ls,
            input !! j = Some kv -> ps !! j = Some p -> lss !! j = Some ls ->
            handles w1 !! kv.2
            = Some (MkWhispr (MkObservable p (if decide (j < S k) then ls ++ [L j] else ls))
                             true)).
  { intros j [key' s'] p' ls' Hj Hp' Hls'. cbn [snd].
    destruct (decide (j = k)) as [->|Hjk].
    - rewrite Hk in Hj. injection Hj as <- <-. rewrite Hp in Hp'. injection Hp' as <-.
      rewrite Hls in Hls'. injection Hls' as <-. rewrite decide_True by lia. done.
    - assert (s' <> s).
      { intros ->. apply Hjk. eapply (NoDup_lookup input.*2); [done| |].
        - by rewrite list_lookup_fmap, Hj.
        - by rewrite list_lookup_fmap, Hk. }
      rewrite Hh1, list_lookup_insert_ne by done.
      pose proof (Hsrc j (key', s') p' ls' Hj Hp' Hls') as Hs'. cbn [snd] in Hs'.
      rewrite Hs'.
      destruct (decide (j < k)), (decide (j < S k)); try done; lia. }
  assert (Ho1 : handles w1 !! out = Some (MkWhispr (MkObservable d0 []) true)).
  { by rewrite Hh1, list_lookup_insert_ne. }
  (* the notification *)
  unfold Observable.notify. rewrite (cell_lookup _ _ _ _ _ Hs1). cbn [_data].
  set (w2 := with_delivered _ w1).
  assert (Hsub2 : subscribed (S k) w2).
  { split; [|done]. by exists d0. }
  pose proof (subscribed_hold _ _ Hsub2) as Hhold.
  destruct (proj2 Hcomb ps w2 Hhold) as (x & m1 & d & m2 & Hget & Hg1 & Hclone & Hg2 & HRd).
  set (w3 := with_memory m1 w2) in Hget.
  assert (Hsetter : Whispr.setter call depth (Whispr.run_listener call depth n) out x w3
                    = Ret true (World m2 (<[out:=MkWhispr (MkObservable d []) true]> (handles w3))
                                      (promises w3) (suspended w3) (delivered w3))).
  { unfold Whispr.setter, Whispr.deref.
    change (handles w3 !! out) with (handles w1 !! out). rewrite Ho1. cbn [alive].
    by apply (set_quiet _ _ _ _ _ _ d0 true). }
  set (w4 := World m2 _ _ _ _) in Hsetter.
  assert (Hrun : Whispr.run_listener call depth (S n) (L k) p w2 = Ret VUndefined w4).
  { unfold Whispr.run_listener. fold (Whispr.run_listener call depth).
    rewrite (bind_Ret _ _ _ _ _ Hget). by rewrite (bind_Ret _ _ _ _ _ Hsetter). }
  rewrite Hrun. cbn [is_promise]. unfold Observable.notify_result.
  rewrite decide_False by done.
  exists w4. split; [done|].
  assert (Hh4 : handles w4 = <[out:=MkWhispr (MkObservable d []) true]> (handles w1)) by done.
  split_and!.
  - exists d. split; [|done]. rewrite Hh4. apply list_lookup_insert_eq.
    by eapply lookup_lt_Some.
  - intros j kv p' ls' Hj Hp' Hls'. rewrite Hh4, list_lookup_insert_ne.
    + by apply Hsrc1.
    + intros Heq. apply Hout. apply list_elem_of_fmap. exists kv. split; [done|].
      by eapply list_elem_of_lookup_2.
  - by eapply heap_grows_trans.
  - done.
  - done.
  - rewrite Hh4, length_insert, Hh1, length_insert. done.
  - done.
Qed.

Lemma subscribed_all k w :
  length input <= k -> subscribed k w -> subscribed (length input) w.
Proof.
  intros Hk [Ho Hsrc]. split; [done|]. intros j kv p ls Hj Hp Hls.
  rewrite (Hsrc j kv p ls Hj Hp Hls).
  pose proof (lookup_lt_Some _ _ _ Hj).
  rewrite !decide_True by lia. done.
Qed.

Lemma subscribe_sources rest :
  forall k w,
    drop k input = rest -> subscribed k w ->
    exists w',
      foldM (fun _ isrc => Whispr.subscribe call depth (S n) isrc.2.2 (L isrc.1) true)
            (imap (fun i kv => (k + i, kv)) rest) tt w = Ret tt w' /\
      subscribed (length input) w' /\
      heap_grows (memory w) (memory w') /\
      promises w' = promises w /\ suspended w' = suspended w /\
      length (handles w') = length (handles w) /\
      delivered w'
      = delivered w
        ++ imap (fun i (x : (string * nat) * jsvalue) => (x.1.2, L (k + i), x.2))
                (zip rest (drop k ps)).
Proof.
  induction rest as [|[key s] rest IH]; intros k w Hdrop Hsub.
  - exists w. split; [done|]. split; [|split_and!; try done].
    + apply (subscribed_all k); [|done].
      destruct (decide (length input <= k)) as [?|Hlt]; [done|].
      assert (Hlen : length (drop k input) = 0) by (by rewrite Hdrop).
      rewrite length_drop in Hlen. lia.
    + apply heap_grows_refl.
    + simpl. by rewrite app_nil_r.
  - assert (Hk : input !! k = Some (key, s)).
    { rewrite <- (Nat.add_0_r k), <- lookup_drop, Hdrop. done. }
    assert (Hrest : drop (S k) input = rest).
    { rewrite (drop_S _ _ _ Hk) in Hdrop. by injection Hdrop. }
    destruct (lookup_lt_is_Some_2 ps k) as [p Hp].
    { rewrite Hlps. by eapply lookup_lt_Some. }
    destruct (lookup_lt_is_Some_2 lss k) as [ls Hls].
    { rewrite Hllss. by eapply lookup_lt_Some. }
    destruct (subscribe_source k key s p ls w Hsub Hk Hp Hls)
      as (w1 & Hs1 & Hsub1 & Hg1 & Hp1 & Hsu1 & Hl1 & Hd1).
    destruct (IH (S k) w1 Hrest Hsub1) as (w2 & Hloop & Hsub2 & Hg2 & Hp2 & Hsu2 & Hl2 & Hd2).
    exists w2. split; [|split; [done|split_and!]].
    + rewrite imap_cons. cbn [foldM]. rewrite Nat.add_0_r.
      rewrite (bind_Ret _ _ _ _ _ Hs1).
      rewrite <- Hloop. f_equal. apply imap_ext. intros i x _. cbn.
      by rewrite Nat.add_succ_r.
    + by eapply heap_grows_trans.
    + congruence.
    + congruence.
    + congruence.
    + rewrite Hd2, Hd1, <- app_assoc. f_equal.
      rewrite (drop_S _ _ _ Hp). cbn [zip zip_with]. rewrite imap_cons.
      rewrite Nat.add_0_r. simpl. f_equal.
      apply imap_ext. intros i x _. cbn. by rewrite Nat.add_succ_r.
Qed.

End Subscribe.

(** What [from] makes, whatever the combining function. *)
Lemma from_spec
    (call : fn -> jsvalue -> list jsvalue -> M mem jsvalue) (depth n : nat)
    (input : list (string * nat)) (cb : combiner)
    (R : list jsvalue -> list object -> jsvalue -> Prop)
    (ps : list jsvalue) (lss : list (list listener)) (w : world) :
  combines call depth input cb R ->
  NoDup input.*2 ->
  sources_ready input ps lss w ->
  exists w' d,
    Whispr.from call depth (S n) input cb w = Ret (length (handles w)) w' /\
    handles w' !! length (handles w) = Some (MkWhispr (MkObservable d []) true) /\
    R ps (heap (memory w')) d /\
    (forall i kv p ls,
       input !! i = Some kv -> ps !! i = Some p -> lss !! i = Some ls ->
       handles w' !! kv.2
       = Some (MkWhispr (MkObservable p (ls ++ [LFrom input cb (length (handles w)) i])) true)) /\
    heap_grows (memory w) (memory w') /\
    promises w' = promises w /\ suspended w' = suspended w /\
    length (handles w') = S (length (handles w)) /\
    delivered w'
    = delivered w
      ++ imap (fun i (x : (string * nat) * jsvalue) =>
                 (x.1.2, LFrom input cb (length (handles w)) i, x.2))
              (zip input ps).
Proof.
  intros Hcomb Hnds (Hlps & Hllss & Hsrc).
  set (out := length (handles w)).
  assert (Hprim : Forall (fun p => primitive p = true) ps).
  { apply Forall_lookup. intros i p Hp.
    destruct (lookup_lt_is_Some_2 input i) as [kv Hi].
    { rewrite <- Hlps. by eapply lookup_lt_Some. }
    destruct (lookup_lt_is_Some_2 lss i) as [ls Hls].
    { rewrite Hllss. by eapply lookup_lt_Some. }
    by destruct (Hsrc i kv p ls Hi Hp Hls). }
  assert (Hout : out ∉ input.*2).
  { intros (kv & Hkv & Hin)%list_elem_of_fmap.
    apply list_elem_of_lookup in Hin as (i & Hi).
    destruct (lookup_lt_is_Some_2 ps i) as [p Hp].
    { rewrite Hlps. by eapply lookup_lt_Some. }
    destruct (lookup_lt_is_Some_2 lss i) as [ls Hls].
    { rewrite Hllss. by eapply lookup_lt_Some. }
    destruct (Hsrc i kv p ls Hi Hp Hls) as (_ & _ & Hh).
    apply lookup_lt_Some in Hh. unfold out in Hkv. lia. }
  (* the first value *)
  assert (Hhold : sources_hold input ps w).
  { apply Forall2_same_length_lookup_2; [done|]. intros i kv p Hi Hp.
    destruct (lookup_lt_is_Some_2 lss i) as [ls Hls].
    { rewrite Hllss. by eapply lookup_lt_Some. }
    destruct (Hsrc i kv p ls Hi Hp Hls) as (? & _ & ?). split; [done|]. by eexists _, _. }
  destruct (proj2 Hcomb ps w Hhold) as (x & m1 & d & m2 & Hget & Hg1 & Hclone & Hg2 & HRd).
  (* the new handle *)
  set (w2 := World m2 (handles w ++ [MkWhispr (MkObservable d []) true])
                   (promises w) (suspended w) (delivered w)).
  assert (Hcreate : Whispr.create call depth x (with_memory m1 w) = Ret out w2).
  { unfold Whispr.create, Observable.constructor, bind, lift. simpl. by rewrite Hclone. }
  assert (Hsub2 : (exists d, handles w2 !! out = Some (MkWhispr (MkObservable d []) true) /\
                             R ps (heap (memory w2)) d) /\
            forall j kv p ls,
              input !! j = Some kv -> ps !! j = Some p -> lss !! j = Some ls ->
              handles w2 !! kv.2
              = Some (MkWhispr (MkObservable p
                        (if decide (j < 0) then ls ++ [LFrom input cb out j] else ls))
                        true)).
  { split.
    - exists d. split; [|done]. unfold w2, out. simpl. by rewrite list_lookup_middle.
    - intros j kv p ls Hj Hp Hls. rewrite decide_False by lia.
      destruct (Hsrc j kv p ls Hj Hp Hls) as (_ & _ & Hh).
      unfold w2. simpl. by apply lookup_app_l_Some. }
  destruct (subscribe_sources call depth n input cb R out ps lss Hcomb Hnds Hout
              Hlps Hllss Hprim input 0 w2 (drop_0 _) Hsub2)
    as (w3 & Hloop & [(d3 & Ho3 & HR3) Hsrc3] & Hg3 & Hp3 & Hsu3 & Hl3 & Hd3).
  exists w3, d3. split_and!; try done.
  - unfold Whispr.from. rewrite (bind_Ret _ _ _ _ _ Hget).
    rewrite (bind_Ret _ _ _ _ _ Hcreate).
    unfold bind. simpl in Hloop. by rewrite Hloop.
  - intros i kv p ls Hi Hp Hls.
    pose proof (Hsrc3 i kv p ls Hi Hp Hls) as Hh.
    by rewrite decide_True in Hh by (by eapply lookup_lt_Some).
  - eapply heap_grows_trans; [|exact Hg3]. by eapply heap_grows_trans.
  - rewrite Hl3. unfold w2. simpl. rewrite length_app. simpl. lia.
Qed.

Section Rewrite.

Variable call : fn -> jsvalue -> list jsvalue -> M mem jsvalue.
Variable depth : nat.
Variable n : nat.
Hypothesis Hcall : allocates_only call.

Variable input : list (string * nat).
Variable cb : combiner.
Variable R : list jsvalue -> list object -> jsvalue -> Prop.
Variable out : nat.
Hypothesis Hcomb : combines call depth input cb R.

#[local] Abbreviation run := (Whispr.run_listener call depth (S (S n))).
#[local] Arguments Whispr.run_listener : simpl never.

Lemma R_grows ps m m' d : heap_grows m m' -> R ps (heap m) d -> R ps (heap m') d.
Proof. intros [h' ->]. apply (proj1 Hcomb). Qed.

(** One run of the listener of [from]: it stores a value that is right
    for what the sources hold. *)
Lemma recombine i v ps w d0 ls :
  sources_hold input ps w ->
  handles w !! out = Some (MkWhispr (MkObservable d0 ls) true) ->
  Forall (fun l => local l = true) ls ->
  exists w' d ls',
    run (LFrom input cb out i) v w = Ret VUndefined w' /\
    handles w' = <[out:=MkWhispr (MkObservable d ls') true]> (handles w) /\
    (forall l, l ∈ ls' -> l ∈ ls) /\
    R ps (heap (memory w')) d /\
    heap_grows (memory w) (memory w') /\
    (exists ds, delivered w' = delivered w ++ ds /\
                Forall (fun x : nat * listener * jsvalue => local x.1.2 = true) ds).
Proof.
  intros Hhold Hout Hls.
  destruct (proj2 Hcomb ps w Hhold) as (x & m1 & d & m2 & Hget & Hg1 & Hclone & Hg2 & HRd).
  set (w3 := with_memory m1 w) in Hget.
  assert (Hout3 : handles w3 !! out = Some (MkWhispr (MkObservable d0 ls) true)) by done.
  pose proof (allocates_only_total _ Hcall) as Htotal.
  (* the write to [out] *)
  assert (Hset : exists w4 ls',
            Observable.set call depth (Whispr.run_listener call depth (S n)) out x w3
            = Ret true w4 /\
            handles w4 = <[out:=MkWhispr (MkObservable d ls') true]> (handles w) /\
            (forall l, l ∈ ls' -> l ∈ ls) /\
            heap_grows m2 (memory w4) /\
            delivered w4 = delivered w ++ ((fun l => (out, l, d)) <$> ls)).
  { rewrite (set_unfold call depth out x w3 d m2 Hclone). cbv zeta.
    set (w0 := update_cell out _ _).
    assert (Hh0 : handles w0 = <[out:=MkWhispr (MkObservable d ls) true]> (handles w)).
    { unfold w0. by rewrite (update_cell_insert out _ _ d0 ls true). }
    assert (Hc0 : handles w0 !! out = Some (MkWhispr (MkObservable d ls) true)).
    { rewrite Hh0. apply list_lookup_insert_eq. by eapply lookup_lt_Some. }
    rewrite (cell_lookup _ _ _ _ _ Hc0).
    change (default [] (listeners <$> Some (MkObservable d ls))) with ls.
    destruct (dispatch_local call depth n out ls Htotal Hls w0 d ls true Hc0)
      as (w4 & ls' & Hdis & Hd4 & Hh4 & Hsub & _).
    pose proof (dispatch_local_grows call depth n Hcall out ls Hls _ _ Hdis) as Hg4.
    exists w4, ls'. rewrite (bind_Ret _ _ _ _ _ Hdis).
    split_and!; [done| |done|done|done].
    by rewrite Hh4, Hh0, list_insert_insert_eq. }
  destruct Hset as (w4 & ls' & Hset & Hh4 & Hsub & Hg4 & Hd4).
  assert (Hsetter : Whispr.setter call depth (Whispr.run_listener call depth (S n))
                      out x w3 = Ret true w4).
  { unfold Whispr.setter, Whispr.deref. by rewrite Hout3. }
  exists w4, d, ls'. split_and!; [|done|done| | |].
  - unfold Whispr.run_listener. fold (Whispr.run_listener call depth).
    rewrite (bind_Ret _ _ _ _ _ Hget). by rewrite (bind_Ret _ _ _ _ _ Hsetter).
  - by eapply R_grows.
  - eapply heap_grows_trans; [exact Hg1|]. by eapply heap_grows_trans.
  - eexists. split; [exact Hd4|]. apply Forall_fmap.
    eapply Forall_impl; [exact Hls|]. by intros l Hl.
Qed.

Variable j : nat.
Variable s : nat.
Variable v' : jsvalue.
Variable ps : list jsvalue.
Hypothesis Hsout : s <> out.

#[local] Abbreviation L := (LFrom input cb out j).

Lemma among_local_without l ls :
  local l = true -> among_local L ls -> among_local L (filter (fun l' => l' <> l) ls).
Proof.
  intros Hl [Hin Hall]. split.
  - rewrite <- Hin. clear Hin Hall. induction ls as [|x ls IH]; [done|].
    destruct (decide (x = l)) as [->|Hne].
    + rewrite (filter_cons_False (fun l' => l' <> l)) by (by intros ?).
      rewrite (filter_cons_False (fun l' => l' = L)); [done|]. by intros ->.
    + rewrite (filter_cons_True (fun l' => l' <> l)) by done.
      rewrite !(filter_cons (fun l' => l' = L)). by rewrite IH.
  - apply Forall_forall. intros l' [_ Hl']%list_elem_of_filter.
    by eapply Forall_forall in Hall.
Qed.

Lemma hold_elsewhere w w' :
  sources_hold input ps w ->
  (forall kv p ls al,
     kv ∈ input -> handles w !! kv.2 = Some (MkWhispr (MkObservable p ls) al) ->
     exists ls' al', handles w' !! kv.2 = Some (MkWhispr (MkObservable p ls') al')) ->
  sources_hold input ps w'.
Proof.
  intros Hhold Hsame. unfold sources_hold in *.
  apply Forall2_same_length_lookup_2; [by eapply Forall2_length|].
  intros i kv p Hi Hp.
  destruct (Forall2_lookup_lr _ _ _ _ _ _ Hhold Hi Hp) as (Hprim & ls & al & Hkv).
  split; [done|]. eapply Hsame; [|done]. by eapply list_elem_of_lookup_2.
Qed.

(** The walk of a write to source [s] over its listeners. *)
Lemma dispatch_recombines ls :
  Forall (fun l => l = L \/ local l = true) ls ->
  (out ∉ input.*2) ->
  forall w lss d lso,
    handles w !! s = Some (MkWhispr (MkObservable v' lss) true) ->
    among_local L lss ->
    handles w !! out = Some (MkWhispr (MkObservable d lso) true) ->
    Forall (fun l => local l = true) lso ->
    sources_hold input ps w ->
    exists w' lss' d' lso' ds,
      dispatch run s ls w = Ret tt w' /\
      handles w' !! s = Some (MkWhispr (MkObservable v' lss') true) /\
      among_local L lss' /\
      handles w' !! out = Some (MkWhispr (MkObservable d' lso') true) /\
      Forall (fun l => local l = true) lso' /\
      (forall c, c <> s -> c <> out -> handles w' !! c = handles w !! c) /\
      (L ∈ ls -> R ps (heap (memory w')) d') /\
      (R ps (heap (memory w)) d -> R ps (heap (memory w')) d') /\
      heap_grows (memory w) (memory w') /\
      delivered w' = delivered w ++ ds /\
      filter (fun x : nat * listener * jsvalue => x.1.2 = L) ds
      = (fun l => (s, l, v')) <$> filter (fun l => l = L) ls.
Proof.
  pose proof (allocates_only_total _ Hcall) as Htotal.
  intros Hls Hout. induction Hls as [|l ls Hl _ IH]; intros w lss d lso Hs Hlss Ho Hlso Hhold.
  - exists w, lss, d, lso, []. split_and!; try done.
    + by intros ?%elem_of_nil.
    + apply heap_grows_refl.
    + by rewrite app_nil_r.
  - assert (Hstep : exists w1 lss1 d1 lso1 ds1,
              Observable.notify run s l w = Ret tt w1 /\
              handles w1 !! s = Some (MkWhispr (MkObservable v' lss1) true) /\
              among_local L lss1 /\
              handles w1 !! out = Some (MkWhispr (MkObservable d1 lso1) true) /\
              Forall (fun l => local l = true) lso1 /\
              (forall c, c <> s -> c <> out -> handles w1 !! c = handles w !! c) /\
              (l = L -> R ps (heap (memory w1)) d1) /\
              (R ps (heap (memory w)) d -> R ps (heap (memory w1)) d1) /\
              heap_grows (memory w) (memory w1) /\
              delivered w1 = delivered w ++ ds1 /\
              filter (fun x : nat * listener * jsvalue => x.1.2 = L) ds1
              = (fun l => (s, l, v')) <$> filter (fun l => l = L) [l]).
    { destruct Hl as [->|Hl].
      - (* the listener of [from] *)
        set (w2 := with_delivered (delivered w ++ [(s, L, v')]) w).
        destruct (recombine j v' ps w2 d lso)
          as (w4 & d4 & lso' & Hrun & Hh4 & Hsub & HR4 & Hg4 & ds & Hds & Hdsl); [done..|].
        exists w4, lss, d4, lso', ([(s, L, v')] ++ ds).
        assert (Holt : out < length (handles w)) by (by eapply lookup_lt_Some).
        split_and!.
        + unfold Observable.notify. rewrite (cell_lookup _ _ _ _ _ Hs). cbn [_data].
          fold w2. by rewrite Hrun.
        + by rewrite Hh4, list_lookup_insert_ne.
        + done.
        + rewrite Hh4. by apply list_lookup_insert_eq.
        + apply Forall_forall. intros l Hl. apply Hsub in Hl.
          by eapply Forall_forall in Hlso.
        + intros c _ Hc. by rewrite Hh4, list_lookup_insert_ne.
        + done.
        + done.
        + done.
        + rewrite Hds. change (delivered w2) with (delivered w ++ [(s, L, v')]).
          by rewrite <- app_assoc.
        + rewrite filter_app, !filter_cons_True, !filter_nil by done. simpl. f_equal.
          clear Hds. induction Hdsl as [|x ds Hx _ IHds]; [done|].
          rewrite filter_cons_False; [done|]. intros Heq. by rewrite Heq in Hx.
      - (* a local listener *)
        destruct (notify_local call depth (S n) s l w v' lss true Htotal Hl Hs)
          as (w1 & lss1 & Hn & Hd1 & Hh1 & Hlss1).
        pose proof (notify_local_grows call depth (S n) Hcall s l w w1 Hl Hn) as Hg1.
        assert (Hslt : s < length (handles w)) by (by eapply lookup_lt_Some).
        assert (HlL : l <> L) by (by intros ->).
        exists w1, lss1, d, lso, [(s, l, v')]. split_and!.
        + done.
        + rewrite Hh1. by apply list_lookup_insert_eq.
        + destruct Hlss1 as [->|[-> _]]; [done|]. by apply among_local_without.
        + by rewrite Hh1, list_lookup_insert_ne.
        + done.
        + intros c Hc _. by rewrite Hh1, list_lookup_insert_ne.
        + done.
        + by apply R_grows.
        + done.
        + done.
        + by rewrite !filter_cons_False, !filter_nil. }
    destruct Hstep as (w1 & lss1 & d1 & lso1 & ds1 & Hn & Hs1 & Hlss1 & Ho1 & Hlso1 & Hoth1
                       & HL1 & Hkeep1 & Hg1 & Hds1 & Hf1).
    assert (Hhold1 : sources_hold input ps w1).
    { eapply hold_elsewhere; [exact Hhold|]. intros [k c] p ls' al Hin Hc. simpl in *.
      destruct (decide (c = s)) as [->|Hcs].
      - rewrite Hs in Hc. injection Hc as <- <- <-. by eexists _, _.
      - assert (c <> out).
        { intros ->. apply Hout. apply list_elem_of_fmap. by exists (k, out). }
        rewrite Hoth1 by done. by eexists _, _. }
    destruct (IH w1 lss1 d1 lso1 Hs1 Hlss1 Ho1 Hlso1 Hhold1)
      as (w2 & lss2 & d2 & lso2 & ds2 & Hdis & Hs2 & Hlss2 & Ho2 & Hlso2 & Hoth2
          & HL2 & Hkeep2 & Hg2 & Hds2 & Hf2).
    exists w2, lss2, d2, lso2, (ds1 ++ ds2). split_and!; try done.
    + unfold dispatch in *. simpl. by rewrite (bind_Ret _ _ _ _ _ Hn).
    + intros c Hc1 Hc2. by rewrite Hoth2, Hoth1.
    + intros [Heq|Hin]%elem_of_cons.
      * by apply Hkeep2, HL1.
      * by apply HL2.
    + intros Hd. by apply Hkeep2, Hkeep1.
    + by eapply heap_grows_trans.
    + by rewrite Hds2, Hds1, app_assoc.
    + rewrite filter_app, Hf1, Hf2. rewrite <- fmap_app. f_equal.
      by rewrite <- filter_app.
Qed.

End Rewrite.

(** A write to a source of a derived handle, whatever the combining
    function. *)
Lemma write_spec
    (call : fn -> jsvalue -> list jsvalue -> M mem jsvalue) (depth n : nat)
    (input : list (string * nat)) (cb : combiner)
    (R : list jsvalue -> list object -> jsvalue -> Prop)
    (out : nat) (ps : list jsvalue) (w : world) (j : nat) (k : string) (s : nat)
    (v' : jsvalue) :
  allocates_only call ->
  combines call (S depth) input cb R ->
  derived_with input cb out ps w ->
  input !! j = Some (k, s) ->
  primitive v' = true ->
  exists w' d' ds,
    Whispr.set call (S depth) (S (S n)) s v' w = Ret true w' /\
    _data <$> cell out w' = Some d' /\
    R (<[j:=v']> ps) (heap (memory w')) d' /\
    derived_with input cb out (<[j:=v']> ps) w' /\
    heap_grows (memory w) (memory w') /\
    delivered w' = delivered w ++ ds /\
    filter (fun x : nat * listener * jsvalue => x.1.2 = LFrom input cb out j) ds
    = [(s, LFrom input cb out j, v')].
Proof.
  intros Hcall Hcomb Hder Hj Hv'.
  pose proof Hder as (Hndk & Hnds & Hout & Hlen & Hsrc & d & lso & Hd & Hlso).
  assert (Hjlt : j < length ps).
  { rewrite Hlen. by eapply lookup_lt_Some. }
  destruct (lookup_lt_is_Some_2 ps j Hjlt) as [pj Hpj].
  destruct (Hsrc j k s pj Hj Hpj) as (_ & lss & Hs & Hlss).
  assert (Hsout : s <> out).
  { intros ->. apply Hout. apply list_elem_of_fmap. exists (k, out). split; [done|].
    by eapply list_elem_of_lookup_2. }
  set (L := LFrom input cb out j).
  set (ps' := <[j:=v']> ps).
  (* the write to the source *)
  unfold Whispr.set, Whispr.setter, Whispr.deref. rewrite Hs. cbn [alive].
  rewrite (set_unfold _ _ _ _ _ v' (memory w) (safeClone_primitive _ _ _ _ Hv')).
  cbv zeta. rewrite with_memory_id.
  set (w1 := update_cell s _ w).
  assert (Hh1 : handles w1 = <[s:=MkWhispr (MkObservable v' lss) true]> (handles w)).
  { unfold w1. by rewrite (update_cell_insert s _ w pj lss true). }
  assert (Hs1 : handles w1 !! s = Some (MkWhispr (MkObservable v' lss) true)).
  { rewrite Hh1. apply list_lookup_insert_eq. by eapply lookup_lt_Some. }
  assert (Ho1 : handles w1 !! out = Some (MkWhispr (MkObservable d lso) true)).
  { by rewrite Hh1, list_lookup_insert_ne. }
  rewrite (cell_lookup _ _ _ _ _ Hs1).
  change (default [] (listeners <$> Some (MkObservable v' lss))) with lss.
  (* what the handles hold from now on *)
  assert (Hafter : forall hs : list Whispr,
            (forall c, c <> s -> c <> out -> hs !! c = handles w !! c) ->
            forall lss', hs !! s = Some (MkWhispr (MkObservable v' lss') true) ->
            among_local L lss' ->
            forall i k' s' p,
              input !! i = Some (k', s') -> ps' !! i = Some p ->
              primitive p = true /\
              exists ls, hs !! s' = Some (MkWhispr (MkObservable p ls) true) /\
                         among_local (LFrom input cb out i) ls).
  { intros hs Hoth lss' Hhs Hlss' i k' s' p Hi Hp.
    destruct (decide (i = j)) as [->|Hne].
    - unfold ps' in Hp. rewrite list_lookup_insert_eq in Hp by done. injection Hp as <-.
      rewrite Hj in Hi. injection Hi as <- <-. split; [done|]. by exists lss'.
    - unfold ps' in Hp. rewrite list_lookup_insert_ne in Hp by done.
      destruct (Hsrc i k' s' p Hi Hp) as (Hprim & ls & Hs' & Hls).
      split; [done|]. exists ls. split; [|done]. rewrite Hoth; [done| |].
      + intros ->. apply Hne. eapply (NoDup_lookup input.*2); [done| |].
        * by rewrite list_lookup_fmap, Hi.
        * by rewrite list_lookup_fmap, Hj.
      + intros ->. apply Hout. apply list_elem_of_fmap. exists (k', out). split; [done|].
        by eapply list_elem_of_lookup_2. }
  assert (Hhold1 : sources_hold input ps' w1).
  { apply Forall2_same_length_lookup_2; [by unfold ps'; rewrite length_insert|].
    intros i [k' s'] p Hi Hp.
    destruct (Hafter (handles w1)) with (lss' := lss) (i := i) (k' := k') (s' := s') (p := p)
      as (? & ls & ? & _); try done.
    { intros c Hc _. by rewrite Hh1, list_lookup_insert_ne. }
    split; [done|]. by eexists _, _. }
  destruct (dispatch_recombines call (S depth) n Hcall input cb R out Hcomb j s v' ps' Hsout lss)
    with (w := w1) (lss := lss) (d := d) (lso := lso)
    as (w' & lss' & d' & lso' & ds & Hdis & Hs' & Hlss' & Ho' & Hlso' & Hoth' & HL & _
        & Hg & Hds & Hf);
    try done.
  { by destruct Hlss. }
  assert (HLin : L ∈ lss).
  { destruct Hlss as [Hfl _].
    assert (Hin : L ∈ filter (fun l => l = L) lss).
    { unfold L. rewrite Hfl. by apply list_elem_of_singleton. }
    by apply list_elem_of_filter in Hin as [_ ?]. }
  exists w', d', ds. split_and!.
  - by rewrite (bind_Ret _ _ _ _ _ Hdis).
  - by rewrite (cell_lookup _ _ _ _ _ Ho').
  - by apply HL.
  - split_and!; [done|done|done|by unfold ps'; rewrite length_insert| |].
    + eapply Hafter; [|done|done].
      intros c Hc1 Hc2. rewrite Hoth' by done. by rewrite Hh1, list_lookup_insert_ne.
    + by eexists _, _.
  - done.
  - done.
  - unfold L. rewrite Hf. destruct Hlss as [Hfl _]. by rewrite Hfl.
Qed.

(** *** The combining functions *)

Lemma combines_user call depth input f G :
  pure_combiner call f G ->
  NoDup input.*1 ->
  combines call (S depth) input (CUser f) (fun ps _ d => d = G (zip input.*1 ps)).
Proof.
  intros HG Hnd. split; [done|]. intros ps w Hhold.
  pose proof (getValue_reads_current call depth input f G ps w HG Hnd Hhold) as Hget.
  eexists _, _, _, _. split; [exact Hget|]. split_and!.
  - by exists [ORecord ProtoObject (zip input.*1 ps)].
  - apply safeClone_primitive, (proj2 HG).
  - apply heap_grows_refl.
  - done.
Qed.

Lemma combines_transform call depth h t F :
  pure_function call t F ->
  combines call (S depth) [("self", h)] (CTransform t)
           (fun ps _ d => exists p, ps = [p] /\ d = F p).
Proof.
  intros [HF HFp]. split; [done|]. intros ps w Hhold.
  pose proof Hhold as Hhold'.
  apply Forall2_cons_inv_l in Hhold' as (p & ps' & (Hp & _) & Hnil & ->).
  apply Forall2_nil_inv_l in Hnil as ->.
  pose proof (traverse_values call depth [("self", h)] [p] w Hhold) as Htr.
  exists (F p), (Mem (heap (memory w) ++ [ORecord ProtoObject [("self", p)]])
                     (console (memory w))), (F p),
         (Mem (heap (memory w) ++ [ORecord ProtoObject [("self", p)]])
              (console (memory w))).
  split_and!.
  - unfold Whispr.getValue. rewrite (bind_Ret _ _ _ _ _ Htr).
    unfold bind, lift, alloc. simpl. unfold lift, get. simpl.
    rewrite list_lookup_middle by done. simpl. by rewrite HF.
  - by exists [ORecord ProtoObject [("self", p)]].
  - by apply safeClone_primitive.
  - apply heap_grows_refl.
  - by exists p.
Qed.

(** The properties of a record that holds primitive values are cloned
    into the same list. *)
Lemma traverse_flat call k (props : list (string * jsvalue)) m :
  Forall (fun kv => primitive kv.2 = true) props ->
  traverse (fun kv => x <- safeClone call (S k) kv.2 ;; ret (kv.1, x)) props m = Ret props m.
Proof.
  induction 1 as [|[key v] props Hv _ IH]; [done|].
  eapply traverse_cons_Ret; [|exact IH]. simpl in *.
  by rewrite (bind_Ret _ _ _ _ _ (safeClone_primitive call k v m Hv)).
Qed.

Lemma assoc_elem {A} (k : string) (l : list (string * A)) x :
  assoc k l = Some x -> (k, x) ∈ l.
Proof.
  induction l as [|[k' y] l IH]; [done|]. simpl. case_decide as Hk.
  - intros [= ->]. subst k'. by left.
  - intros H. right. by apply IH.
Qed.

Lemma clone_flat_record call k a props m :
  heap m !! a = Some (ORecord ProtoObject props) ->
  Forall (fun kv => primitive kv.2 = true) props ->
  NoDup props.*1 ->
  safeClone call (S (S k)) (VRef a) m
  = Ret (VRef (length (heap m))) (Mem (heap m ++ [ORecord ProtoObject props]) (console m)).
Proof.
  intros Ha Hprim Hnd.
  assert (Hclone : is_function (heap m) (get_property ProtoObject props "clone") = None).
  { unfold get_property. destruct (assoc "clone" props) as [c|] eqn:Hc; [|done].
    apply assoc_elem in Hc. eapply Forall_forall in Hprim; [|exact Hc].
    simpl in Hprim. by destruct c. }
  cbn [safeClone]. rewrite Ha, Hclone. cbn [isLikelyClassInstance].
  rewrite (bind_Ret _ _ _ _ _ (traverse_flat call k props m Hprim)).
  by rewrite fromEntries_nodup.
Qed.

Lemma zip_primitive (keys : list string) (ps : list jsvalue) :
  Forall (fun p => primitive p = true) ps ->
  Forall (fun kv : string * jsvalue => primitive kv.2 = true) (zip keys ps).
Proof.
  intros H. revert keys. induction H as [|p ps Hp _ IH]; intros [|k keys]; simpl;
    constructor; auto.
Qed.

Lemma combines_consolidate call depth input :
  NoDup input.*1 ->
  combines call (S (S depth)) input CConsolidate
           (fun ps h d => exists a, d = VRef a /\
                                    h !! a = Some (ORecord ProtoObject (zip input.*1 ps))).
Proof.
  intros Hnd. split.
  { intros ps h h' d (a & -> & Ha). exists a. split; [done|]. by apply lookup_app_l_Some. }
  intros ps w Hhold.
  pose proof (traverse_values call (S depth) input ps w Hhold) as Htr.
  set (rec := zip input.*1 ps).
  assert (Hkeys : rec.*1 = input.*1).
  { apply fst_zip. rewrite length_fmap. by rewrite (Forall2_length _ _ _ Hhold). }
  assert (Hprim : Forall (fun kv : string * jsvalue => primitive kv.2 = true) rec).
  { apply zip_primitive. apply Forall_forall. intros p Hp.
    apply list_elem_of_lookup in Hp as (i & Hi).
    destruct (Forall2_lookup_r _ _ _ _ _ Hhold Hi) as (kv & _ & ? & _). done. }
  assert (Hndrec : NoDup rec.*1) by (by rewrite Hkeys).
  set (m1 := Mem (heap (memory w) ++ [ORecord ProtoObject rec]) (console (memory w))).
  exists (VRef (length (heap (memory w)))), m1,
         (VRef (length (heap m1))),
         (Mem (heap m1 ++ [ORecord ProtoObject rec]) (console m1)).
  split_and!.
  - unfold Whispr.getValue. rewrite (bind_Ret _ _ _ _ _ Htr).
    fold rec. rewrite (fromEntries_nodup _ Hndrec). done.
  - by exists [ORecord ProtoObject rec].
  - apply clone_flat_record; [|done|done].
    unfold m1. simpl. by rewrite list_lookup_middle.
  - by exists [ORecord ProtoObject rec].
  - exists (length (heap m1)). split; [done|]. simpl. by rewrite list_lookup_middle.
Qed.

(** What [from_spec] says of the sources is the state that a write to a
    source starts from. *)
Lemma from_spec_derived input cb out ps lss (w' : world) d :
  NoDup input.*1 -> NoDup input.*2 -> (out ∉ input.*2) ->
  length ps = length input -> length lss = length input ->
  Forall (fun p => primitive p = true) ps ->
  Forall (Forall (fun l => local l = true)) lss ->
  handles w' !! out = Some (MkWhispr (MkObservable d []) true) ->
  (forall i kv p ls,
     input !! i = Some kv -> ps !! i = Some p -> lss !! i = Some ls ->
     handles w' !! kv.2
     = Some (MkWhispr (MkObservable p (ls ++ [LFrom input cb out i])) true)) ->
  derived_with input cb out ps w'.
Proof.
  intros Hndk Hnds Hout Hlps Hllss Hprim Hlocal Ho Hsrc.
  split_and!; [done|done|done|done| |].
  - intros i k s p Hi Hp.
    destruct (lookup_lt_is_Some_2 lss i) as [ls Hls].
    { rewrite Hllss. by eapply lookup_lt_Some. }
    split; [by eapply Forall_lookup_1 in Hprim|].
    exists (ls ++ [LFrom input cb out i]).
    split; [by apply (Hsrc i (k, s) p ls)|].
    assert (Hls' : Forall (fun l => local l = true) ls) by (by eapply Forall_lookup_1 in Hlocal).
    split.
    + rewrite filter_app, filter_cons_True, filter_nil by done.
      replace (filter _ ls) with (@nil listener); [done|].
      symmetry. clear Hls. induction Hls' as [|l ls Hl _ IHl]; [done|].
      rewrite filter_cons_False; [done|]. intros ->. done.
    + apply Forall_app. split.
      * eapply Forall_impl; [exact Hls'|]. by right.
      * constructor; [by left|constructor].
  - by eexists _, _.
Qed.

Lemma ready_facts input ps lss w :
  sources_ready input ps lss w ->
  Forall (fun p => primitive p = true) ps /\
  Forall (Forall (fun l => local l = true)) lss /\
  (length (handles w) ∉ input.*2).
Proof.
  intros (Hlps & Hllss & Hsrc). split_and!.
  - apply Forall_lookup. intros i p Hp.
    destruct (lookup_lt_is_Some_2 input i) as [kv Hi].
    { rewrite <- Hlps. by eapply lookup_lt_Some. }
    destruct (lookup_lt_is_Some_2 lss i) as [ls Hls].
    { rewrite Hllss. by eapply lookup_lt_Some. }
    by destruct (Hsrc i kv p ls Hi Hp Hls).
  - apply Forall_lookup. intros i ls Hls.
    destruct (lookup_lt_is_Some_2 input i) as [kv Hi].
    { rewrite <- Hllss. by eapply lookup_lt_Some. }
    destruct (lookup_lt_is_Some_2 ps i) as [p Hp].
    { rewrite Hlps. by eapply lookup_lt_Some. }
    by destruct (Hsrc i kv p ls Hi Hp Hls) as (_ & ? & _).
  - intros (kv & Hkv & Hin)%list_elem_of_fmap.
    apply list_elem_of_lookup in Hin as (i & Hi).
    destruct (lookup_lt_is_Some_2 ps i) as [p Hp].
    { rewrite Hlps. by eapply lookup_lt_Some. }
    destruct (lookup_lt_is_Some_2 lss i) as [ls Hls].
    { rewrite Hllss. by eapply lookup_lt_Some. }
    destruct (Hsrc i kv p ls Hi Hp Hls) as (_ & _ & Hh).
    apply lookup_lt_Some in Hh. lia.
Qed.

(** X14.  [from] over sources that hold primitive values, with a
    combining function that is a pure function of the object it is
    passed, returns a new handle, alive and without listeners, that holds
    the combination of the values the sources hold.  Every source has the
    listener of [from] at the end of its list, once, behind the listeners
    it had, and that listener has been notified once with the value of
    its source, in the order of the dictionary; no other listener ran.
    The world is one where the handle is derived from [input]: the
    starting point of the writes to a source. *)
Theorem from_derives_a_handle
    (call : fn -> jsvalue -> list jsvalue -> M mem jsvalue) (depth n : nat)
    (input : list (string * nat)) (f : fn) (G : list (string * jsvalue) -> jsvalue)
    (ps : list jsvalue) (lss : list (list listener)) (w : world) :
  pure_combiner call f G ->
  NoDup input.*1 ->
  NoDup input.*2 ->
  sources_ready input ps lss w ->
  exists w',
    Whispr.from call (S depth) (S n) input (CUser f) w = Ret (length (handles w)) w' /\
    cell (length (handles w)) w' = Some (MkObservable (G (zip input.*1 ps)) []) /\
    derived_from input f (length (handles w)) ps w' /\
    (forall i kv ls,
       input !! i = Some kv -> lss !! i = Some ls ->
       listeners <$> cell kv.2 w'
       = Some (ls ++ [LFrom input (CUser f) (length (handles w)) i])) /\
    delivered w'
    = delivered w
      ++ imap (fun i (x : (string * nat) * jsvalue) =>
                 (x.1.2, LFrom input (CUser f) (length (handles w)) i, x.2))
              (zip input ps).
Proof.
  intros HG Hndk Hnds Hready.
  destruct (ready_facts _ _ _ _ Hready) as (Hprim & Hlocal & Hout).
  destruct (from_spec call (S depth) n input (CUser f) _ ps lss w
              (combines_user call depth input f G HG Hndk) Hnds Hready)
    as (w' & d & Hfrom & Ho & -> & Hsrc & _ & _ & _ & _ & Hd).
  destruct Hready as (Hlps & Hllss & _).
  exists w'. split_and!; [done|by eapply cell_lookup| | |done].
  - change (derived_with input (CUser f) (length (handles w)) ps w').
    by eapply from_spec_derived.
  - intros i kv ls Hi Hls.
    destruct (lookup_lt_is_Some_2 ps i) as [p Hp].
    { rewrite Hlps. by eapply lookup_lt_Some. }
    by rewrite (cell_lookup _ _ _ _ _ (Hsrc i kv p ls Hi Hp Hls)).
Qed.

Lemma two_cells_ready :
  sources_ready [("a", 0); ("b", 1)] [VNumber (Num 1); VNumber (Num 10)]
                [[]; [LUser Scenario.idle]] Cases.two_cells.
Proof.
  split_and!; [done|done|].
  intros [|[|i]] kv p ls; simpl; intros [= <-] [= <-] [= <-] || done;
    (split_and!; [done| |done]); repeat constructor.
Qed.

Lemma from_derives_a_handle_witness :
  exists w',
    Whispr.from Scenario.user 3 1 [("a", 0); ("b", 1)] (CUser Scenario.sum) Cases.two_cells
    = Ret (length (handles Cases.two_cells)) w' /\
    cell (length (handles Cases.two_cells)) w'
    = Some (MkObservable
              (Scenario.sum_of (zip [("a", 0); ("b", 1)].*1
                                    [VNumber (Num 1); VNumber (Num 10)])) []) /\
    derived_from [("a", 0); ("b", 1)] Scenario.sum (length (handles Cases.two_cells))
                 [VNumber (Num 1); VNumber (Num 10)] w' /\
    (forall i kv ls,
       [("a", 0); ("b", 1)] !! i = Some kv -> [[]; [LUser Scenario.idle]] !! i = Some ls ->
       listeners <$> cell kv.2 w'
       = Some (ls ++ [LFrom [("a", 0); ("b", 1)] (CUser Scenario.sum)
                            (length (handles Cases.two_cells)) i])) /\
    delivered w'
    = delivered Cases.two_cells
      ++ imap (fun i (x : (string * nat) * jsvalue) =>
                 (x.1.2,
                  LFrom [("a", 0); ("b", 1)] (CUser Scenario.sum)
                        (length (handles Cases.two_cells)) i,
                  x.2))
              (zip [("a", 0); ("b", 1)] [VNumber (Num 1); VNumber (Num 10)]).
Proof.
  apply (from_derives_a_handle Scenario.user 2 0 [("a", 0); ("b", 1)] Scenario.sum
           Scenario.sum_of [VNumber (Num 1); VNumber (Num 10)] [[]; [LUser Scenario.idle]]
           Cases.two_cells).
  - exact sum_is_pure.
  - apply (bool_decide_unpack _). by vm_compute.
  - apply (bool_decide_unpack _). by vm_compute.
  - exact two_cells_ready.
Defined.

(** The writes that follow a [transform]. *)
Lemma transform_writes
    (call : fn -> jsvalue -> list jsvalue -> M mem jsvalue) (depth n h : nat)
    (t : fn) (F : jsvalue -> jsvalue) (out : nat) (vs : list jsvalue) :
  allocates_only call ->
  pure_function call t F ->
  Forall (fun v => primitive v = true) vs ->
  forall p w,
    derived_with [("self", h)] (CTransform t) out [p] w ->
    _data <$> cell out w = Some (F p) ->
    exists w',
      foldM (fun _ v => Whispr.set call (S depth) (S (S n)) h v) vs true w = Ret true w' /\
      _data <$> cell h w' = Some (default p (last vs)) /\
      _data <$> cell out w' = Some (F (default p (last vs))).
Proof.
  intros Hcall HF. induction 1 as [|v vs Hv _ IH]; intros p w Hder Hout.
  - exists w. split_and!; [done| |done].
    destruct Hder as (_ & _ & _ & _ & Hsrc & _).
    destruct (Hsrc 0 "self" h p eq_refl eq_refl) as (_ & ls & Hh & _).
    by rewrite (cell_lookup _ _ _ _ _ Hh).
  - destruct (write_spec call depth n [("self", h)] (CTransform t) _ out [p] w 0 "self" h v
                Hcall (combines_transform call depth h t F HF) Hder eq_refl Hv)
      as (w1 & d1 & ds & Hset & Hd1 & (p1 & [= <-] & ->) & Hder1 & _).
    destruct (IH v w1 Hder1 Hd1) as (w2 & Hloop & Hh2 & Ho2).
    exists w2. cbn [foldM]. rewrite (bind_Ret _ _ _ _ _ Hset).
    assert (Hlast : default p (last (v :: vs)) = default v (last vs)).
    { rewrite last_cons. by destruct (last vs). }
    rewrite Hlast. done.
Qed.

(** X16.  [transform] with a pure function [F] returns a new handle
    that holds [F] of the value its source holds, and it puts one
    listener at the end of the list of the source.  From then on the
    new handle follows its source: after any sequence of writes of
    primitive values to the source, each of which returns [true], it
    holds [F] of the last value written. *)
Theorem transform_follows_its_source
    (call : fn -> jsvalue -> list jsvalue -> M mem jsvalue) (depth n h : nat)
    (t : fn) (F : jsvalue -> jsvalue) (p : jsvalue) (ls : list listener)
    (w : world) (vs : list jsvalue) :
  allocates_only call ->
  pure_function call t F ->
  handles w !! h = Some (MkWhispr (MkObservable p ls) true) ->
  primitive p = true ->
  Forall (fun l => local l = true) ls ->
  Forall (fun v => primitive v = true) vs ->
  exists w1 w2,
    Whispr.transform call (S depth) (S (S n)) h t w = Ret (length (handles w)) w1 /\
    cell (length (handles w)) w1 = Some (MkObservable (F p) []) /\
    listeners <$> cell h w1
    = Some (ls ++ [LFrom [("self", h)] (CTransform t) (length (handles w)) 0]) /\
    foldM (fun _ v => Whispr.set call (S depth) (S (S n)) h v) vs true w1 = Ret true w2 /\
    _data <$> cell h w2 = Some (default p (last vs)) /\
    _data <$> cell (length (handles w)) w2 = Some (F (default p (last vs))).
Proof.
  intros Hcall HF Hh Hp Hls Hvs.
  assert (Hready : sources_ready [("self", h)] [p] [ls] w).
  { split_and!; [done|done|]. by intros [|i] kv p' ls'; intros [= <-] [= <-] [= <-]. }
  destruct (ready_facts _ _ _ _ Hready) as (Hprim & Hlocal & Hout).
  assert (Hnds : NoDup [("self", h)].*2) by (apply NoDup_singleton).
  assert (Hndk : NoDup [("self", h)].*1) by (apply NoDup_singleton).
  destruct (from_spec call (S depth) (S n) [("self", h)] (CTransform t) _ [p] [ls] w
              (combines_transform call depth h t F HF) Hnds Hready)
    as (w1 & d & Hfrom & Ho & (p' & [= <-] & ->) & Hsrc & _).
  pose proof (from_spec_derived [("self", h)] (CTransform t) _ [p] [ls] w1 _
                Hndk Hnds Hout eq_refl eq_refl Hprim Hlocal Ho Hsrc) as Hder.
  destruct (transform_writes call depth n h t F _ vs Hcall HF Hvs p w1 Hder)
    as (w2 & Hloop & Hh2 & Ho2).
  { by rewrite (cell_lookup _ _ _ _ _ Ho). }
  exists w1, w2. split_and!; [done|by eapply cell_lookup| |done|done|done].
  pose proof (Hsrc 0 ("self", h) p ls eq_refl eq_refl eq_refl) as Hh1. cbn [snd] in Hh1.
  by rewrite (cell_lookup _ _ _ _ _ Hh1).
Qed.

Lemma calm_allocates_only : allocates_only Cases.calm.
Proof.
  intros f this args m.
  assert (H : exists x, Cases.calm f this args m = Ret x m).
  { unfold Cases.calm, ret. repeat case_match; by eexists. }
  destruct H as [x ->]. apply heap_grows_refl.
Qed.

Lemma number_test_is_pure : pure_function Cases.calm Cases.is_number Cases.number_test.
Proof. split; [done|]. by intros []. Qed.

Lemma transform_follows_its_source_witness :
  exists w1 w2,
    Whispr.transform Cases.calm 3 2 1 Cases.is_number Cases.two_cells
    = Ret (length (handles Cases.two_cells)) w1 /\
    cell (length (handles Cases.two_cells)) w1
    = Some (MkObservable (Cases.number_test (VNumber (Num 10))) []) /\
    listeners <$> cell 1 w1
    = Some ([LUser Scenario.idle]
            ++ [LFrom [("self", 1)] (CTransform Cases.is_number)
                      (length (handles Cases.two_cells)) 0]) /\
    foldM (fun _ v => Whispr.set Cases.calm 3 2 1 v) [VNumber (Num 3); VString "x"] true w1
    = Ret true w2 /\
    _data <$> cell 1 w2
    = Some (default (VNumber (Num 10)) (last [VNumber (Num 3); VString "x"])) /\
    _data <$> cell (length (handles Cases.two_cells)) w2
    = Some (Cases.number_test
              (default (VNumber (Num 10)) (last [VNumber (Num 3); VString "x"]))).
Proof.
  apply (transform_follows_its_source Cases.calm 2 0 1 Cases.is_number Cases.number_test
           (VNumber (Num 10)) [LUser Scenario.idle] Cases.two_cells
           [VNumber (Num 3); VString "x"]).
  - exact calm_allocates_only.
  - exact number_test_is_pure.
  - reflexivity.
  - reflexivity.
  - repeat constructor.
  - repeat constructor.
Defined.

(** X17.  [consolidate] over sources that hold primitive values returns
    a new handle, alive and without listeners, that holds a record of
    its own, with prototype [Object.prototype], whose properties are the
    keys of the dictionary, in their order, each with the value its
    source holds.  Every source has been notified once through the
    listener that [consolidate] put on it, and the world is one where
    the handle is derived from [input]. *)
Theorem consolidate_collects_the_sources
    (call : fn -> jsvalue -> list jsvalue -> M mem jsvalue) (depth n : nat)
    (input : list (string * nat)) (ps : list jsvalue) (lss : list (list listener))
    (w : world) :
  NoDup input.*1 ->
  NoDup input.*2 ->
  sources_ready input ps lss w ->
  exists w' a,
    Whispr.consolidate call (S (S depth)) (S n) input w = Ret (length (handles w)) w' /\
    cell (length (handles w)) w' = Some (MkObservable (VRef a) []) /\
    heap (memory w') !! a = Some (ORecord ProtoObject (zip input.*1 ps)) /\
    derived_with input CConsolidate (length (handles w)) ps w' /\
    delivered w'
    = delivered w
      ++ imap (fun i (x : (string * nat) * jsvalue) =>
                 (x.1.2, LFrom input CConsolidate (length (handles w)) i, x.2))
              (zip input ps).
Proof.
  intros Hndk Hnds Hready.
  destruct (ready_facts _ _ _ _ Hready) as (Hprim & Hlocal & Hout).
  destruct (from_spec call (S (S depth)) n input CConsolidate _ ps lss w
              (combines_consolidate call depth input Hndk) Hnds Hready)
    as (w' & d & Hfrom & Ho & (a & -> & Ha) & Hsrc & _ & _ & _ & _ & Hd).
  destruct Hready as (Hlps & Hllss & _).
  exists w', a. split_and!; [done|by eapply cell_lookup|done| |done].
  by eapply from_spec_derived.
Qed.

Lemma consolidate_collects_the_sources_witness :
  exists w' a,
    Whispr.consolidate Scenario.quiet 2 1 [("a", 0); ("b", 1)] Cases.two_cells
    = Ret (length (handles Cases.two_cells)) w' /\
    cell (length (handles Cases.two_cells)) w' = Some (MkObservable (VRef a) []) /\
    heap (memory w') !! a
    = Some (ORecord ProtoObject
              (zip [("a", 0); ("b", 1)].*1 [VNumber (Num 1); VNumber (Num 10)])) /\
    derived_with [("a", 0); ("b", 1)] CConsolidate (length (handles Cases.two_cells))
                 [VNumber (Num 1); VNumber (Num 10)] w' /\
    delivered w'
    = delivered Cases.two_cells
      ++ imap (fun i (x : (string * nat) * jsvalue) =>
                 (x.1.2,
                  LFrom [("a", 0); ("b", 1)] CConsolidate
                        (length (handles Cases.two_cells)) i,
                  x.2))
              (zip [("a", 0); ("b", 1)] [VNumber (Num 1); VNumber (Num 10)]).
Proof.
  apply (consolidate_collects_the_sources Scenario.quiet 0 0 [("a", 0); ("b", 1)]
           [VNumber (Num 1); VNumber (Num 10)] [[]; [LUser Scenario.idle]] Cases.two_cells).
  - apply (bool_decide_unpack _). by vm_compute.
  - apply (bool_decide_unpack _). by vm_compute.
  - exact two_cells_ready.
Defined.

(** X18.  A write of a primitive value to a source of a consolidated
    handle returns [true], and the handle then holds a record whose
    properties are the keys of the dictionary with the values the
    sources hold now: the value written under the key of that source,
    and what the other sources held under theirs.  The world is again
    one where the handle is derived from [input], for the next write. *)
Theorem consolidated_record_follows_a_write
    (call : fn -> jsvalue -> list jsvalue -> M mem jsvalue) (depth n : nat)
    (input : list (string * nat)) (out : nat) (ps : list jsvalue) (w : world)
    (j : nat) (k : string) (s : nat) (v' : jsvalue) :
  allocates_only call ->
  derived_with input CConsolidate out ps w ->
  input !! j = Some (k, s) ->
  primitive v' = true ->
  exists w' a,
    Whispr.set call (S (S depth)) (S (S n)) s v' w = Ret true w' /\
    _data <$> cell out w' = Some (VRef a) /\
    heap (memory w') !! a = Some (ORecord ProtoObject (zip input.*1 (<[j:=v']> ps))) /\
    derived_with input CConsolidate out (<[j:=v']> ps) w'.
Proof.
  intros Hcall Hder Hj Hv'.
  destruct (write_spec call (S depth) n input CConsolidate _ out ps w j k s v'
              Hcall (combines_consolidate call depth input (proj1 Hder)) Hder Hj Hv')
    as (w' & d' & ds & Hset & Hd' & (a & -> & Ha) & Hder' & _).
  by exists w', a.
Qed.

(** The world that [consolidate] made of the two cells is of that kind. *)
Lemma consolidated_derived :
  derived_with [("a", 0); ("b", 1)] CConsolidate 2 [VNumber (Num 1); VNumber (Num 10)]
               Cases.consolidated.
Proof.
  unfold derived_with. split_and!.
  - apply (bool_decide_unpack _). by vm_compute.
  - apply (bool_decide_unpack _). by vm_compute.
  - apply (bool_decide_unpack _). by vm_compute.
  - done.
  - intros [|[|i]] k s p; simpl; intros [= <- <-] [= <-] || done;
      (split; [done|]); eexists; (split; [done|]); by split; [|repeat constructor].
  - eexists _, _. by split.
Qed.

Lemma consolidated_record_follows_a_write_witness :
  exists w' a,
    Whispr.set Scenario.quiet 2 2 1 (VString "x") Cases.consolidated = Ret true w' /\
    _data <$> cell 2 w' = Some (VRef a) /\
    heap (memory w') !! a
    = Some (ORecord ProtoObject
              (zip [("a", 0); ("b", 1)].*1
                   (<[1:=VString "x"]> [VNumber (Num 1); VNumber (Num 10)]))) /\
    derived_with [("a", 0); ("b", 1)] CConsolidate 2
                 (<[1:=VString "x"]> [VNumber (Num 1); VNumber (Num 10)]) w'.
Proof.
  apply (consolidated_record_follows_a_write Scenario.quiet 0 0 [("a", 0); ("b", 1)] 2
           [VNumber (Num 1); VNumber (Num 10)] Cases.consolidated 1 "b" 1 (VString "x")).
  - exact quiet_allocates_only.
  - exact consolidated_derived.
  - reflexivity.
  - reflexivity.
Defined.

Section Dead.

Variable call : fn -> jsvalue -> list jsvalue -> M mem jsvalue.
Variable depth : nat.
Variable n : nat.
Hypothesis Htotal : total call.

Variable input : list (string * nat).
Variable f : fn.
Variable G : list (string * jsvalue) -> jsvalue.
Variable out : nat.
Hypothesis HG : pure_combiner call f G.
Hypothesis Hndk : NoDup input.*1.
Variable j : nat.
Variable s : nat.
Variable v' : jsvalue.
Variable ps : list jsvalue.
Variable dead : Whispr.
Hypothesis Hdead : alive dead = false.
Hypothesis Hsout : s <> out.

#[local] Abbreviation run := (Whispr.run_listener call (S depth) (S (S n))).
#[local] Abbreviation L := (LFrom input (CUser f) out j).



End Dead.



(** ** The map of handles

    [WhisprMap.create], [set], [delete], [refresh] and the getter
    [value], for maps whose items hold primitive values. *)

#[local] Arguments WhisprMap.run_listener : simpl never.

Lemma shared_extend h h' b : shared h b -> shared (h ++ h') b.
Proof. apply reify_extend. Qed.

Lemma shared_grows m m' b : heap_grows m m' -> shared (heap m) b -> shared (heap m') b.
Proof. intros [h' ->]. apply shared_extend. Qed.

Lemma shared_is_kept call k m b :
  shared (heap m) b -> safeClone call (S k) (VRef b) m = Ret (VRef b) m.
Proof.
  unfold shared. cbn [reify safeClone].
  destruct (heap m !! b) as [o|]; [|done].
  destruct o as [items|entries|items| | | | | | |p props]; try done.
  - by intros (? & _ & [=])%fmap_Some.
  - case_decide; [|done]. by intros (? & _ & [=])%fmap_Some.
  - case_decide; [|done]. by intros (? & _ & [=])%fmap_Some.
  - destruct (negb _); [done|].
    destruct (has_clone (heap m) p props) eqn:Hhc; [done|].
    rewrite (has_clone_false _ _ _ Hhc).
    destruct (isLikelyClassInstance (ORecord p props)); [done|].
    case_decide; [|done]. by intros (? & _ & [=])%fmap_Some.
Qed.

Lemma traverse_same {S A} (g : A -> M S A) (xs : list A) (s : S) :
  Forall (fun x => g x s = Ret x s) xs -> traverse g xs s = Ret xs s.
Proof.
  induction 1 as [|x xs Hx _ IH]; [done|]. by eapply traverse_cons_Ret.
Qed.

(** The clone of a Map whose keys are primitive and whose values are
    primitive or shared by identity: a new Map with the same entries. *)
Lemma clone_flat_map call k a es m :
  heap m !! a = Some (OMap es) ->
  NoDup es.*1 ->
  Forall (fun kv : jsvalue * jsvalue =>
            primitive kv.1 = true /\
            (primitive kv.2 = true \/ exists b, kv.2 = VRef b /\ shared (heap m) b)) es ->
  safeClone call (S (S k)) (VRef a) m
  = Ret (VRef (length (heap m))) (Mem (heap m ++ [OMap es]) (console m)).
Proof.
  intros Ha Hnd Hes.
  assert (Hstep : safeClone call (S (S k)) (VRef a) m
                  = (es' <- foldM (fun newMap kv =>
                                     k' <- safeClone call (S k) kv.1 ;;
                                     x <- safeClone call (S k) kv.2 ;;
                                     ret (map_set newMap k' x)) es [] ;;
                     alloc (OMap es')) m).
  { remember (S k) as n. cbn [safeClone]. by rewrite Ha. }
  rewrite Hstep. unfold bind at 1. rewrite foldM_map_set.
  assert (Htr : traverse (fun kv : jsvalue * jsvalue =>
                            k' <- safeClone call (S k) kv.1 ;;
                            x <- safeClone call (S k) kv.2 ;; ret (k', x)) es m
                = Ret es m).
  { apply traverse_same. eapply Forall_impl; [exact Hes|].
    intros [key x] [Hk Hx]. simpl in *.
    rewrite (bind_Ret _ _ _ _ _ (safeClone_primitive call k key m Hk)).
    destruct Hx as [Hx|(b & -> & Hb)].
    - by rewrite (bind_Ret _ _ _ _ _ (safeClone_primitive call k x m Hx)).
    - by rewrite (bind_Ret _ _ _ _ _ (shared_is_kept call k m b Hb)). }
  rewrite (bind_Ret _ _ _ _ _ Htr). unfold ret.
  by rewrite fold_map_set_nodup.
Qed.

Lemma item_entries_keys items : (item_entries items).*1 = items.*1.
Proof. unfold item_entries. rewrite <- list_fmap_compose. done. Qed.

Lemma notify_ext (run1 run2 : listener -> jsvalue -> M world jsvalue) c l w :
  (forall v w', run1 l v w' = run2 l v w') ->
  Observable.notify run1 c l w = Observable.notify run2 c l w.
Proof. intros H. unfold Observable.notify. destruct (cell c w); [|done]. by rewrite H. Qed.

Lemma dispatch_ext (run1 run2 : listener -> jsvalue -> M world jsvalue) c ls :
  Forall (fun l => forall v w', run1 l v w' = run2 l v w') ls ->
  forall w, dispatch run1 c ls w = dispatch run2 c ls w.
Proof.
  induction 1 as [|l ls Hl _ IH]; intros w; [done|].
  unfold dispatch in *. cbn [foldM]. unfold bind.
  rewrite (notify_ext run1 run2 c l w Hl).
  destruct (Observable.notify run2 c l w) as [[] w1| |]; [|done..]. apply IH.
Qed.

Lemma item_entries_set items key b :
  map_set (item_entries items) key (VRef b) = item_entries (item_set items key b).
Proof.
  induction items as [|[k' b'] items IH]; [done|].
  cbn [item_entries fmap list_fmap item_set map_set fst snd].
  case_decide; [done|]. cbn [fmap list_fmap fst snd]. f_equal. apply IH.
Qed.

Lemma item_set_keys items key b :
  (item_set items key b).*1 = if decide (key ∈ items.*1) then items.*1 else items.*1 ++ [key].
Proof.
  induction items as [|[k' b'] items IH]; [done|].
  cbn [item_set fmap list_fmap fst]. destruct (decide (key = k')) as [->|Hk].
  - rewrite decide_True by (by left). done.
  - cbn [fmap list_fmap fst]. rewrite IH.
    destruct (decide (key ∈ items.*1)) as [Hin|Hout].
    + rewrite decide_True by (by right). done.
    + rewrite decide_False; [done|]. intros [?|?]%elem_of_cons; done.
Qed.

Lemma item_set_NoDup items key b : NoDup items.*1 -> NoDup (item_set items key b).*1.
Proof.
  intros Hnd. rewrite item_set_keys. case_decide as Hk; [done|].
  apply NoDup_app. split_and!; [done| |apply NoDup_singleton].
  intros x Hx ->%list_elem_of_singleton. done.
Qed.

Lemma item_set_Forall (P : jsvalue * addr -> Prop) items key b :
  Forall P items -> P (key, b) -> Forall P (item_set items key b).
Proof.
  intros Hall Hnew. induction Hall as [|[k' b'] items Hk Hall IH]; cbn [item_set].
  - by constructor.
  - destruct (decide (key = k')); by constructor.
Qed.

Lemma item_entries_filter items key :
  filter (fun kv : jsvalue * jsvalue => kv.1 <> key) (item_entries items)
  = item_entries (filter (fun kb : jsvalue * addr => kb.1 <> key) items).
Proof.
  induction items as [|[k' b'] items IH]; [done|].
  cbn [item_entries fmap list_fmap]. rewrite !filter_cons. cbn [fst snd].
  case_decide; [|done]. cbn [item_entries fmap list_fmap fst snd]. f_equal. apply IH.
Qed.

Lemma Forall_filter_keeps {A} (P : A -> Prop) (Q : A -> Prop) `{!forall x, Decision (Q x)}
      (l : list A) :
  Forall P l -> Forall P (filter Q l).
Proof.
  rewrite !Forall_forall. intros Hall x [_ Hx]%list_elem_of_filter. by apply Hall.
Qed.

Section Maps.

Variable call : fn -> jsvalue -> list jsvalue -> M mem jsvalue.
Variable depth : nat.
Variable handle_at : addr -> option nat.
Variable type_error : jsvalue -> string -> object.
Variable closure : WhisprMap.t -> fn.
Variable maps : fn -> option WhisprMap.t.
Hypothesis Hcall : allocates_only call.
Variable wm : WhisprMap.t.
Hypothesis Hmaps : maps (closure wm) = Some wm.

#[local] Abbreviation run := (WhisprMap.run_listener call (S (S depth)) handle_at type_error maps).
#[local] Abbreviation holds := (map_holds handle_at closure maps wm).
#[local] Abbreviation frame := (map_frame handle_at closure maps wm).
#[local] Abbreviation subscribed := (map_subscribed handle_at closure wm).
#[local] Abbreviation right := (mapped_right handle_at wm).
#[local] Abbreviation ours := (map_listener closure maps wm).
#[local] Abbreviation item := (map_item handle_at closure maps wm).
#[local] Abbreviation admits := (map_admits handle_at closure maps wm).

Lemma plain_local l : plain maps l = true -> local l = true.
Proof. by destruct l. Qed.

Lemma run_plain n l v w :
  plain maps l = true ->
  run (S n) l v w = Whispr.run_listener call (S (S depth)) (S n) l v w.
Proof.
  destruct l as [f|cb p|]; [| |done].
  - intros Hf%bool_decide_eq_true. unfold WhisprMap.run_listener, Whispr.run_listener.
    by rewrite Hf.
  - done.
Qed.

(** The walk of a write over plain listeners. *)
Lemma dispatch_plain n c ls :
  Forall (fun l => plain maps l = true) ls ->
  forall w d ls0 al,
    handles w !! c = Some (MkWhispr (MkObservable d ls0) al) ->
    exists w' ls1,
      dispatch (run (S n)) c ls w = Ret tt w' /\
      delivered w' = delivered w ++ ((fun l => (c, l, d)) <$> ls) /\
      handles w' = <[c:=MkWhispr (MkObservable d ls1) al]> (handles w) /\
      (forall l, l ∈ ls1 -> l ∈ ls0) /\
      (forall l, l ∈ ls0 -> l ∉ ls1 -> l ∈ ls) /\
      heap_grows (memory w) (memory w').
Proof.
  intros Hls w d ls0 al Hc.
  assert (Hloc : Forall (fun l => local l = true) ls).
  { eapply Forall_impl; [exact Hls|]. apply plain_local. }
  rewrite (dispatch_ext _ (Whispr.run_listener call (S (S depth)) (S n)) c ls).
  2:{ eapply Forall_impl; [exact Hls|]. intros l Hl v w'. by apply run_plain. }
  destruct (dispatch_local call (S (S depth)) n c ls (allocates_only_total _ Hcall) Hloc
              w d ls0 al Hc) as (w' & ls1 & Hd & Hdel & Hh & Hsub & Hrem).
  exists w', ls1. split_and!; [done..| |].
  - intros l Hin Hout. by destruct (Hrem l Hin Hout).
  - by eapply dispatch_local_grows.
Qed.


(** The values that the handles of the items hold. *)
Lemma holds_values items w :
  holds items w ->
  exists ps,
    Forall2 (fun (kb : jsvalue * addr) p =>
               primitive p = true /\
               exists h ls al,
                 handle_at kb.2 = Some h /\
                 h <> WhisprMap.mappedData wm /\
                 handles w !! h = Some (MkWhispr (MkObservable p ls) al)) items ps.
Proof.
  intros (_ & _ & _ & _ & Hitems). induction Hitems as [|kb items Hkb _ [ps IH]].
  - by exists [].
  - destruct Hkb as (_ & _ & h & p & ls & al & Hh & _ & Hn & Hc & Hp & _).
    exists (p :: ps). constructor; [|done]. split; [done|]. by exists h, ls, al.
Qed.

(** The loop of [refresh] over the entries. *)
Lemma refresh_loop (items : list (jsvalue * addr)) ps w :
  Forall2 (fun (kb : jsvalue * addr) p =>
             primitive p = true /\
             exists h ls al,
               handle_at kb.2 = Some h /\
               handles w !! h = Some (MkWhispr (MkObservable p ls) al)) items ps ->
  forall acc,
    foldM (fun acc kv =>
             x <- WhisprMap.item_value call (S (S depth)) handle_at type_error kv.2 ;;
             ret (map_set acc kv.1 x)) (item_entries items) acc w
    = Ret (fold_left (fun a p => map_set a p.1 p.2) (zip items.*1 ps) acc) w.
Proof.
  induction 1 as [|[key b] p items ps (Hp & h & ls & al & Hh & Hc) _ IH]; intros acc; [done|].
  cbn [item_entries fmap list_fmap foldM fst snd zip zip_with fold_left].
  assert (Hv : WhisprMap.item_value call (S (S depth)) handle_at type_error (VRef b) w = Ret p w).
  { unfold WhisprMap.item_value, WhisprMap.handle_of. cbn [snd] in Hh. rewrite Hh.
    by apply (value_primitive call (S depth) h w p ls al). }
  assert (Hstep : (x <- WhisprMap.item_value call (S (S depth)) handle_at type_error (VRef b) ;;
                   ret (map_set acc key x)) w = Ret (map_set acc key p) w).
  { by rewrite (bind_Ret _ _ _ _ _ Hv). }
  rewrite (bind_Ret _ _ _ _ _ Hstep). apply IH.
Qed.

Lemma holds_entries_flat items w :
  holds items w ->
  Forall (fun kv : jsvalue * jsvalue =>
            primitive kv.1 = true /\
            (primitive kv.2 = true \/ exists b, kv.2 = VRef b /\ shared (heap (memory w)) b))
         (item_entries items).
Proof.
  intros (_ & _ & _ & _ & Hitems). unfold item_entries. apply Forall_fmap.
  eapply Forall_impl; [exact Hitems|]. intros [key b] (Hk & Hs & _). simpl.
  split; [done|]. right. by exists b.
Qed.

Lemma zip_flat (keys ps : list jsvalue) :
  Forall (fun k => primitive k = true) keys ->
  Forall (fun p => primitive p = true) ps ->
  forall h : list object,
  Forall (fun kv : jsvalue * jsvalue =>
            primitive kv.1 = true /\
            (primitive kv.2 = true \/ exists b, kv.2 = VRef b /\ shared h b))
         (zip keys ps).
Proof.
  intros Hk. revert ps. induction Hk as [|k keys Hk _ IH]; intros ps Hps h; [constructor|].
  destruct Hps as [|p ps Hp Hps]; [constructor|].
  constructor; [by split; [|left]|by apply IH].
Qed.

(** A world in which the frame of a map holds still holds it when
    the heap has grown, [mappedData] has other plain listeners and
    another value, and the other handles are as they were. *)
Lemma holds_kept items w w' :
  holds items w ->
  heap_grows (memory w) (memory w') ->
  (forall c, c <> WhisprMap.mappedData wm -> handles w' !! c = handles w !! c) ->
  (exists d lsm,
     handles w' !! WhisprMap.mappedData wm = Some (MkWhispr (MkObservable d lsm) true) /\
     Forall (fun l => plain maps l = true) lsm) ->
  holds items w'.
Proof.
  intros (Hne & Hnd & (a & Hd & Ha) & _ & Hitems) Hg Hoth Hm.
  split_and!; [done|done| |done|].
  - exists a. rewrite Hoth by done. split; [done|].
    destruct Hg as [h' ->]. by apply lookup_app_l_Some.
  - eapply Forall_impl; [exact Hitems|].
    intros kb (Hk & Hs & h & p & ls & al & Hh & Hn1 & Hn2 & Hc & Hp & Hls).
    split; [done|]. split; [by eapply shared_grows|].
    exists h, p, ls, al. by rewrite Hoth.
Qed.

(** [refresh]: the value of [mappedData] is made anew from what the
    items hold, and the listeners of [mappedData] are notified. *)
Lemma refresh_spec n items w :
  holds items w ->
  exists w' c lsm,
    WhisprMap.refresh call (S (S depth)) handle_at type_error (run (S n)) wm w = Ret tt w' /\
    holds items w' /\ right items w' /\
    (forall c', c' <> WhisprMap.mappedData wm -> handles w' !! c' = handles w !! c') /\
    heap_grows (memory w) (memory w') /\
    listeners <$> cell (WhisprMap.mappedData wm) w = Some lsm /\
    delivered w' = delivered w ++ ((fun l => (WhisprMap.mappedData wm, l, VRef c)) <$> lsm).
Proof.
  intros Hf. pose proof Hf as (Hne & Hnd & (a & Hd & Ha) & (d0 & lsm & Hm & Hlsm) & Hitems).
  destruct (holds_values _ _ Hf) as [ps Hps].
  assert (Hlen : length items.*1 = length ps).
  { rewrite length_fmap. by eapply Forall2_length. }
  assert (Hkeys : (zip items.*1 ps).*1 = items.*1) by (by apply fst_zip; lia).
  (* the clone of the Map of handles *)
  set (m1 := Mem (heap (memory w) ++ [OMap (item_entries items)]) (console (memory w))).
  assert (Hread : Whispr.value call (S (S depth)) (WhisprMap.data wm) w
                  = Ret (VRef (length (heap (memory w)))) (with_memory m1 w)).
  { unfold Whispr.value, Observable.value. rewrite (cell_lookup _ _ _ _ _ Hd).
    unfold lift. cbn [_data].
    rewrite (clone_flat_map call depth a (item_entries items) (memory w) Ha); [done| |].
    - by rewrite item_entries_keys.
    - by eapply holds_entries_flat. }
  (* the new Map *)
  set (w1 := with_memory m1 w).
  assert (Hentries : map_entries (memory w1) (VRef (length (heap (memory w))))
                     = item_entries items).
  { unfold map_entries, w1, m1. simpl. by rewrite list_lookup_middle. }
  assert (Hloop : foldM (fun acc kv =>
                           x <- WhisprMap.item_value call (S (S depth)) handle_at type_error kv.2 ;;
                           ret (map_set acc kv.1 x)) (item_entries items) [] w1
                  = Ret (zip items.*1 ps) w1).
  { rewrite (refresh_loop items ps w1); cycle 1.
    { eapply Forall2_impl; [exact Hps|].
      intros kb p (Hp & h & ls & al & Hh & _ & Hc). split; [done|]. by exists h, ls, al. }
    rewrite fold_map_set_nodup; [done|]. cbn [app]. by rewrite Hkeys. }
  set (m2 := Mem (heap m1 ++ [OMap (zip items.*1 ps)]) (console m1)).
  set (w2 := with_memory m2 w1).
  (* the write to [mappedData] *)
  assert (Hprim : Forall (fun p => primitive p = true) ps).
  { apply Forall_forall. intros p Hp. apply list_elem_of_lookup in Hp as (i & Hi).
    destruct (Forall2_lookup_r _ _ _ _ _ Hps Hi) as (kb & _ & ? & _). done. }
  assert (Hkprim : Forall (fun k => primitive k = true) items.*1).
  { apply Forall_fmap. eapply Forall_impl; [exact Hitems|]. by intros kb (? & _). }
  set (m3 := Mem (heap m2 ++ [OMap (zip items.*1 ps)]) (console m2)).
  assert (Hclone : safeClone call (S (S depth)) (VRef (length (heap m1))) (memory w2)
                   = Ret (VRef (length (heap m2))) m3).
  { apply clone_flat_map.
    - unfold w2, m2. simpl. by rewrite list_lookup_middle.
    - by rewrite Hkeys.
    - by apply zip_flat. }
  set (c := length (heap m2)).
  set (w3 := update_cell (WhisprMap.mappedData wm) (fun o => MkObservable (VRef c) (listeners o))
                         (with_memory m3 w2)).
  assert (Hh3 : handles w3
                = <[WhisprMap.mappedData wm:=MkWhispr (MkObservable (VRef c) lsm) true]>
                    (handles w)).
  { unfold w3. by rewrite (update_cell_insert _ _ _ d0 lsm true). }
  assert (Hc3 : handles w3 !! WhisprMap.mappedData wm
                = Some (MkWhispr (MkObservable (VRef c) lsm) true)).
  { rewrite Hh3. apply list_lookup_insert_eq. by eapply lookup_lt_Some. }
  destruct (dispatch_plain n (WhisprMap.mappedData wm) lsm Hlsm w3 (VRef c) lsm true Hc3)
    as (w4 & lsm4 & Hdis & Hdel4 & Hh4 & Hsub4 & _ & Hg4).
  assert (Hset : Whispr.setter call (S (S depth)) (run (S n)) (WhisprMap.mappedData wm)
                   (VRef (length (heap m1))) w2 = Ret true w4).
  { unfold Whispr.setter, Whispr.deref.
    change (handles w2) with (handles w). rewrite Hm. cbn [alive].
    rewrite (set_unfold call (S (S depth)) _ _ w2 _ m3 Hclone). cbv zeta. fold c. fold w3.
    rewrite (cell_lookup _ _ _ _ _ Hc3).
    change (default [] (listeners <$> Some (MkObservable (VRef c) lsm))) with lsm.
    by rewrite (bind_Ret _ _ _ _ _ Hdis). }
  assert (Hgrow : heap_grows (memory w) (memory w4)).
  { eapply heap_grows_trans; [|exact Hg4].
    exists ([OMap (item_entries items)] ++ [OMap (zip items.*1 ps)] ++ [OMap (zip items.*1 ps)]).
    unfold w3, m3, m2, m1. simpl. by rewrite <- !app_assoc. }
  assert (Hoth : forall c', c' <> WhisprMap.mappedData wm ->
                            handles w4 !! c' = handles w !! c').
  { intros c' Hc'. by rewrite Hh4, Hh3, !list_lookup_insert_ne. }
  assert (Hm4 : handles w4 !! WhisprMap.mappedData wm
                = Some (MkWhispr (MkObservable (VRef c) lsm4) true)).
  { rewrite Hh4. apply list_lookup_insert_eq. rewrite Hh3, length_insert.
    by eapply lookup_lt_Some. }
  exists w4, c, lsm. split_and!.
  - unfold WhisprMap.refresh. rewrite (bind_Ret _ _ _ _ _ Hread). fold w1.
    assert (Hl : (fun w0 : world =>
                    foldM (fun acc kv =>
                             x <- WhisprMap.item_value call (S (S depth)) handle_at type_error kv.2 ;;
                             ret (map_set acc kv.1 x))
                          (map_entries (memory w0) (VRef (length (heap (memory w))))) [] w0) w1
                 = Ret (zip items.*1 ps) w1).
    { cbv beta. by rewrite Hentries. }
    rewrite (bind_Ret _ _ _ _ _ Hl).
    assert (Hal : lift (alloc (OMap (zip items.*1 ps))) w1 = Ret (VRef (length (heap m1))) w2).
    { done. }
    rewrite (bind_Ret _ _ _ _ _ Hal).
    by rewrite (bind_Ret _ _ _ _ _ Hset).
  - eapply holds_kept; [exact Hf|done|done|].
    exists (VRef c), lsm4. split; [done|].
    apply Forall_forall. intros l Hl. apply Hsub4 in Hl.
    by eapply Forall_forall in Hlsm.
  - exists c, ps. split_and!.
    + by rewrite (cell_lookup _ _ _ _ _ Hm4).
    + destruct Hg4 as [h' ->]. apply lookup_app_l_Some.
      unfold w3, m3. simpl. by rewrite list_lookup_middle.
    + eapply Forall2_impl; [exact Hps|].
      intros kb p (_ & h & ls & al & Hh & Hneq & Hc).
      exists h. split; [done|].
      unfold cell. rewrite Hoth by done. by rewrite Hc.
  - done.
  - done.
  - by rewrite (cell_lookup _ _ _ _ _ Hm).
  - rewrite Hdel4. done.
Qed.


Lemma run_closure n v w w' :
  WhisprMap.refresh call (S (S depth)) handle_at type_error (run (S n)) wm w = Ret tt w' ->
  run (S (S n)) (LUser (closure wm)) v w = Ret VUndefined w'.
Proof.
  intros H.
  change (run (S (S n)) (LUser (closure wm)) v w)
    with (match maps (closure wm) with
          | Some wm' => _ <- WhisprMap.refresh call (S (S depth)) handle_at type_error (run (S n)) wm' ;;
                        ret VUndefined
          | None => lift (call (closure wm) VUndefined [v])
          end w).
  rewrite Hmaps. by rewrite (bind_Ret _ _ _ _ _ H).
Qed.

(** The frame of a map depends on the heap and the handles only, and
    holds on when the heap grows and the handles that are neither [data]
    nor [mappedData] keep a primitive value and listeners of the same
    kind. *)
Lemma holds_change items w w' :
  holds items w ->
  heap_grows (memory w) (memory w') ->
  handles w' !! WhisprMap.data wm = handles w !! WhisprMap.data wm ->
  (exists d lsm,
     handles w' !! WhisprMap.mappedData wm = Some (MkWhispr (MkObservable d lsm) true) /\
     Forall (fun l => plain maps l = true) lsm) ->
  (forall h p ls al,
     h <> WhisprMap.data wm -> h <> WhisprMap.mappedData wm ->
     handles w !! h = Some (MkWhispr (MkObservable p ls) al) ->
     primitive p = true -> Forall ours ls ->
     exists p' ls' al',
       handles w' !! h = Some (MkWhispr (MkObservable p' ls') al') /\
       primitive p' = true /\ Forall ours ls') ->
  holds items w'.
Proof.
  intros (Hne & Hnd & (a & Hd & Ha) & _ & Hitems) Hg Hdata Hm Hoth.
  split_and!; [done|done| |done|].
  - exists a. rewrite Hdata. split; [done|].
    destruct Hg as [h' ->]. by apply lookup_app_l_Some.
  - eapply Forall_impl; [exact Hitems|].
    intros kb (Hk & Hs & h & p & ls & al & Hh & Hn1 & Hn2 & Hc & Hp & Hls).
    split; [done|]. split; [by eapply shared_grows|].
    destruct (Hoth h p ls al Hn1 Hn2 Hc Hp Hls) as (p' & ls' & al' & Hc' & Hp' & Hls').
    by exists h, p', ls', al'.
Qed.

(** What [mappedData] holds stays right when the heap grows and the
    handles keep their values. *)
Lemma right_kept items w w' :
  right items w ->
  heap_grows (memory w) (memory w') ->
  (forall c, _data <$> cell c w' = _data <$> cell c w) ->
  right items w'.
Proof.
  intros (c & ps & Hc & Hh & Hps) [h' Hg] Hsame. exists c, ps. split_and!.
  - by rewrite Hsame.
  - rewrite Hg. by apply lookup_app_l_Some.
  - eapply Forall2_impl; [exact Hps|]. intros kb p (h & Hh' & Hv).
    exists h. split; [done|]. by rewrite Hsame.
Qed.

Lemma holds_delivered items w ds :
  holds items w -> holds items (with_delivered ds w).
Proof. by destruct w. Qed.

(** A notification of the closure of the map refreshes the map. *)
Lemma notify_closure n c items w d ls al :
  holds items w ->
  handles w !! c = Some (MkWhispr (MkObservable d ls) al) ->
  exists w',
    Observable.notify (run (S (S n))) c (LUser (closure wm)) w = Ret tt w' /\
    holds items w' /\ right items w' /\
    (forall c', c' <> WhisprMap.mappedData wm -> handles w' !! c' = handles w !! c') /\
    heap_grows (memory w) (memory w').
Proof.
  intros Hf Hc.
  set (w0 := with_delivered (delivered w ++ [(c, LUser (closure wm), d)]) w).
  destruct (refresh_spec n items w0 (holds_delivered _ _ _ Hf))
    as (w' & cm & lsm & Hr & Hf' & Hr' & Hoth & Hg & _).
  exists w'. split_and!; [|done..].
  unfold Observable.notify. rewrite (cell_lookup _ _ _ _ _ Hc). cbn [_data]. fold w0.
  rewrite (run_closure n d w0 w' Hr). by cbn.
Qed.

Lemma dispatch_cons (r : listener -> jsvalue -> M world jsvalue) c l ls w w1 :
  Observable.notify r c l w = Ret tt w1 ->
  dispatch r c (l :: ls) w = dispatch r c ls w1.
Proof. intros H. unfold dispatch. cbn [foldM]. by rewrite (bind_Ret _ _ _ _ _ H). Qed.

Lemma dispatch_one (r : listener -> jsvalue -> M world jsvalue) c l w w1 :
  dispatch r c [l] w = Ret tt w1 -> Observable.notify r c l w = Ret tt w1.
Proof.
  unfold dispatch. cbn [foldM]. unfold bind.
  destruct (Observable.notify r c l w) as [[] w2| |]; [|done..]. done.
Qed.

(** The walk of a write over the listeners of a handle that a map may
    hold: the closure of the map refreshes the map, the others are
    plain. *)
Lemma dispatch_item n h items ls :
  Forall ours ls ->
  h <> WhisprMap.data wm -> h <> WhisprMap.mappedData wm ->
  forall w d ls0 al,
    holds items w ->
    primitive d = true ->
    Forall ours ls0 ->
    handles w !! h = Some (MkWhispr (MkObservable d ls0) al) ->
    exists w' ls1,
      dispatch (run (S (S n))) h ls w = Ret tt w' /\
      holds items w' /\
      (LUser (closure wm) ∈ ls \/ right items w -> right items w') /\
      handles w' !! h = Some (MkWhispr (MkObservable d ls1) al) /\
      Forall ours ls1 /\
      (LUser (closure wm) ∈ ls0 -> LUser (closure wm) ∈ ls1) /\
      (forall c', c' <> WhisprMap.mappedData wm -> c' <> h ->
                  handles w' !! c' = handles w !! c') /\
      heap_grows (memory w) (memory w').
Proof.
  intros Hls Hn1 Hn2. induction Hls as [|l ls Hl _ IH]; intros w d ls0 al Hf Hd Hls0 Hc.
  - exists w, ls0.
    split_and!; [done|done| |done|done|done|done|by exists []; rewrite app_nil_r].
    intros [[]%not_elem_of_nil|]; done.
  - destruct Hl as [->|Hl].
    + destruct (notify_closure n h items w d ls0 al Hf Hc) as (w1 & Hn & Hf1 & Hr1 & Hoth1 & Hg1).
      assert (Hc1 : handles w1 !! h = Some (MkWhispr (MkObservable d ls0) al)).
      { by rewrite Hoth1. }
      destruct (IH w1 d ls0 al Hf1 Hd Hls0 Hc1)
        as (w' & ls1 & Hdis & Hf' & Hr' & Hc' & Hls1 & Hin' & Hoth' & Hg').
      exists w', ls1. rewrite (dispatch_cons _ _ _ _ _ _ Hn).
      split_and!; [done|done| |done|done|done| |by eapply heap_grows_trans].
      * intros _. apply Hr'. by right.
      * intros c' Hc'1 Hc'2. rewrite Hoth' by done. by apply Hoth1.
    + assert (Hl1 : Forall (fun l => plain maps l = true) [l]) by (by constructor).
      assert (Hlc : l <> LUser (closure wm)).
      { intros ->. simpl in Hl. rewrite Hmaps in Hl. by apply bool_decide_eq_true in Hl. }
      destruct (dispatch_plain (S n) h [l] Hl1 w d ls0 al Hc)
        as (w1 & ls1 & Hdis1 & _ & Hh1 & Hsub1 & Hrem1 & Hg1).
      apply dispatch_one in Hdis1.
      assert (Hc1 : handles w1 !! h = Some (MkWhispr (MkObservable d ls1) al)).
      { rewrite Hh1. apply list_lookup_insert_eq. by eapply lookup_lt_Some. }
      assert (Hls1 : Forall ours ls1).
      { apply Forall_forall. intros l' Hl'. apply Hsub1 in Hl'.
        by eapply Forall_forall in Hls0. }
      assert (Hin1 : LUser (closure wm) ∈ ls0 -> LUser (closure wm) ∈ ls1).
      { intros Hin. destruct (decide (LUser (closure wm) ∈ ls1)) as [|Hout]; [done|].
        apply (Hrem1 _ Hin) in Hout. apply list_elem_of_singleton in Hout. by subst l. }
      assert (Hf1 : holds items w1).
      { eapply holds_change; [exact Hf|done| | |].
        - by rewrite Hh1, list_lookup_insert_ne.
        - destruct Hf as (_ & _ & _ & (d0 & lsm & Hm & Hlsm) & _).
          exists d0, lsm. by rewrite Hh1, list_lookup_insert_ne.
        - intros h' p ls' al' _ _ Hh' Hp Hls'.
          destruct (decide (h' = h)) as [->|Hne].
          + rewrite Hc in Hh'. injection Hh' as <- <- <-. by exists d, ls1, al.
          + exists p, ls', al'. by rewrite Hh1, list_lookup_insert_ne. }
      destruct (IH w1 d ls1 al Hf1 Hd Hls1 Hc1)
        as (w' & ls2 & Hdis & Hf' & Hr' & Hc' & Hls2 & Hin2 & Hoth' & Hg').
      exists w', ls2. rewrite (dispatch_cons _ _ _ _ _ _ Hdis1).
      split_and!; [done|done| |done|done| | |by eapply heap_grows_trans].
      * intros [Hin|Hr].
        -- apply Hr'. left. by apply elem_of_cons in Hin as [Heq|Hin].
        -- apply Hr'. right. eapply right_kept; [exact Hr|done|].
           intros c'. unfold cell. rewrite Hh1.
           destruct (decide (c' = h)) as [->|Hne].
           ++ rewrite list_lookup_insert_eq by (by eapply lookup_lt_Some). by rewrite Hc.
           ++ by rewrite list_lookup_insert_ne.
      * intros Hin. by apply Hin2, Hin1.
      * intros c' Hc'1 Hc'2. rewrite Hoth' by done. by rewrite Hh1, list_lookup_insert_ne.
Qed.


(** Reading [data]: a new Map with the entries of the stored one. *)
Lemma read_data items w :
  holds items w ->
  Whispr.value call (S (S depth)) (WhisprMap.data wm) w
  = Ret (VRef (length (heap (memory w))))
        (with_memory (Mem (heap (memory w) ++ [OMap (item_entries items)])
                          (console (memory w))) w).
Proof.
  intros Hf. pose proof Hf as (_ & Hnd & (a & Hd & Ha) & _).
  unfold Whispr.value, Observable.value. rewrite (cell_lookup _ _ _ _ _ Hd).
  unfold lift. cbn [_data].
  rewrite (clone_flat_map call depth a (item_entries items) (memory w) Ha); [done| |].
  - by rewrite item_entries_keys.
  - by eapply holds_entries_flat.
Qed.

Lemma holds_memory items w m :
  holds items w -> heap_grows (memory w) m -> holds items (with_memory m w).
Proof.
  intros Hf Hg. eapply holds_change; [exact Hf|done|done| |].
  - by destruct Hf as (_ & _ & _ & ? & _).
  - intros h p ls al _ _ Hh Hp Hls. by exists p, ls, al.
Qed.

Lemma item_grows w w' kb :
  item w kb ->
  heap_grows (memory w) (memory w') ->
  (forall h, h <> WhisprMap.data wm -> h <> WhisprMap.mappedData wm ->
             handles w' !! h = handles w !! h) ->
  item w' kb.
Proof.
  intros (Hk & Hs & h & p & ls & al & Hh & Hn1 & Hn2 & Hc & Hp & Hls) Hg Hoth.
  split; [done|]. split; [by eapply shared_grows|].
  exists h, p, ls, al. by rewrite Hoth.
Qed.

(** The map writes to [data] a Map that holds the items [items']. *)
Lemma write_data n items items' w tmp :
  holds items w ->
  heap (memory w) !! tmp = Some (OMap (item_entries items')) ->
  NoDup items'.*1 ->
  Forall (item w) items' ->
  exists w',
    Whispr.setter call (S (S depth)) (run (S (S n))) (WhisprMap.data wm) (VRef tmp) w
    = Ret true w' /\
    holds items' w' /\ right items' w' /\
    (forall c, c <> WhisprMap.data wm -> c <> WhisprMap.mappedData wm ->
               handles w' !! c = handles w !! c) /\
    heap_grows (memory w) (memory w').
Proof.
  intros Hf Htmp Hnd' Hitems'.
  pose proof Hf as (Hne & Hnd & (a & Hd & Ha) & (d0 & lsm & Hm & Hlsm) & Hitems).
  set (m1 := Mem (heap (memory w) ++ [OMap (item_entries items')]) (console (memory w))).
  assert (Hclone : safeClone call (S (S depth)) (VRef tmp) (memory w)
                   = Ret (VRef (length (heap (memory w)))) m1).
  { apply clone_flat_map; [done|by rewrite item_entries_keys|].
    unfold item_entries. apply Forall_fmap.
    eapply Forall_impl; [exact Hitems'|]. intros [key b] (Hk & Hs & _). simpl.
    split; [done|]. right. by exists b. }
  set (c := length (heap (memory w))).
  set (w1 := update_cell (WhisprMap.data wm)
                         (fun o => MkObservable (VRef c) (listeners o)) (with_memory m1 w)).
  assert (Hh1 : handles w1
                = <[WhisprMap.data wm:=
                      MkWhispr (MkObservable (VRef c) [LUser (closure wm)]) true]>
                    (handles w)).
  { unfold w1. by rewrite (update_cell_insert _ _ _ (VRef a) [LUser (closure wm)] true). }
  assert (Hc1 : handles w1 !! WhisprMap.data wm
                = Some (MkWhispr (MkObservable (VRef c) [LUser (closure wm)]) true)).
  { rewrite Hh1. apply list_lookup_insert_eq. by eapply lookup_lt_Some. }
  assert (Hg1 : heap_grows (memory w) (memory w1)).
  { by exists [OMap (item_entries items')]. }
  assert (Hf1 : holds items' w1).
  { split_and!; [done|done| | |].
    - exists c. split; [done|]. unfold w1, m1, c. simpl. by rewrite list_lookup_middle.
    - exists d0, lsm. by rewrite Hh1, list_lookup_insert_ne.
    - eapply Forall_impl; [exact Hitems'|]. intros kb Hkb.
      eapply item_grows; [exact Hkb|done|].
      intros h Hn1 Hn2. by rewrite Hh1, list_lookup_insert_ne. }
  destruct (notify_closure n (WhisprMap.data wm) items' w1 _ _ _ Hf1 Hc1)
    as (w2 & Hn & Hf2 & Hr2 & Hoth2 & Hg2).
  exists w2. split_and!; [|done|done| |by eapply heap_grows_trans].
  - unfold Whispr.setter, Whispr.deref. rewrite Hd. cbn [alive].
    rewrite (set_unfold call (S (S depth)) _ _ w _ m1 Hclone). cbv zeta. fold c. fold w1.
    rewrite (cell_lookup _ _ _ _ _ Hc1).
    change (default [] (listeners <$> Some (MkObservable (VRef c) [LUser (closure wm)])))
      with [LUser (closure wm)].
    assert (Hdis : dispatch (run (S (S n))) (WhisprMap.data wm) [LUser (closure wm)] w1
                   = Ret tt w2) by (by rewrite (dispatch_cons _ _ _ _ _ _ Hn)).
    by rewrite (bind_Ret _ _ _ _ _ Hdis).
  - intros c' Hc'1 Hc'2. rewrite Hoth2 by done. by rewrite Hh1, list_lookup_insert_ne.
Qed.



Lemma admits_grows w w' b :
  admits w b ->
  heap_grows (memory w) (memory w') ->
  (forall h, h <> WhisprMap.data wm -> h <> WhisprMap.mappedData wm ->
             handles w' !! h = handles w !! h) ->
  admits w' b.
Proof.
  intros (Hs & h & p & ls & al & Hh & Hn1 & Hn2 & Hc & Hp & Hls) Hg Hoth.
  split; [by eapply shared_grows|].
  exists h, p, ls, al. by rewrite Hoth.
Qed.

(** The closure stays subscribed to the items whose handles keep
    their listeners. *)
Lemma subscribed_kept items w w' :
  holds items w ->
  Forall (fun kb => subscribed w kb.2) items ->
  (forall c, c <> WhisprMap.data wm -> c <> WhisprMap.mappedData wm ->
             LUser (closure wm) ∈ default [] (listeners <$> cell c w) ->
             LUser (closure wm) ∈ default [] (listeners <$> cell c w')) ->
  Forall (fun kb => subscribed w' kb.2) items.
Proof.
  intros (_ & _ & _ & _ & Hitems) Hsub Hoth.
  apply Forall_forall. intros kb Hkb.
  eapply Forall_forall in Hitems; [|exact Hkb].
  eapply Forall_forall in Hsub; [|exact Hkb].
  destruct Hitems as (_ & _ & h & p & ls & al & Hh & Hn1 & Hn2 & Hc & _).
  destruct Hsub as (h' & ls' & Hh' & Hc' & Hin).
  rewrite Hh in Hh'. injection Hh' as <-.
  specialize (Hoth h Hn1 Hn2). rewrite Hc' in Hoth. specialize (Hoth Hin).
  destruct (listeners <$> cell h w') as [ls1|] eqn:Hc1; [|by apply not_elem_of_nil in Hoth].
  by exists h, ls1.
Qed.

Variable display : jsvalue -> string.
Variable trace : option string.

#[local] Abbreviation set := (WhisprMap.set call (S (S depth)) handle_at type_error closure maps display trace).
#[local] Abbreviation delete := (WhisprMap.delete call (S (S depth)) handle_at type_error maps).

(** X19: [set(key, value, force)] with a key that the map does not
    hold, or with [force], on a handle that the map can take: the call
    returns, the map then holds the handle under the key (at the end for
    a new key, in the place of the former handle for a key that it
    held), the closure of the map is subscribed to the handle, and
    [mappedData] holds the Map of the values of the items. *)
Theorem set_puts_the_handle_under_the_key n items w key b force :
  frame items w ->
  key ∉ items.*1 \/ force = true ->
  primitive key = true ->
  admits w b ->
  exists w',
    set (S (S n)) wm key (VRef b) force w = Ret tt w' /\
    frame (item_set items key b) w' /\
    right (item_set items key b) w'.
Proof.
  intros [Hf Hsub] Hkey Hprim Hadm.
  pose proof Hadm as (Hshared & h & p & ls & al & Hh & Hn1 & Hn2 & Hc & Hp & Hls).
  pose proof Hf as (Hne & Hnd & (a & Hd & Ha) & (d0 & lsm & Hm & Hlsm) & Hitems).
  set (E := item_entries items).
  set (n0 := length (heap (memory w))).
  set (m1 := Mem (heap (memory w) ++ [OMap E]) (console (memory w))).
  set (w1 := with_memory m1 w).
  pose proof (read_data items w Hf) as Hread1. fold E m1 w1 n0 in Hread1.
  assert (Hf1 : holds items w1) by (apply holds_memory; [done|by exists [OMap E]]).
  assert (Hhas : map_has (memory w1) (VRef n0) key && negb force = false).
  { destruct Hkey as [Hout| ->]; [|by rewrite andb_false_r].
    apply andb_false_intro1, bool_decide_eq_false.
    unfold map_entries, w1, m1, n0. simpl. rewrite list_lookup_middle by done.
    unfold E. by rewrite item_entries_keys. }
  set (m2 := Mem (heap m1 ++ [OMap E]) (console m1)).
  set (w2 := with_memory m2 w1).
  pose proof (read_data items w1 Hf1) as Hread2.
  change (memory w1) with m1 in Hread2. fold E m2 w2 in Hread2.
  set (items' := item_set items key b).
  set (m3 := Mem (heap m1 ++ [OMap (item_entries items')]) (console m1)).
  set (w3 := with_memory m3 w2).
  assert (Hupd : map_update (VRef (length (heap m1)))
                   (map_set (map_entries m2 (VRef (length (heap m1)))) key (VRef b)) m2
                 = m3).
  { unfold map_entries, map_update, store, m2, m3. cbn [heap console].
    rewrite list_lookup_middle by done. fold E. unfold E.
    rewrite item_entries_set. fold items'. f_equal.
    rewrite insert_app_r_alt by done. by rewrite Nat.sub_diag. }
  assert (Hg3 : heap_grows (memory w) (memory w3)).
  { exists ([OMap E] ++ [OMap (item_entries items')]).
    unfold w3, m3, m1. simpl. by rewrite <- app_assoc. }
  assert (Hf3 : holds items w3).
  { eapply holds_change; [exact Hf|done|done|by exists d0, lsm|].
    intros h' p' ls' al' _ _ Hh' Hp' Hls'. by exists p', ls', al'. }
  assert (Hitems3 : Forall (item w3) items').
  { apply item_set_Forall; [by destruct Hf3 as (_ & _ & _ & _ & ?)|].
    split; [done|]. by eapply admits_grows. }
  assert (Htmp : heap (memory w3) !! length (heap m1) = Some (OMap (item_entries items'))).
  { unfold w3, m3. simpl. by rewrite list_lookup_middle. }
  destruct (write_data n items items' w3 (length (heap m1)) Hf3 Htmp
              (item_set_NoDup items key b Hnd) Hitems3)
    as (w4 & Hset & Hf4 & _ & Hoth4 & Hg4).
  (* the subscription *)
  assert (Hc4 : handles w4 !! h = Some (MkWhispr (MkObservable p ls) al)).
  { by rewrite Hoth4. }
  set (w5 := update_cell h (fun o => MkObservable (_data o)
                                       (listeners o ++ [LUser (closure wm)])) w4).
  assert (Hh5 : handles w5
                = <[h:=MkWhispr (MkObservable p (ls ++ [LUser (closure wm)])) al]>
                    (handles w4)).
  { unfold w5. by rewrite (update_cell_insert _ _ _ p ls al). }
  assert (Hc5 : handles w5 !! h
                = Some (MkWhispr (MkObservable p (ls ++ [LUser (closure wm)])) al)).
  { rewrite Hh5. apply list_lookup_insert_eq. by eapply lookup_lt_Some. }
  assert (Hf5 : holds items' w5).
  { eapply holds_change; [exact Hf4|by exists []; rewrite app_nil_r| | |].
    - by rewrite Hh5, list_lookup_insert_ne.
    - destruct Hf4 as (_ & _ & _ & (d4 & lsm4 & Hm4 & Hlsm4) & _).
      exists d4, lsm4. by rewrite Hh5, list_lookup_insert_ne.
    - intros h' p' ls' al' _ _ Hh' Hp' Hls'.
      destruct (decide (h' = h)) as [->|Hneq].
      + exists p, (ls ++ [LUser (closure wm)]), al. split_and!; [done..|].
        apply Forall_app. split; [done|]. constructor; [by left|constructor].
      + exists p', ls', al'. by rewrite Hh5, list_lookup_insert_ne. }
  destruct (notify_closure n h items' w5 _ _ _ Hf5 Hc5) as (w6 & Hn & Hf6 & Hr6 & Hoth6 & Hg6).
  assert (Hlast : forall c, c <> WhisprMap.data wm -> c <> WhisprMap.mappedData wm ->
                    LUser (closure wm) ∈ default [] (listeners <$> cell c w) \/ c = h ->
                    LUser (closure wm) ∈ default [] (listeners <$> cell c w6)).
  { intros c Hc1 Hc2 Hin. unfold cell. rewrite Hoth6, Hh5 by done.
    destruct (decide (c = h)) as [->|Hneq].
    - rewrite list_lookup_insert_eq by (by eapply lookup_lt_Some). simpl.
      apply elem_of_app. right. by left.
    - rewrite list_lookup_insert_ne by done. rewrite Hoth4 by done.
      change (handles w3) with (handles w). by destruct Hin. }
  exists w6. split_and!; [| |done].
  - unfold WhisprMap.set. rewrite (bind_Ret _ _ _ _ _ Hread1). cbv beta.
    rewrite Hhas. rewrite (bind_Ret _ _ _ _ _ Hread2).
    assert (Hstore : lift (fun m => Ret tt (map_update (VRef (length (heap m1)))
                                              (map_set (map_entries m (VRef (length (heap m1))))
                                                       key (VRef b)) m)) w2
                     = Ret tt w3).
    { unfold lift. change (memory w2) with m2. by rewrite Hupd. }
    rewrite (bind_Ret _ _ _ _ _ Hstore), (bind_Ret _ _ _ _ _ Hset).
    unfold WhisprMap.handle_of. rewrite Hh.
    unfold Observable.subscribe. cbv zeta. by fold w5.
  - split; [done|]. apply item_set_Forall.
    + apply Forall_forall. intros kb Hkb.
      eapply Forall_forall in Hitems; [|exact Hkb].
      eapply Forall_forall in Hsub; [|exact Hkb].
      destruct Hitems as (_ & _ & h' & p' & ls' & al' & Hh' & Hn1' & Hn2' & Hc' & _).
      destruct Hsub as (h'' & ls'' & Hh'' & Hc'' & Hin).
      rewrite Hh' in Hh''. injection Hh'' as <-.
      pose proof (Hlast h' Hn1' Hn2') as Hl. rewrite Hc'' in Hl.
      specialize (Hl (or_introl Hin)).
      destruct (listeners <$> cell h' w6) as [ls1|] eqn:Hc1;
        [|by apply not_elem_of_nil in Hl].
      by exists h', ls1.
    + pose proof (Hlast h Hn1 Hn2 (or_intror eq_refl)) as Hl.
      destruct (listeners <$> cell h w6) as [ls1|] eqn:Hc1;
        [|by apply not_elem_of_nil in Hl].
      by exists h, ls1.
Qed.


(** X20: [set(key, value)] without [force] and with a key that the map
    holds throws [new Error(`Key ${key} already exists in the
    WhisprMap.`)]: no handle is written to, no listener is notified,
    and the heap has the copy that was read and the error more. *)
Theorem set_throws_on_a_key_that_the_map_holds fuel items w key value :
  frame items w ->
  key ∈ items.*1 ->
  exists e w',
    set fuel wm key value false w = Throw (VRef e) w' /\
    heap (memory w') !! e
    = Some (OError "Error" ("Key " +:+ display key +:+ " already exists in the WhisprMap.")
                   trace []) /\
    handles w' = handles w /\
    delivered w' = delivered w /\
    heap_grows (memory w) (memory w').
Proof.
  intros [Hf _] Hkey.
  set (E := item_entries items).
  set (n0 := length (heap (memory w))).
  set (m1 := Mem (heap (memory w) ++ [OMap E]) (console (memory w))).
  set (w1 := with_memory m1 w).
  pose proof (read_data items w Hf) as Hread1. fold E m1 w1 n0 in Hread1.
  assert (Hhas : map_has (memory w1) (VRef n0) key && negb false = true).
  { rewrite andb_true_r. apply bool_decide_eq_true.
    unfold map_entries, w1, m1, n0. simpl. rewrite list_lookup_middle by done.
    unfold E. by rewrite item_entries_keys. }
  set (err := OError "Error" ("Key " +:+ display key +:+ " already exists in the WhisprMap.")
                     trace []).
  exists (length (heap m1)), (with_memory (Mem (heap m1 ++ [err]) (console m1)) w1).
  split_and!; [|by apply list_lookup_middle|done|done|].
  - unfold WhisprMap.set. rewrite (bind_Ret _ _ _ _ _ Hread1). cbv beta.
    by rewrite Hhas.
  - exists ([OMap E] ++ [err]). simpl. by rewrite <- app_assoc.
Qed.

(** X21: [delete(key)] with a key that the map does not hold returns
    and changes nothing but the heap, which has the copy that was read
    more: no handle is written to and no listener is notified. *)
Theorem delete_ignores_a_key_that_the_map_does_not_hold fuel items w key :
  frame items w ->
  key ∉ items.*1 ->
  exists w',
    delete fuel wm key w = Ret tt w' /\
    handles w' = handles w /\
    delivered w' = delivered w /\
    heap_grows (memory w) (memory w').
Proof.
  intros [Hf _] Hkey.
  set (E := item_entries items).
  set (n0 := length (heap (memory w))).
  set (m1 := Mem (heap (memory w) ++ [OMap E]) (console (memory w))).
  set (w1 := with_memory m1 w).
  pose proof (read_data items w Hf) as Hread1. fold E m1 w1 n0 in Hread1.
  assert (Hhas : map_has (memory w1) (VRef n0) key = false).
  { apply bool_decide_eq_false.
    unfold map_entries, w1, m1, n0. simpl. rewrite list_lookup_middle by done.
    unfold E. by rewrite item_entries_keys. }
  exists w1. split_and!; [|done|done|by exists [OMap E]].
  unfold WhisprMap.delete. rewrite (bind_Ret _ _ _ _ _ Hread1). cbv beta.
  by rewrite Hhas.
Qed.

(** X22: [delete(key)] with a key that the map holds: the call
    returns, the map holds the other items, in their order, and
    [mappedData] holds the Map of their values.  The handles other than
    the two of the map are as they were, and the closure of the map is
    still subscribed to every item that the map held, the one that was
    taken off too. *)
Theorem delete_takes_the_item_off n items w key :
  frame items w ->
  key ∈ items.*1 ->
  exists w',
    delete (S (S n)) wm key w = Ret tt w' /\
    frame (filter (fun kb => kb.1 <> key) items) w' /\
    right (filter (fun kb => kb.1 <> key) items) w' /\
    (forall c, c <> WhisprMap.data wm -> c <> WhisprMap.mappedData wm ->
               handles w' !! c = handles w !! c) /\
    Forall (fun kb => subscribed w' kb.2) items.
Proof.
  intros [Hf Hsub] Hkey.
  pose proof Hf as (Hne & Hnd & (a & Hd & Ha) & (d0 & lsm & Hm & Hlsm) & Hitems).
  set (E := item_entries items).
  set (n0 := length (heap (memory w))).
  set (m1 := Mem (heap (memory w) ++ [OMap E]) (console (memory w))).
  set (w1 := with_memory m1 w).
  pose proof (read_data items w Hf) as Hread1. fold E m1 w1 n0 in Hread1.
  assert (Hhas : map_has (memory w1) (VRef n0) key = true).
  { apply bool_decide_eq_true.
    unfold map_entries, w1, m1, n0. simpl. rewrite list_lookup_middle by done.
    unfold E. by rewrite item_entries_keys. }
  set (items' := filter (fun kb : jsvalue * addr => kb.1 <> key) items).
  set (m2 := Mem (heap (memory w) ++ [OMap (item_entries items')]) (console (memory w))).
  set (w2 := with_memory m2 w1).
  assert (Hupd : map_update (VRef n0) (map_delete (map_entries m1 (VRef n0)) key) m1 = m2).
  { unfold map_entries, map_update, map_delete, store, m1, m2, n0. cbn [heap console].
    rewrite list_lookup_middle by done. unfold E.
    rewrite item_entries_filter. fold items'. f_equal.
    rewrite insert_app_r_alt by done. by rewrite Nat.sub_diag. }
  assert (Hg2 : heap_grows (memory w) (memory w2)).
  { by exists [OMap (item_entries items')]. }
  assert (Hf2 : holds items w2).
  { eapply holds_change; [exact Hf|done|done|by exists d0, lsm|].
    intros h' p' ls' al' _ _ Hh' Hp' Hls'. by exists p', ls', al'. }
  assert (Hitems2 : Forall (item w2) items').
  { apply Forall_filter_keeps. by destruct Hf2 as (_ & _ & _ & _ & ?). }
  assert (Htmp : heap (memory w2) !! n0 = Some (OMap (item_entries items'))).
  { unfold w2, m2, n0. simpl. by rewrite list_lookup_middle. }
  assert (Hnd' : NoDup items'.*1).
  { unfold items'. clear -Hnd. induction items as [|[k b] items IH]; [constructor|].
    apply NoDup_cons in Hnd as [Hk Hnd]. rewrite filter_cons. cbn [fst].
    case_decide; [|by apply IH]. cbn [fmap list_fmap fst]. apply NoDup_cons.
    split; [|by apply IH]. intros Hin. apply Hk.
    apply list_elem_of_fmap in Hin as (kb & -> & Hin%list_elem_of_filter).
    apply list_elem_of_fmap. exists kb. by destruct Hin. }
  destruct (write_data n items items' w2 n0 Hf2 Htmp Hnd' Hitems2)
    as (w3 & Hset & Hf3 & Hr3 & Hoth3 & Hg3).
  assert (Hall : Forall (fun kb => subscribed w3 kb.2) items).
  { eapply subscribed_kept; [exact Hf|exact Hsub|].
    intros c Hc1 Hc2. unfold cell. by rewrite Hoth3. }
  exists w3. split_and!; [| |done|done|done].
  - unfold WhisprMap.delete. rewrite (bind_Ret _ _ _ _ _ Hread1). cbv beta.
    rewrite Hhas. cbn [negb].
    assert (Hstore : lift (fun m => Ret tt (map_update (VRef n0)
                                              (map_delete (map_entries m (VRef n0)) key) m)) w1
                     = Ret tt w2).
    { unfold lift. change (memory w1) with m1. by rewrite Hupd. }
    by rewrite (bind_Ret _ _ _ _ _ Hstore), (bind_Ret _ _ _ _ _ Hset).
  - split; [done|]. by apply Forall_filter_keeps.
Qed.


(** X23: a write of a primitive value to a handle that the map holds:
    the handle holds the value, and the closure of the map has made
    [mappedData] hold the Map of the values of the items again. *)
Theorem write_to_an_item_refreshes_the_map n items w key b h p ls v :
  frame items w ->
  (key, b) ∈ items ->
  handle_at b = Some h ->
  handles w !! h = Some (MkWhispr (MkObservable p ls) true) ->
  primitive v = true ->
  exists w',
    Whispr.setter call (S (S depth)) (run (S (S n))) h v w = Ret true w' /\
    _data <$> cell h w' = Some v /\
    frame items w' /\
    right items w'.
Proof.
  intros [Hf Hsub] Hin Hh Hc Hv.
  pose proof Hf as (Hne & Hnd & (a & Hd & Ha) & (d0 & lsm & Hm & Hlsm) & Hitems).
  assert (Hfacts : h <> WhisprMap.data wm /\ h <> WhisprMap.mappedData wm /\
                   primitive p = true /\ Forall ours ls /\ LUser (closure wm) ∈ ls).
  { eapply Forall_forall in Hitems; [|exact Hin].
    eapply Forall_forall in Hsub; [|exact Hin].
    destruct Hitems as (_ & _ & h' & p' & ls' & al' & Hh' & Hn1' & Hn2' & Hc' & Hp' & Hls').
    destruct Hsub as (h'' & ls'' & Hh'' & Hc'' & Hin'').
    cbn [snd] in Hh', Hh''. rewrite Hh in Hh', Hh''.
    injection Hh' as <-. injection Hh'' as <-.
    rewrite Hc in Hc'. injection Hc' as <- <- <-.
    rewrite (cell_lookup _ _ _ _ _ Hc) in Hc''. by injection Hc'' as <-. }
  destruct Hfacts as (Hn1 & Hn2 & Hp & Hls & Hcl).
  set (w1 := update_cell h (fun o => MkObservable v (listeners o)) (with_memory (memory w) w)).
  assert (Hh1 : handles w1 = <[h:=MkWhispr (MkObservable v ls) true]> (handles w)).
  { unfold w1. by rewrite (update_cell_insert _ _ _ p ls true). }
  assert (Hc1 : handles w1 !! h = Some (MkWhispr (MkObservable v ls) true)).
  { rewrite Hh1. apply list_lookup_insert_eq. by eapply lookup_lt_Some. }
  assert (Hf1 : holds items w1).
  { eapply holds_change; [exact Hf|by exists []; rewrite app_nil_r| | |].
    - by rewrite Hh1, list_lookup_insert_ne.
    - exists d0, lsm. by rewrite Hh1, list_lookup_insert_ne.
    - intros h' p' ls' al' _ _ Hh' Hp' Hls'.
      destruct (decide (h' = h)) as [->|Hneq].
      + by exists v, ls, true.
      + exists p', ls', al'. by rewrite Hh1, list_lookup_insert_ne. }
  destruct (dispatch_item n h items ls Hls Hn1 Hn2 w1 v ls true Hf1 Hv Hls Hc1)
    as (w' & ls1 & Hdis & Hf' & Hr' & Hc' & Hls1 & Hin1 & Hoth' & Hg').
  exists w'. split_and!.
  - unfold Whispr.setter, Whispr.deref. rewrite Hc. cbn [alive].
    rewrite (set_unfold call (S (S depth)) _ _ w _ (memory w) (safeClone_primitive _ _ _ _ Hv)).
    cbv zeta. fold w1. rewrite (cell_lookup _ _ _ _ _ Hc1).
    change (default [] (listeners <$> Some (MkObservable v ls))) with ls.
    by rewrite (bind_Ret _ _ _ _ _ Hdis).
  - by rewrite (cell_lookup _ _ _ _ _ Hc').
  - split; [done|]. eapply subscribed_kept; [exact Hf|exact Hsub|].
    intros c Hc1' Hc2'. unfold cell. destruct (decide (c = h)) as [->|Hneq].
    + rewrite Hc, Hc'. simpl. intros _. by apply Hin1.
    + rewrite Hoth', Hh1 by done. by rewrite list_lookup_insert_ne.
  - apply Hr'. by left.
Qed.

(** X24: reading the map, when [mappedData] holds the Map of the values
    of the items: the result is a new Map, with the keys of the items in
    their order and the values that their handles hold. *)
Theorem value_is_a_new_map_of_the_values items w :
  frame items w ->
  right items w ->
  exists ps,
    WhisprMap.value call (S (S depth)) wm w
    = Ret (VRef (length (heap (memory w))))
          (with_memory (Mem (heap (memory w) ++ [OMap (zip items.*1 ps)])
                            (console (memory w))) w) /\
    Forall2 (fun kb p => item_holds handle_at w kb.2 p) items ps.
Proof.
  intros [Hf _] (c & ps & Hc & Hheap & Hps).
  pose proof Hf as (Hne & Hnd & _ & (d0 & lsm & Hm & Hlsm) & Hitems).
  rewrite (cell_lookup _ _ _ _ _ Hm) in Hc. injection Hc as ->.
  exists ps. split; [|done].
  assert (Hlen : length items.*1 = length ps).
  { rewrite length_fmap. by eapply Forall2_length. }
  unfold WhisprMap.value, Whispr.value, Observable.value.
  rewrite (cell_lookup _ _ _ _ _ Hm). unfold lift. cbn [_data].
  rewrite (clone_flat_map call depth c (zip items.*1 ps) (memory w) Hheap); [done| |].
  - by rewrite fst_zip by lia.
  - apply zip_flat.
    + apply Forall_fmap. eapply Forall_impl; [exact Hitems|]. by intros kb (? & _).
    + apply Forall_forall. intros q Hq. apply list_elem_of_lookup in Hq as (i & Hi).
      destruct (Forall2_lookup_r _ _ _ _ _ Hps Hi) as (kb & Hkb & h & Hh & Hq).
      eapply Forall_forall in Hitems; [|by eapply list_elem_of_lookup_2].
      destruct Hitems as (_ & _ & h' & p' & ls' & al' & Hh' & _ & _ & Hc' & Hp' & _).
      rewrite Hh in Hh'. injection Hh' as <-.
      rewrite (cell_lookup _ _ _ _ _ Hc') in Hq. by injection Hq as <-.
Qed.

(** X25: [WhisprMap.create()] makes two new handles, [data] and
    [mappedData], subscribes the closure of the map to the first, and
    the closure runs at once: the map holds no item and [mappedData]
    holds an empty Map.  The handles that there were are as they
    were. *)
Theorem create_makes_an_empty_map n w :
  wm = WhisprMap.Make (length (handles w)) (S (length (handles w))) ->
  exists w',
    WhisprMap.create call (S (S depth)) handle_at type_error closure maps (S (S n)) w = Ret wm w' /\
    frame [] w' /\
    right [] w' /\
    (forall c, c < length (handles w) -> handles w' !! c = handles w !! c).
Proof.
  intros Hwm.
  set (n0 := length (heap (memory w))).
  set (k := length (handles w)).
  set (m1 := Mem (heap (memory w) ++ [OMap []]) (console (memory w))).
  set (m2 := Mem (heap m1 ++ [OMap []]) (console m1)).
  set (m3 := Mem (heap m2 ++ [OMap []]) (console m2)).
  set (m4 := Mem (heap m3 ++ [OMap []]) (console m3)).
  assert (Hclone : forall m : mem,
             safeClone call (S (S depth)) (VRef (length (heap m)))
                       (Mem (heap m ++ [OMap []]) (console m))
             = Ret (VRef (S (length (heap m))))
                   (Mem ((heap m ++ [OMap []]) ++ [OMap []]) (console m))).
  { intros m.
    rewrite (clone_flat_map call depth (length (heap m)) [] (Mem (heap m ++ [OMap []]) (console m))).
    - cbn [heap console]. rewrite length_app. cbn [length]. by rewrite Nat.add_1_r.
    - cbn [heap]. by rewrite list_lookup_middle.
    - constructor.
    - constructor. }
  set (hs2 := handles w ++ [MkWhispr (MkObservable (VRef (S n0)) []) true]
                        ++ [MkWhispr (MkObservable (VRef (S (S (S n0)))) []) true]).
  set (w4 := with_handles hs2 (with_memory m4 w)).
  set (w5 := update_cell k (fun o => MkObservable (_data o)
                                       (listeners o ++ [LUser (closure wm)])) w4).
  assert (Hk4 : handles w4 !! k = Some (MkWhispr (MkObservable (VRef (S n0)) []) true)).
  { unfold w4, hs2, k. simpl. by rewrite list_lookup_middle. }
  assert (Hm4 : handles w4 !! S k
                = Some (MkWhispr (MkObservable (VRef (S (S (S n0)))) []) true)).
  { unfold w4, hs2, k. cbn [handles with_handles]. rewrite app_assoc.
    rewrite list_lookup_middle; [done|]. rewrite length_app. simpl. lia. }
  assert (Hh5 : handles w5
                = <[k:=MkWhispr (MkObservable (VRef (S n0)) [LUser (closure wm)]) true]>
                    (handles w4)).
  { unfold w5. by rewrite (update_cell_insert _ _ _ (VRef (S n0)) [] true). }
  assert (Hk5 : handles w5 !! k
                = Some (MkWhispr (MkObservable (VRef (S n0)) [LUser (closure wm)]) true)).
  { rewrite Hh5. apply list_lookup_insert_eq. by eapply lookup_lt_Some. }
  assert (Hdata : WhisprMap.data wm = k) by (by rewrite Hwm).
  assert (Hmapped : WhisprMap.mappedData wm = S k) by (by rewrite Hwm).
  assert (Hf5 : holds [] w5).
  { split_and!; rewrite ?Hdata, ?Hmapped.
    - lia.
    - constructor.
    - exists (S n0). split; [done|].
      unfold w5, w4, m4, m3, m2, m1, n0. cbn [memory heap update_cell with_handles with_memory].
      rewrite <- !app_assoc. rewrite lookup_app_r by lia.
      by replace (S (length (heap (memory w))) - length (heap (memory w))) with 1 by lia.
    - exists (VRef (S (S (S n0)))), []. split; [|constructor].
      rewrite Hh5, list_lookup_insert_ne by lia. done.
    - constructor. }
  destruct (notify_closure n k [] w5 _ _ _ Hf5 Hk5) as (w6 & Hn & Hf6 & Hr6 & Hoth6 & Hg6).
  rewrite Hmapped in Hoth6.
  exists w6. split_and!; [|by split|done|].
  - unfold WhisprMap.create.
    assert (H1 : lift (alloc (OMap [])) w = Ret (VRef n0) (with_memory m1 w)) by done.
    rewrite (bind_Ret _ _ _ _ _ H1).
    assert (H2 : Whispr.create call (S (S depth)) (VRef n0) (with_memory m1 w)
                 = Ret k (with_handles (handles w ++ [MkWhispr (MkObservable (VRef (S n0)) []) true])
                                       (with_memory m2 w))).
    { unfold Whispr.create, Observable.constructor, bind, lift. cbn [memory with_memory].
      unfold m1, n0. by rewrite Hclone. }
    rewrite (bind_Ret _ _ _ _ _ H2).
    assert (H3 : lift (alloc (OMap []))
                      (with_handles (handles w ++ [MkWhispr (MkObservable (VRef (S n0)) []) true])
                                    (with_memory m2 w))
                 = Ret (VRef (S (S n0)))
                       (with_handles (handles w ++ [MkWhispr (MkObservable (VRef (S n0)) []) true])
                                     (with_memory m3 w))).
    { unfold lift, alloc. cbn [memory with_memory with_handles]. do 2 f_equal.
      unfold m2, m1, n0. cbn [heap]. rewrite !length_app. cbn [length]. lia. }
    rewrite (bind_Ret _ _ _ _ _ H3).
    assert (H4 : Whispr.create call (S (S depth)) (VRef (S (S n0)))
                   (with_handles (handles w ++ [MkWhispr (MkObservable (VRef (S n0)) []) true])
                                 (with_memory m3 w))
                 = Ret (S k) w4).
    { unfold Whispr.create, Observable.constructor, bind, lift.
      cbn [memory with_memory with_handles].
      assert (Hl2 : S (S n0) = length (heap m2)).
      { unfold m2, m1, n0. cbn [heap]. rewrite !length_app. cbn [length]. lia. }
      unfold m3. rewrite Hl2, Hclone. cbn [handles with_handles with_memory].
      rewrite length_app. cbn [length]. rewrite Nat.add_1_r. fold k.
      unfold w4, hs2, m4, m3. rewrite <- Hl2. cbn [with_handles with_memory].
      by rewrite <- app_assoc. }
    rewrite (bind_Ret _ _ _ _ _ H4).
    assert (Hwm' : WhisprMap.Make k (S k) = wm) by (by rewrite Hwm).
    unfold Observable.subscribe. cbv zeta. rewrite Hwm'.
    unfold bind. fold w5. by rewrite Hn.
  - intros c Hc. fold k in Hc. rewrite Hoth6 by lia.
    rewrite Hh5, list_lookup_insert_ne by lia.
    unfold w4, hs2. simpl. by rewrite lookup_app_l.
Qed.

End Maps.

(** The worlds of the examples are states of the map [MapCases.wm]. *)
Lemma created_frame :
  map_frame MapCases.handle_at MapCases.closure MapCases.maps MapCases.wm [] MapCases.created.
Proof.
  split; [|constructor]. split_and!; [done|constructor| | |constructor].
  - by exists 3.
  - exists (VRef 8), []. split; [done|constructor].
Qed.

Lemma created_admits :
  map_admits MapCases.handle_at MapCases.closure MapCases.maps MapCases.wm MapCases.created 0.
Proof.
  split; [done|]. exists 0, (VNumber (Num 1)), [], true.
  split_and!; [done..|constructor].
Qed.

Lemma with_a_frame :
  map_frame MapCases.handle_at MapCases.closure MapCases.maps MapCases.wm
            [(VString "a", 0)] MapCases.with_a.
Proof.
  split; [split_and!|].
  - done.
  - apply NoDup_singleton.
  - by exists 11.
  - exists (VRef 17), []. split; [done|constructor].
  - constructor; [|constructor]. split; [done|]. split; [done|].
    exists 0, (VNumber (Num 1)), [LUser (MapCases.closure MapCases.wm)], true.
    split_and!; [done..|]. constructor; [by left|constructor].
  - constructor; [|constructor].
    exists 0, [LUser (MapCases.closure MapCases.wm)]. split_and!; [done..|by left].
Qed.

Lemma with_a_right :
  mapped_right MapCases.handle_at MapCases.wm [(VString "a", 0)] MapCases.with_a.
Proof.
  exists 17, [VNumber (Num 1)]. split_and!; [done..|].
  constructor; [|constructor]. by exists 0.
Qed.

Lemma set_puts_the_handle_under_the_key_witness :
  exists w',
    WhisprMap.set Scenario.quiet 2 MapCases.handle_at MapCases.type_error MapCases.closure MapCases.maps
                  MapCases.display None 2 MapCases.wm (VString "a") (VRef 0) false
                  MapCases.created
    = Ret tt w' /\
    map_frame MapCases.handle_at MapCases.closure MapCases.maps MapCases.wm
              (item_set [] (VString "a") 0) w' /\
    mapped_right MapCases.handle_at MapCases.wm (item_set [] (VString "a") 0) w'.
Proof.
  apply (set_puts_the_handle_under_the_key Scenario.quiet 0 MapCases.handle_at
           MapCases.type_error MapCases.closure MapCases.maps quiet_allocates_only MapCases.wm eq_refl
           MapCases.display None 0 [] MapCases.created (VString "a") 0 false).
  - exact created_frame.
  - left. apply not_elem_of_nil.
  - reflexivity.
  - exact created_admits.
Defined.

Lemma set_throws_on_a_key_that_the_map_holds_witness :
  exists e w',
    WhisprMap.set Scenario.quiet 2 MapCases.handle_at MapCases.type_error MapCases.closure MapCases.maps
                  MapCases.display None 2 MapCases.wm (VString "a") (VRef 1) false
                  MapCases.with_a
    = Throw (VRef e) w' /\
    heap (memory w') !! e
    = Some (OError "Error"
                   ("Key " +:+ MapCases.display (VString "a")
                    +:+ " already exists in the WhisprMap.") None []) /\
    handles w' = handles MapCases.with_a /\
    delivered w' = delivered MapCases.with_a /\
    heap_grows (memory MapCases.with_a) (memory w').
Proof.
  apply (set_throws_on_a_key_that_the_map_holds Scenario.quiet 0 MapCases.handle_at
           MapCases.type_error MapCases.closure MapCases.maps MapCases.wm MapCases.display None 2
           [(VString "a", 0)] MapCases.with_a (VString "a") (VRef 1)).
  - exact with_a_frame.
  - by left.
Defined.

Lemma delete_ignores_a_key_that_the_map_does_not_hold_witness :
  exists w',
    WhisprMap.delete Scenario.quiet 2 MapCases.handle_at MapCases.type_error MapCases.maps 2 MapCases.wm
                     (VString "b") MapCases.with_a
    = Ret tt w' /\
    handles w' = handles MapCases.with_a /\
    delivered w' = delivered MapCases.with_a /\
    heap_grows (memory MapCases.with_a) (memory w').
Proof.
  apply (delete_ignores_a_key_that_the_map_does_not_hold Scenario.quiet 0
           MapCases.handle_at MapCases.type_error MapCases.closure MapCases.maps MapCases.wm 2
           [(VString "a", 0)] MapCases.with_a (VString "b")).
  - exact with_a_frame.
  - by intros [=]%list_elem_of_singleton.
Defined.

Lemma delete_takes_the_item_off_witness :
  exists w',
    WhisprMap.delete Scenario.quiet 2 MapCases.handle_at MapCases.type_error MapCases.maps 2 MapCases.wm
                     (VString "a") MapCases.with_a
    = Ret tt w' /\
    map_frame MapCases.handle_at MapCases.closure MapCases.maps MapCases.wm
              (filter (fun kb => kb.1 <> VString "a") [(VString "a", 0)]) w' /\
    mapped_right MapCases.handle_at MapCases.wm
                 (filter (fun kb => kb.1 <> VString "a") [(VString "a", 0)]) w' /\
    (forall c, c <> WhisprMap.data MapCases.wm -> c <> WhisprMap.mappedData MapCases.wm ->
               handles w' !! c = handles MapCases.with_a !! c) /\
    Forall (fun kb => map_subscribed MapCases.handle_at MapCases.closure MapCases.wm w' kb.2)
           [(VString "a", 0)].
Proof.
  apply (delete_takes_the_item_off Scenario.quiet 0 MapCases.handle_at MapCases.type_error
           MapCases.closure
           MapCases.maps quiet_allocates_only MapCases.wm eq_refl 0
           [(VString "a", 0)] MapCases.with_a (VString "a")).
  - exact with_a_frame.
  - by left.
Defined.

Lemma write_to_an_item_refreshes_the_map_witness :
  exists w',
    Whispr.setter Scenario.quiet 2
                  (WhisprMap.run_listener Scenario.quiet 2 MapCases.handle_at MapCases.type_error MapCases.maps 2)
                  0 (VNumber (Num 5)) MapCases.with_a
    = Ret true w' /\
    _data <$> cell 0 w' = Some (VNumber (Num 5)) /\
    map_frame MapCases.handle_at MapCases.closure MapCases.maps MapCases.wm
              [(VString "a", 0)] w' /\
    mapped_right MapCases.handle_at MapCases.wm [(VString "a", 0)] w'.
Proof.
  apply (write_to_an_item_refreshes_the_map Scenario.quiet 0 MapCases.handle_at
           MapCases.type_error MapCases.closure MapCases.maps quiet_allocates_only MapCases.wm eq_refl 0
           [(VString "a", 0)] MapCases.with_a (VString "a") 0 0 (VNumber (Num 1))
           [LUser (MapCases.closure MapCases.wm)] (VNumber (Num 5))).
  - exact with_a_frame.
  - by left.
  - reflexivity.
  - reflexivity.
  - reflexivity.
Defined.

Lemma value_is_a_new_map_of_the_values_witness :
  exists ps,
    WhisprMap.value Scenario.quiet 2 MapCases.wm MapCases.with_a
    = Ret (VRef (length (heap (memory MapCases.with_a))))
          (with_memory (Mem (heap (memory MapCases.with_a)
                             ++ [OMap (zip [(VString "a", 0)].*1 ps)])
                            (console (memory MapCases.with_a))) MapCases.with_a) /\
    Forall2 (fun kb p => item_holds MapCases.handle_at MapCases.with_a kb.2 p)
            [(VString "a", 0)] ps.
Proof.
  apply (value_is_a_new_map_of_the_values Scenario.quiet 0 MapCases.handle_at
           MapCases.closure MapCases.maps MapCases.wm [(VString "a", 0)] MapCases.with_a).
  - exact with_a_frame.
  - exact with_a_right.
Defined.

Lemma create_makes_an_empty_map_witness :
  exists w',
    WhisprMap.create Scenario.quiet 2 MapCases.handle_at MapCases.type_error MapCases.closure MapCases.maps 2
                     MapCases.start
    = Ret MapCases.wm w' /\
    map_frame MapCases.handle_at MapCases.closure MapCases.maps MapCases.wm [] w' /\
    mapped_right MapCases.handle_at MapCases.wm [] w' /\
    (forall c, c < length (handles MapCases.start) ->
               handles w' !! c = handles MapCases.start !! c).
Proof.
  apply (create_makes_an_empty_map Scenario.quiet 0 MapCases.handle_at MapCases.type_error
           MapCases.closure
           MapCases.maps quiet_allocates_only MapCases.wm eq_refl 0 MapCases.start).
  reflexivity.
Defined.

(** ** Waiting on a map *)

(** [wait] on a map is [wait] on its [mappedData]. *)
Lemma map_wait_is_wait
    (call : fn -> jsvalue -> list jsvalue -> M mem jsvalue) (depth : nat)
    (handle_at : addr -> option nat) (type_error : jsvalue -> string -> object)
    (maps : fn -> option WhisprMap.t) (n : nat) (wm : WhisprMap.t) (cb : predicate)
    (w : world) :
  WhisprMap.wait call depth handle_at type_error maps (S n) wm cb w
  = Whispr.wait call depth (S n) (WhisprMap.mappedData wm) cb w.
Proof.
  unfold WhisprMap.wait, Whispr.wait, WhisprMap.subscribe, Whispr.subscribe,
    Observable.subscribe. cbv zeta. unfold bind.
  by rewrite (notify_ext _ (Whispr.run_listener call depth (S n))).
Qed.

(** X27: [load()] on a map never waits: [mappedData] holds a Map, which
    is truthy even when it is empty, so the promise is resolved at once,
    with the stored Map itself, not a copy of it, and the listener of the
    [load] is off the list.  No user code runs. *)
Theorem load_of_a_map_settles_at_once
    (call : fn -> jsvalue -> list jsvalue -> M mem jsvalue) (depth : nat)
    (handle_at : addr -> option nat) (type_error : jsvalue -> string -> object)
    (maps : fn -> option WhisprMap.t) (n : nat) (wm : WhisprMap.t)
    (w : world) (c : addr) (ls : list listener) (al : bool) :
  handles w !! WhisprMap.mappedData wm = Some (MkWhispr (MkObservable (VRef c) ls) al) ->
  WhisprMap.load call depth handle_at type_error maps (S n) wm w
  = Ret (length (promises w))
        (World (memory w)
           (<[WhisprMap.mappedData wm:=
                MkWhispr
                  (MkObservable (VRef c)
                     (filter (fun l => l <> LWait PLoad (length (promises w))) ls))
                  al]> (handles w))
           (promises w ++ [Some (VRef c)])
           (suspended w)
           (delivered w
            ++ [(WhisprMap.mappedData wm, LWait PLoad (length (promises w)), VRef c)])).
Proof.
  intros Hh. unfold WhisprMap.load. rewrite map_wait_is_wait.
  rewrite (wait_unfold call depth n _ PLoad w (VRef c) ls al Hh).
  assert (Hlen : WhisprMap.mappedData wm < length (handles w)) by (by eapply lookup_lt_Some).
  set (w2 := World _ _ _ _ _).
  assert (Hrun : Whispr.run_listener call depth (S n) (LWait PLoad (length (promises w)))
                                     (VRef c) w2
                 = Ret (VString "STOP") (Whispr.resolve (length (promises w)) (VRef c) w2)).
  { done. }
  rewrite Hrun. cbn [is_promise]. f_equal. by apply wait_resolved.
Qed.

Lemma load_of_a_map_settles_at_once_witness :
  WhisprMap.load Scenario.quiet 2 MapCases.handle_at MapCases.type_error MapCases.maps 1
                 MapCases.wm MapCases.created
  = Ret (length (promises MapCases.created))
        (World (memory MapCases.created)
           (<[WhisprMap.mappedData MapCases.wm:=
                MkWhispr
                  (MkObservable (VRef 8)
                     (filter (fun l => l <> LWait PLoad (length (promises MapCases.created)))
                             []))
                  true]> (handles MapCases.created))
           (promises MapCases.created ++ [Some (VRef 8)])
           (suspended MapCases.created)
           (delivered MapCases.created
            ++ [(WhisprMap.mappedData MapCases.wm,
                 LWait PLoad (length (promises MapCases.created)), VRef 8)])).
Proof.
  apply (load_of_a_map_settles_at_once Scenario.quiet 2 MapCases.handle_at
           MapCases.type_error MapCases.maps 0 MapCases.wm MapCases.created 8 [] true).
  reflexivity.
Defined.

(** ** Sharing inside a value *)

(** The copies that one walk of [safeClone] over a list allocates are
    pairwise distinct. *)
Lemma traverse_clone_apart call k xs :
  forall m, Forall (finite_plain k (heap m)) xs ->
  exists ys m',
    traverse (safeClone call k) xs m = Ret ys m' /\ extends m m' /\
    Forall2 (copy_of k (length (heap m)) (heap m')) xs ys /\
    (forall i j a, i < j -> ys !! i = Some (VRef a) -> length (heap m) <= a ->
                   ys !! j <> Some (VRef a)).
Proof.
  induction xs as [|x xs IH]; intros m HP.
  - exists [], m. split_and!; [done|apply extends_refl|constructor|done].
  - apply Forall_cons in HP as [Hx Hxs].
    destruct (clone_spec call k x m Hx) as (y & m1 & Hcx & Hext1 & Hcopy).
    pose proof Hext1 as [h1 Hm1].
    assert (Hxs1 : Forall (finite_plain k (heap m1)) xs).
    { subst m1. simpl. eapply Forall_impl; [exact Hxs|]. intros; by apply finite_plain_ext. }
    destruct (IH m1 Hxs1) as (ys & m2 & Htr & Hext2 & Hcopies & Hapart).
    pose proof Hext2 as [h2 Hm2].
    pose proof (extends_length _ _ Hext1) as Hlen1.
    assert (Hnew : forall i a, ys !! i = Some (VRef a) -> length (heap m) <= a ->
                               length (heap m1) <= a).
    { intros i a Hi Ha.
      destruct (Forall2_lookup_r _ _ _ _ _ Hcopies Hi) as (x' & Hx' & ([Hs|(a' & Ha' & Hge)] & _)).
      - eapply Forall_lookup_1 in Hxs; [|exact Hx'].
        destruct Hxs as (t & Hr & _). apply reify_bounded in Hr.
        rewrite <- Hs in Hr. simpl in Hr. apply bool_decide_eq_true in Hr. lia.
      - by injection Ha' as ->. }
    exists (y :: ys), m2. split_and!.
    + by eapply traverse_cons_Ret.
    + by eapply extends_trans.
    + constructor.
      * subst m2. simpl. by apply copy_of_ext.
      * eapply Forall2_impl; [exact Hcopies|]. intros x' y' Hc.
        eapply copy_of_weaken; [|exact Hc]. done.
    + intros [|i] [|j] a Hij Hi Ha Hj; [lia| |lia|].
      * simpl in Hi, Hj. injection Hi as ->.
        pose proof (Hnew j a Hj Ha) as Hge.
        destruct Hcopy as (_ & Hb & _). simpl in Hb. apply bool_decide_eq_true in Hb. lia.
      * simpl in Hi, Hj. apply (Hapart i j a); [lia|done| |done]. by eapply Hnew.
Qed.

(** X26: [safeClone] does not preserve sharing inside a value: when two
    items of an array are the same object, of a kind that [safeClone]
    copies, the copy of the array has two distinct new objects at these
    two places. *)
Theorem aliased_items_are_copied_apart
    (call : fn -> jsvalue -> list jsvalue -> M mem jsvalue) (k : nat) (m : mem)
    (r : addr) (items : list jsvalue) (i j : nat) (a : addr) (t : tree) :
  heap m !! r = Some (OArray items) ->
  Forall (finite_plain k (heap m)) items ->
  i <> j ->
  items !! i = Some (VRef a) ->
  items !! j = Some (VRef a) ->
  reify k (heap m) (VRef a) = Some t ->
  cloneable t = true ->
  t <> TShared a ->
  exists m' items' ai aj,
    safeClone call (S k) (VRef r) m
    = Ret (VRef (length (heap m'))) (Mem (heap m' ++ [OArray items']) (console m')) /\
    extends m m' /\
    items' !! i = Some (VRef ai) /\
    items' !! j = Some (VRef aj) /\
    ai <> aj /\
    length (heap m) <= ai /\
    length (heap m) <= aj.
Proof.
  intros Hr Hitems Hij Hi Hj Ht Hcl Hns.
  destruct (traverse_clone_apart call k items m Hitems) as (ys & m' & Htr & Hext & Hcopies & Hapart).
  assert (Hfresh : forall n, items !! n = Some (VRef a) ->
                             exists a', ys !! n = Some (VRef a') /\ length (heap m) <= a').
  { intros n Hn.
    destruct (Forall2_lookup_l _ _ _ _ _ Hcopies Hn)
      as (y & Hy & (Hfs & _ & _ & t' & Hr' & Hc)).
    destruct Hext as [h' ->]. simpl in *.
    rewrite (reify_extend _ _ h' _ _ Ht) in Hr'. injection Hr' as <-.
    destruct (Hc Hcl) as [_ Hiso].
    destruct Hfs as [->|(a' & -> & Hge)]; [|by exists a'].
    exists a. split; [done|].
    destruct (decide (length (heap m) <= a)) as [|Hlt]; [done|].
    exfalso. apply Hns. eapply isolated_old; [exact Hiso|lia| |done].
    by apply reify_extend. }
  destruct (Hfresh i Hi) as (ai & Hyi & Hgi), (Hfresh j Hj) as (aj & Hyj & Hgj).
  exists m', ys, ai, aj. split_and!; [|done..| |done|done].
  - cbn [safeClone]. rewrite Hr. unfold bind. by rewrite Htr.
  - intros ->. destruct (decide (i < j)).
    + by apply (Hapart i j aj).
    + apply (Hapart j i aj); [lia|done..].
Qed.

Lemma aliased_items_are_copied_apart_witness :
  exists m' items' ai aj,
    safeClone Scenario.quiet 3 (VRef 1) (Mem Cases.twice [])
    = Ret (VRef (length (heap m'))) (Mem (heap m' ++ [OArray items']) (console m')) /\
    extends (Mem Cases.twice []) m' /\
    items' !! 0 = Some (VRef ai) /\
    items' !! 1 = Some (VRef aj) /\
    ai <> aj /\
    length (heap (Mem Cases.twice [])) <= ai /\
    length (heap (Mem Cases.twice [])) <= aj.
Proof.
  apply (aliased_items_are_copied_apart Scenario.quiet 2 (Mem Cases.twice []) 1
           [VRef 0; VRef 0] 0 1 0
           (TRecord ProtoObject [("a", TPrim (VNumber (Num 1)))])).
  - reflexivity.
  - repeat constructor;
      by exists (TRecord ProtoObject [("a", TPrim (VNumber (Num 1)))]).
  - lia.
  - reflexivity.
  - reflexivity.
  - reflexivity.
  - reflexivity.
  - discriminate.
Defined.
